(** * rygonet: the OCR card extractor ([scripts/extractor_ocr.py])

    A shallow embedding of the pure core of the extractor: the numeric
    parsers, the line-level OCR corrector, the OCR/PDF line aligner, the
    slug and de-duplication pass, and the card grammar [parse_card_text].

    Text.  A Python [str] is modelled as a Rocq [string]; one [ascii] is one
    code point, and the character classes ([isspace], [isdigit], [\w], case
    mapping) are those of Python on code points below 128.  The only place
    where the source works on code points above 127 by construction is
    [slugify] (NFKD followed by an ASCII filter); there the input is a list
    of code points and the normaliser of [unicodedata] is a parameter.

    Regular expressions.  The patterns of the source are values of [regex],
    run by a backtracking matcher with the priorities of Python's [re]
    (leftmost alternative first, greedy and lazy repetition, groups,
    look-ahead, word boundaries).  Where a comment quotes a pattern of the
    source, the double quote character is written [\q].

    Errors.  A Python exception is the [Exn] constructor of [result]. *)

From Stdlib Require Import ZArith QArith Ascii String List Bool Lia Arith.
From stdpp Require Import base gmap sets list strings.
Close Scope Q_scope.
Close Scope Z_scope.
Open Scope string_scope.
Open Scope list_scope.
Open Scope nat_scope.

Set Default Proof Using "Type".
Set Warnings "-clear-no-such-hyp".

(* ===================================================================== *)
(** ** Characters and strings                                             *)
(* ===================================================================== *)

Module Str.

Definition code (c : ascii) : nat := nat_of_ascii c.

Definition chr (n : nat) : ascii := ascii_of_nat n.

(** The double quote, the line feed and friends, by code point. *)
Definition dquote : ascii := chr 34.
Definition LF : ascii := chr 10.

Definition between (lo hi : nat) (c : ascii) : bool :=
  (lo <=? code c) && (code c <=? hi).

Definition is_digit (c : ascii) : bool := between 48 57 c.
Definition is_upper (c : ascii) : bool := between 65 90 c.
Definition is_lower (c : ascii) : bool := between 97 122 c.
Definition is_alpha (c : ascii) : bool := is_upper c || is_lower c.
Definition is_alnum (c : ascii) : bool := is_alpha c || is_digit c.

(** [str.isspace] and the class [\s]: TAB, LF, VT, FF, CR, the four
    separators 0x1c-0x1f and the space. *)
Definition is_space (c : ascii) : bool := between 9 13 c || between 28 32 c.

(** The class [\w]. *)
Definition is_word (c : ascii) : bool := is_alnum c || (code c =? 95).

Definition to_lower (c : ascii) : ascii :=
  if is_upper c then chr (code c + 32) else c.

Definition to_upper (c : ascii) : ascii :=
  if is_lower c then chr (code c - 32) else c.

Definition eqc (a b : ascii) : bool := Ascii.eqb a b.

Definition chars (s : string) : list ascii := list_ascii_of_string s.
Definition of_chars (l : list ascii) : string := string_of_list_ascii l.

Definition len (s : string) : nat := String.length s.

Definition lower (s : string) : string := of_chars (map to_lower (chars s)).
Definition upper (s : string) : string := of_chars (map to_upper (chars s)).

(** [s.lstrip()], [s.rstrip()], [s.strip()], and the variants that strip
    the characters of a given set. *)
Fixpoint lstrip_by (p : ascii -> bool) (l : list ascii) : list ascii :=
  match l with
  | c :: t => if p c then lstrip_by p t else l
  | [] => []
  end.

Definition rstrip_by (p : ascii -> bool) (l : list ascii) : list ascii :=
  rev (lstrip_by p (rev l)).

Definition strip_by (p : ascii -> bool) (l : list ascii) : list ascii :=
  rstrip_by p (lstrip_by p l).

Definition strip (s : string) : string := of_chars (strip_by is_space (chars s)).
Definition strip_char (c : ascii) (s : string) : string :=
  of_chars (strip_by (eqc c) (chars s)).
Definition rstrip_char (c : ascii) (s : string) : string :=
  of_chars (rstrip_by (eqc c) (chars s)).

Definition is_empty (s : string) : bool :=
  match s with EmptyString => true | _ => false end.

(** Truth value of a string: non-empty. *)
Definition truthy (s : string) : bool := negb (is_empty s).

Fixpoint starts_l (p l : list ascii) : bool :=
  match p, l with
  | [], _ => true
  | a :: p', b :: l' => eqc a b && starts_l p' l'
  | _ :: _, [] => false
  end.

Definition startswith (s p : string) : bool := starts_l (chars p) (chars s).
Definition endswith (s p : string) : bool :=
  starts_l (rev (chars p)) (rev (chars s)).

(** [sub in s]. *)
Fixpoint contains_l (p l : list ascii) : bool :=
  starts_l p l || match l with [] => false | _ :: t => contains_l p t end.

Definition contains (s sub : string) : bool := contains_l (chars sub) (chars s).

Definition has_char (c : ascii) (s : string) : bool :=
  existsb (eqc c) (chars s).

(** [s.split(sep)] for a one-character separator: every occurrence splits. *)
Fixpoint split_on (c : ascii) (cur : list ascii) (l : list ascii) : list string :=
  match l with
  | [] => [of_chars (rev cur)]
  | a :: t => if eqc a c then of_chars (rev cur) :: split_on c [] t
              else split_on c (a :: cur) t
  end.

Definition split_char (c : ascii) (s : string) : list string :=
  split_on c [] (chars s).

(** [s.split(sep, 1)] for a non-empty separator: the text before the first
    occurrence and the text after it, or [s] alone. *)
Fixpoint split1_l (sep : list ascii) (cur : list ascii) (l : list ascii)
  : list ascii * option (list ascii) :=
  if starts_l sep l then (rev cur, Some (skipn (length sep) l))
  else match l with
       | [] => (rev cur, None)
       | a :: t => split1_l sep (a :: cur) t
       end.

Definition split1 (sep s : string) : string * option string :=
  let '(a, b) := split1_l (chars sep) [] (chars s) in
  (of_chars a, option_map of_chars b).

(** [s.split()]: the maximal runs of non-blank characters. *)
Fixpoint words_l (cur : list ascii) (l : list ascii) : list string :=
  match l with
  | [] => match cur with [] => [] | _ => [of_chars (rev cur)] end
  | a :: t =>
      if is_space a
      then match cur with
           | [] => words_l [] t
           | _ => of_chars (rev cur) :: words_l [] t
           end
      else words_l (a :: cur) t
  end.

Definition words (s : string) : list string := words_l [] (chars s).

(** [s.replace(old, new)] for a non-empty [old]: occurrences are replaced
    from left to right and do not overlap. *)
Fixpoint replace_l (fuel : nat) (old new : list ascii) (l : list ascii) : list ascii :=
  match fuel with
  | 0 => l
  | S fuel' =>
      if starts_l old l then new ++ replace_l fuel' old new (skipn (length old) l)
      else match l with
           | [] => []
           | a :: t => a :: replace_l fuel' old new t
           end
  end.

Definition replace (old new s : string) : string :=
  of_chars (replace_l (S (len s)) (chars old) (chars new) (chars s)).

(** [sep.join(items)]. *)
Fixpoint join (sep : string) (items : list string) : string :=
  match items with
  | [] => ""
  | [x] => x
  | x :: rest => x +:+ sep +:+ join sep rest
  end.

(** [s.isdigit()]: non-empty, digits only. *)
Definition isdigit (s : string) : bool :=
  truthy s && forallb is_digit (chars s).

(** [int(s)] on a string of decimal digits. *)
Definition digit_val (c : ascii) : Z := Z.of_nat (code c - 48).

Definition int_of_digits (s : string) : Z :=
  fold_left (fun acc c => (10 * acc + digit_val c)%Z) (chars s) 0%Z.

(** [s[i:]] and [s[:i]]. *)
Definition suffix_from (i : nat) (s : string) : string := of_chars (skipn i (chars s)).
Definition prefix_upto (i : nat) (s : string) : string := of_chars (firstn i (chars s)).

(** [s.title()]: a letter that follows a letter is lowered, any other letter
    is raised. *)
Fixpoint title_l (prev_cased : bool) (l : list ascii) : list ascii :=
  match l with
  | [] => []
  | c :: t =>
      (if prev_cased then to_lower c else to_upper c) :: title_l (is_alpha c) t
  end.

Definition title (s : string) : string := of_chars (title_l false (chars s)).

(** [s.splitlines()]: LF, CR, CR LF, VT, FF and the separators 0x1c-0x1e end
    a line; no empty last line. *)
Definition is_linebreak (c : ascii) : bool :=
  between 10 13 c || between 28 30 c.

Fixpoint splitlines_l (cur : list ascii) (l : list ascii) : list string :=
  match l with
  | [] => match cur with [] => [] | _ => [of_chars (rev cur)] end
  | a :: t =>
      if is_linebreak a
      then of_chars (rev cur) ::
           match t with
           | b :: t' => if (code a =? 13) && (code b =? 10)
                        then splitlines_l [] t' else splitlines_l [] t
           | [] => []
           end
      else splitlines_l (a :: cur) t
  end.

Definition splitlines (s : string) : list string := splitlines_l [] (chars s).

End Str.

(* ===================================================================== *)
(** ** Regular expressions                                                *)
(* ===================================================================== *)

Module Re.
Import Str.

(** The fragment of Python's pattern language the extractor uses. *)
Inductive regex : Type :=
| Eps                                  (* the empty pattern *)
| Cls (p : ascii -> bool)              (* one character of a class *)
| Cat (r1 r2 : regex)                  (* r1 r2 *)
| Alt (r1 r2 : regex)                  (* r1|r2, r1 tried first *)
| Rep (greedy : bool) (r : regex)      (* r* and r*? *)
| Grp (n : nat) (r : regex)            (* capturing group number n *)
| Bol                                  (* ^ *)
| Eol                                  (* $ *)
| Wb                                   (* \b *)
| Ahead (r : regex).                   (* (?=r) *)

(** A position in the subject: the offset, the character before it, the
    text after it and the groups captured so far (start and end offsets,
    most recent first). *)
Record mstate : Type := MState {
  m_pos : nat;
  m_prev : option ascii;
  m_rest : list ascii;
  m_caps : list (nat * (nat * nat))
}.

Definition advance (c : ascii) (t : list ascii) (s : mstate) : mstate :=
  MState (S (m_pos s)) (Some c) t (m_caps s).

Definition set_cap (n a b : nat) (s : mstate) : mstate :=
  MState (m_pos s) (m_prev s) (m_rest s) ((n, (a, b)) :: m_caps s).

Definition word_before (s : mstate) : bool :=
  match m_prev s with Some c => is_word c | None => false end.

Definition word_after (s : mstate) : bool :=
  match m_rest s with c :: _ => is_word c | [] => false end.

(** The loop of a repetition, for a body given as a matcher: at most [n]
    more iterations, and an iteration only counts when the body made
    progress.  Greedy repetition tries one more iteration before the
    continuation, lazy repetition the continuation first. *)
Fixpoint rep_loop (body : (mstate -> option mstate) -> mstate -> option mstate)
  (greedy : bool) (k : mstate -> option mstate) (n : nat) (s : mstate)
  {struct n} : option mstate :=
  match n with
  | 0 => k s
  | S n' =>
      let again :=
        body (fun s' => if m_pos s <? m_pos s'
                        then rep_loop body greedy k n' s' else None) s in
      if greedy
      then match again with Some x => Some x | None => k s end
      else match k s with Some x => Some x | None => again end
  end.

(** The matcher, in continuation-passing style: [k] is what remains to be
    matched after [r]; the first success in priority order is returned.
    The bound given to [rep_loop], the length of the remaining text plus
    one, is never the reason for stopping: every iteration consumes a
    character. *)
Fixpoint rmatch (r : regex) (k : mstate -> option mstate) (s : mstate)
  {struct r} : option mstate :=
  match r with
  | Eps => k s
  | Cls p =>
      match m_rest s with
      | c :: t => if p c then k (advance c t s) else None
      | [] => None
      end
  | Cat r1 r2 => rmatch r1 (rmatch r2 k) s
  | Alt r1 r2 =>
      match rmatch r1 k s with
      | Some x => Some x
      | None => rmatch r2 k s
      end
  | Rep greedy r1 => rep_loop (rmatch r1) greedy k (S (length (m_rest s))) s
  | Grp n r1 => rmatch r1 (fun s' => k (set_cap n (m_pos s) (m_pos s') s')) s
  | Bol => if m_pos s =? 0 then k s else None
  | Eol =>
      match m_rest s with
      | [] => k s
      | [c] => if code c =? 10 then k s else None
      | _ => None
      end
  | Wb => if xorb (word_before s) (word_after s) then k s else None
  | Ahead r1 =>
      match rmatch r1 Some s with
      | Some _ => k s
      | None => None
      end
  end.

(** *** Pattern combinators *)

Definition one (c : ascii) : regex := Cls (eqc c).

(** A character under [re.IGNORECASE]. *)
Definition onei (c : ascii) : regex :=
  Cls (fun x => eqc (to_lower x) (to_lower c)).

Fixpoint lit_l (l : list ascii) : regex :=
  match l with
  | [] => Eps
  | [c] => one c
  | c :: t => Cat (one c) (lit_l t)
  end.

Fixpoint liti_l (l : list ascii) : regex :=
  match l with
  | [] => Eps
  | [c] => onei c
  | c :: t => Cat (onei c) (liti_l t)
  end.

Definition lit (s : string) : regex := lit_l (chars s).
Definition liti (s : string) : regex := liti_l (chars s).

Definition star (r : regex) : regex := Rep true r.
Definition plus (r : regex) : regex := Cat r (Rep true r).
Definition lazy_plus (r : regex) : regex := Cat r (Rep false r).
Definition opt (r : regex) : regex := Alt r Eps.

Fixpoint cat (rs : list regex) : regex :=
  match rs with
  | [] => Eps
  | [r] => r
  | r :: t => Cat r (cat t)
  end.

Fixpoint alt (rs : list regex) : regex :=
  match rs with
  | [] => Cls (fun _ => false)
  | [r] => r
  | r :: t => Alt r (alt t)
  end.

(** Character classes. *)
Definition in_set (s : string) (c : ascii) : bool := existsb (eqc c) (chars s).
Definition in_seti (s : string) (c : ascii) : bool :=
  existsb (fun x => eqc (to_lower c) (to_lower x)) (chars s).
Definition not_in (s : string) (c : ascii) : bool := negb (in_set s c).

Definition digit : regex := Cls is_digit.            (* \d *)
Definition space : regex := Cls is_space.            (* \s *)
Definition nonspace : regex := Cls (fun c => negb (is_space c)).   (* \S *)
Definition dot : regex := Cls (fun c => negb (code c =? 10)).      (* . *)
Definition dq : regex := one dquote.

(** *** Running a pattern *)

Definition start_state (s : string) : mstate := MState 0 None (chars s) [].

(** The state reached after skipping the first [n] characters. *)
Fixpoint skip_state (n : nat) (s : mstate) : mstate :=
  match n with
  | 0 => s
  | S n' =>
      match m_rest s with
      | c :: t => skip_state n' (advance c t s)
      | [] => s
      end
  end.

(** A successful match: where it started, where it ended, its groups. *)
Record rmatch_obj : Type := MatchObj {
  mo_subject : string;
  mo_start : nat;
  mo_end : nat;
  mo_caps : list (nat * (nat * nat))
}.

Definition match_at (r : regex) (subject : string) (s : mstate) : option rmatch_obj :=
  match rmatch r Some s with
  | Some s' => Some (MatchObj subject (m_pos s) (m_pos s') (m_caps s'))
  | None => None
  end.

(** [re.match(r, subject)]. *)
Definition re_match (r : regex) (subject : string) : option rmatch_obj :=
  match_at r subject (start_state subject).

(** [re.search(r, subject)], scanning from the state [s]. *)
Fixpoint search_from (fuel : nat) (r : regex) (subject : string) (s : mstate)
  : option rmatch_obj :=
  match match_at r subject s with
  | Some m => Some m
  | None =>
      match fuel, m_rest s with
      | S fuel', c :: t => search_from fuel' r subject (advance c t s)
      | _, _ => None
      end
  end.

Definition re_search (r : regex) (subject : string) : option rmatch_obj :=
  search_from (len subject) r subject (start_state subject).

Definition matches (r : regex) (subject : string) : bool :=
  match re_match r subject with Some _ => true | None => false end.

Definition found (r : regex) (subject : string) : bool :=
  match re_search r subject with Some _ => true | None => false end.

Fixpoint cap_lookup (n : nat) (caps : list (nat * (nat * nat))) : option (nat * nat) :=
  match caps with
  | [] => None
  | (m, ab) :: t => if n =? m then Some ab else cap_lookup n t
  end.

Definition slice (a b : nat) (s : string) : string :=
  of_chars (firstn (b - a) (skipn a (chars s))).

(** [m.group(n)]: [None] when the group took no part in the match. *)
Definition group (m : rmatch_obj) (n : nat) : option string :=
  match cap_lookup n (mo_caps m) with
  | Some (a, b) => Some (slice a b (mo_subject m))
  | None => None
  end.

(** [m.group(0)]. *)
Definition group0 (m : rmatch_obj) : string :=
  slice (mo_start m) (mo_end m) (mo_subject m).

(** A replacement template: literal text and group references. *)
Inductive tpl_item : Type :=
| TLit (s : string)
| TGrp (n : nat).

Definition expand_item (m : rmatch_obj) (t : tpl_item) : string :=
  match t with
  | TLit s => s
  | TGrp n => match group m n with Some g => g | None => "" end
  end.

Definition expand (tpl : list tpl_item) (m : rmatch_obj) : string :=
  fold_right (fun t acc => expand_item m t +:+ acc) "" tpl.

(** [re.sub(r, tpl, subject)] for patterns that never match the empty
    string (all the patterns the extractor substitutes): the leftmost match
    from the current position is replaced and the scan resumes after it. *)
Fixpoint sub_from (fuel : nat) (r : regex) (tpl : list tpl_item)
  (subject : string) (s : mstate) : string :=
  match fuel with
  | 0 => of_chars (m_rest s)
  | S fuel' =>
      match search_from (length (m_rest s)) r subject s with
      | None => of_chars (m_rest s)
      | Some m =>
          let copied := slice (m_pos s) (mo_start m) subject in
          let s' := skip_state (mo_end m - m_pos s) s in
          if mo_end m <=? m_pos s
          then of_chars (m_rest s)
          else copied +:+ expand tpl m +:+ sub_from fuel' r tpl subject s'
      end
  end.

Definition re_sub (r : regex) (tpl : list tpl_item) (subject : string) : string :=
  sub_from (S (len subject)) r tpl subject (start_state subject).

End Re.

(* ===================================================================== *)
(** ** Results and exceptions                                             *)
(* ===================================================================== *)

Inductive exn : Type :=
| ValueError (what : string).

Inductive result (A : Type) : Type :=
| Ok (a : A)
| Exn (e : exn).

Arguments Ok {A} a.
Arguments Exn {A} e.

(** The error monad, with stdpp's notation [x ← c; k]. *)
#[global] Instance result_ret : MRet result := fun _ a => Ok a.
#[global] Instance result_bind : MBind result := fun _ _ f x =>
  match x with
  | Ok a => f a
  | Exn e => Exn e
  end.

(** [int(s)]: a string that is not a decimal numeral raises [ValueError]. *)
Definition py_int (s : string) : result Z :=
  if Str.isdigit s then Ok (Str.int_of_digits s)
  else Exn (ValueError "invalid literal for int()").

(* ===================================================================== *)
(** ** Numeric parsers: [parse_acc], [parse_strength], [parse_toughness_value] *)
(* ===================================================================== *)

Import Str.

(** A scalar read from a card: an integer, or a token kept as text. *)
Inductive atom : Type :=
| AInt (n : Z)
| AStr (s : string).

(** What [parse_acc] returns besides [None]: a scalar, or the dictionary
    with the keys [stationary] and [moving]. *)
Inductive acc_value : Type :=
| AccOne (a : atom)
| AccPair (stationary moving : atom).

(** What [parse_strength] returns besides [None]: a scalar, or the
    dictionary with the keys [normal] and [halfRange]. *)
Inductive strength_value : Type :=
| StrOne (a : atom)
| StrPair (normal halfRange : atom).

Definition slash : ascii := chr 47.
Definition plus_sign : ascii := chr 43.

Definition is_xx (s : string) : bool :=
  String.eqb (lower s) "xx" || String.eqb (lower s) "x".

(** One slash-separated part of an accuracy, as the loop of [parse_acc]
    reads it. *)
Definition parse_acc_part (part : string) : option atom :=
  let part := strip part in
  if is_xx part then Some (AStr "xx")
  else if String.eqb part "++" then Some (AStr "++")
  else if String.eqb part "*" then Some (AStr "*")
  else
    let part := rstrip_char plus_sign part in
    if isdigit part then Some (AInt (int_of_digits part)) else None.

(** The loop over the parts: the first part that does not parse makes the
    whole function return [None]. *)
Fixpoint parse_parts (f : string -> option atom) (parts : list string)
  : option (list atom) :=
  match parts with
  | [] => Some []
  | p :: rest =>
      match f p with
      | None => None
      | Some a =>
          match parse_parts f rest with
          | None => None
          | Some l => Some (a :: l)
          end
      end
  end.

Definition parse_acc (acc : string) : option acc_value :=
  let acc := strip acc in
  if is_empty acc then None
  else if is_xx acc then Some (AccOne (AStr "xx"))
  else if String.eqb acc "++" then Some (AccOne (AStr "++"))
  else if String.eqb acc "*" then Some (AccOne (AStr "*"))
  else if has_char slash acc then
    match parse_parts parse_acc_part (split_char slash acc) with
    | None => None
    | Some [a; b] => Some (AccPair a b)
    | Some [a] => Some (AccOne a)
    | Some _ => None
    end
  else
    let acc := if endswith acc "+" then rstrip_char plus_sign acc else acc in
    if isdigit acc then Some (AccOne (AInt (int_of_digits acc))) else None.

(** The dice notation [^\[D(\d+)\]$]. *)
Definition DICE_RE : Re.regex :=
  Re.cat [Re.Bol; Re.lit "[D"; Re.Grp 1 (Re.plus Re.digit); Re.lit "]"; Re.Eol].

(** One slash-separated part of a strength. *)
Definition parse_strength_part (part : string) : option atom :=
  let part := rstrip_char plus_sign (strip part) in
  if isdigit part then Some (AInt (int_of_digits part))
  else if endswith part "+" then Some (AStr part)
  else None.

Definition parse_strength (sv : string) : option strength_value :=
  if is_empty sv then None
  else
    let sv := strip sv in
    if Re.matches DICE_RE sv then Some (StrOne (AStr sv))
    else if has_char slash sv then
      match parse_parts parse_strength_part (split_char slash sv) with
      | None => None
      | Some [a; b] => Some (StrPair a b)
      | Some [a] => Some (StrOne a)
      | Some _ => None
      end
    else if endswith sv "+" then Some (StrOne (AStr sv))
    else if isdigit sv then Some (StrOne (AInt (int_of_digits sv)))
    else None.

(** [parse_toughness_value]: [None], a modifier such as [1-] kept as text,
    an integer, or the text as it is. *)
Definition parse_toughness_value (t : string) : option atom :=
  let t := strip t in
  if is_empty t then None
  else if endswith t "-" || endswith t "+" then Some (AStr t)
  else if isdigit t then Some (AInt (int_of_digits t))
  else Some (AStr t).


(* ===================================================================== *)
(** ** The line-level OCR corrector: [fix_ocr_errors_contextual]          *)
(* ===================================================================== *)

Module Fix.
Import Re.

Definition digits1 : regex := Grp 1 (plus digit).

(** [\$(\d+)\q], [\$(\d+)/] and [,\s*\$(\d+)]. *)
Definition DOLLAR_QUOTE : regex := cat [lit "$"; digits1; dq].
Definition DOLLAR_SLASH : regex := cat [lit "$"; digits1; lit "/"].
Definition COMMA_DOLLAR : regex := cat [lit ","; star space; lit "$"; digits1].

(** [\bX(\d+)] and [\bX(\d+)\q] for a prefix letter [X]. *)
Definition PREFIX_NUM (x : string) : regex := cat [Wb; lit x; digits1].
Definition PREFIX_NUM_QUOTE (x : string) : regex := cat [Wb; lit x; digits1; dq].

(** [\bEl\b], [\bEO\b] and [\bE([lO])]. *)
Definition EVASION_L : regex := cat [Wb; lit "El"; Wb].
Definition EVASION_O : regex := cat [Wb; lit "EO"; Wb].
Definition EVASION_ANY : regex := cat [Wb; lit "E"; Grp 1 (Cls (in_set "lO"))].

(** [Reo\q], [R4o\q], [Re\q] and [Ro\q]. *)
Definition RANGE_REO : regex := Cat (lit "Reo") dq.
Definition RANGE_R4O : regex := Cat (lit "R4o") dq.
Definition RANGE_RE : regex := Cat (lit "Re") dq.
Definition RANGE_RO : regex := Cat (lit "Ro") dq.

(** [(\d+)\s*p[t|l]s\b], case-insensitive. *)
Definition PTS_FIX : regex :=
  cat [digits1; star space; onei "p"; Cls (in_seti "t|l"); onei "s"; Wb].

(** [(Inf|Vec|Air)\s+\(([SWCML]+|CAP|CAS)\)]. *)
Definition CLASS_FLAG_FIX : regex :=
  cat [Grp 1 (alt [lit "Inf"; lit "Vec"; lit "Air"]); plus space; lit "(";
       Grp 2 (alt [plus (Cls (in_set "SWCML")); lit "CAP"; lit "CAS"]); lit ")"].

Definition dqs : string := String dquote "".

Definition fix_ocr_errors_contextual (line : string) : string :=
  (* $ read for S in stat lines and weapon profiles *)
  let line := re_sub DOLLAR_QUOTE [TLit "S"; TGrp 1; TLit dqs] line in
  let line := re_sub DOLLAR_SLASH [TLit "S"; TGrp 1; TLit "/"] line in
  let line := re_sub COMMA_DOLLAR [TLit ", S"; TGrp 1] line in
  (* stat line letters followed by numbers *)
  let line := re_sub (PREFIX_NUM "H") [TLit "H"; TGrp 1] line in
  let line := re_sub (PREFIX_NUM_QUOTE "S") [TLit "S"; TGrp 1; TLit dqs] line in
  let line := re_sub (PREFIX_NUM_QUOTE "M") [TLit "M"; TGrp 1; TLit dqs] line in
  let line := re_sub (PREFIX_NUM "Q") [TLit "Q"; TGrp 1] line in
  let line := re_sub (PREFIX_NUM "C") [TLit "C"; TGrp 1] line in
  (* evasion *)
  let line := re_sub EVASION_L [TLit "E4"] line in
  let line := re_sub EVASION_O [TLit "E0"] line in
  let line := re_sub EVASION_ANY [TLit "E"; TGrp 1] line in
  (* weapon profile letters *)
  let line := re_sub (PREFIX_NUM_QUOTE "R") [TLit "R"; TGrp 1; TLit dqs] line in
  let line := re_sub (PREFIX_NUM "A") [TLit "A"; TGrp 1] line in
  let line := re_sub (PREFIX_NUM "D") [TLit "D"; TGrp 1] line in
  (* range values, longer patterns first *)
  let line := re_sub RANGE_REO [TLit ("R40" +:+ dqs)] line in
  let line := re_sub RANGE_R4O [TLit ("R40" +:+ dqs)] line in
  let line := re_sub RANGE_RE [TLit ("R40" +:+ dqs)] line in
  let line := re_sub RANGE_RO [TLit ("R0" +:+ dqs)] line in
  (* word confusions *)
  let line := replace " Vec " " Vec " line in
  let line := replace " lnf " " Inf " line in
  let line := replace " Alr " " Air " line in
  (* pts *)
  let line := re_sub PTS_FIX [TGrp 1; TLit " pts"] line in
  (* no space before a class flag *)
  let line := re_sub CLASS_FLAG_FIX [TGrp 1; TLit "("; TGrp 2; TLit ")"] line in
  line.

End Fix.


(* ===================================================================== *)
(** ** The line aligner: [match_ocr_to_pdf_lines]                         *)
(* ===================================================================== *)

(** The dataclass [LineBox]. *)
Record LineBox : Type := mkLineBox {
  text : string;
  is_bold : bool;
  is_italic : bool
}.

Module Align.
Import Re.

(** [[^\w\s]] and [\s+]. *)
Definition PUNCT : regex := Cls (fun c => negb (is_word c || is_space c)).
Definition SPACES : regex := plus space.

Definition normalize_for_matching (text : string) : string :=
  let text := re_sub PUNCT [] text in
  let text := re_sub SPACES [TLit " "] text in
  lower (strip text).

Definition threshold : Q := 6 # 10.

Section Aligner.

(** [SequenceMatcher(None, a, b).ratio()] of [difflib].  The aligner only
    compares the ratios, with each other and with [0.0] and [0.6]. *)
Variable ratio : string -> string -> Q.

(** The three variables of the inner loop. *)
Record best : Type := mkBest {
  best_match : option LineBox;
  best_ratio : Q;
  best_pdf_idx : option nat
}.

Definition no_best : best := mkBest None 0%Q None.

(** The similarity the inner loop computes for a candidate. *)
Definition similarity (ocr_line : string) (pdf_box : LineBox) : Q :=
  ratio (normalize_for_matching ocr_line) (normalize_for_matching (text pdf_box)).

(** The inner [for pdf_idx, pdf_box in enumerate(pdf_line_boxes)], from
    index [pdf_idx] on. *)
Fixpoint scan (used : gset nat) (ocr_line : string) (pdf_idx : nat)
  (boxes : list LineBox) (b : best) : best :=
  match boxes with
  | [] => b
  | pdf_box :: rest =>
      if bool_decide (pdf_idx ∈ used) then scan used ocr_line (S pdf_idx) rest b
      else
        let r := similarity ocr_line pdf_box in
        if Qlt_le_dec (best_ratio b) r
        then scan used ocr_line (S pdf_idx) rest (mkBest (Some pdf_box) r (Some pdf_idx))
        else scan used ocr_line (S pdf_idx) rest b
  end.

(** [b] is what the inner loop holds after the PDF lines of index below
    [k]: nothing when no unused line has a positive ratio, and otherwise
    the first unused line of maximal ratio. *)
Definition scan_inv (pdf : list LineBox) (used : gset nat) (line : string)
  (k : nat) (b : best) : Prop :=
  (best_match b = None ∧ best_pdf_idx b = None ∧ best_ratio b = 0%Q ∧
   (∀ j box, j < k → pdf !! j = Some box → j ∉ used →
             (similarity line box <= 0)%Q))
  ∨
  (∃ j box,
     best_match b = Some box ∧ best_pdf_idx b = Some j ∧
     best_ratio b = similarity line box ∧ pdf !! j = Some box ∧ (j < k) ∧
     (j ∉ used) ∧ (0 < similarity line box)%Q ∧
     (∀ j' box', j' < k → pdf !! j' = Some box' → j' ∉ used →
                 (similarity line box' <= similarity line box)%Q ∧
                 (j' < j → (similarity line box' < similarity line box)%Q))).

Definition plain (ocr_line : string) : LineBox := mkLineBox ocr_line false false.

(** One iteration of the outer loop: the set of used PDF indices after it,
    the line it appends to [result] and, for the statements below, the PDF
    index it consumed. *)
Definition align_line (pdf_line_boxes : list LineBox) (used : gset nat)
  (ocr_line : string) : gset nat * (LineBox * option nat) :=
  if is_empty (strip ocr_line) then (used, (plain ocr_line, None))
  else
    let b := scan used ocr_line 0 pdf_line_boxes no_best in
    match best_match b, best_pdf_idx b with
    | Some m, Some idx =>
        if Qlt_le_dec threshold (best_ratio b)
        then ({[ idx ]} ∪ used,
              (mkLineBox ocr_line (is_bold m) (is_italic m), Some idx))
        else (used, (plain ocr_line, None))
    | _, _ => (used, (plain ocr_line, None))
    end.

Fixpoint align_loop (pdf_line_boxes : list LineBox) (used : gset nat)
  (ocr_lines : list string) : list (LineBox * option nat) :=
  match ocr_lines with
  | [] => []
  | ocr_line :: rest =>
      let '(used', out) := align_line pdf_line_boxes used ocr_line in
      out :: align_loop pdf_line_boxes used' rest
  end.

Definition match_ocr_to_pdf_lines (ocr_lines : list string)
  (pdf_line_boxes : list LineBox) : list LineBox :=
  map fst (align_loop pdf_line_boxes ∅ ocr_lines).

(** The PDF index consumed by each OCR line, in order ([best_pdf_idx] when
    the line was matched). *)
Definition consumed_indices (ocr_lines : list string)
  (pdf_line_boxes : list LineBox) : list (option nat) :=
  map snd (align_loop pdf_line_boxes ∅ ocr_lines).

(** PDF line [j] is still free when OCR line [i] is processed: it is not in
    the set the loop started from and no earlier OCR line consumed it. *)
Definition free_at (used : gset nat) (idx : list (option nat)) (i j : nat) : Prop :=
  (j ∉ used) ∧ (∀ i', i' < i → idx !! i' ≠ Some (Some j)).

(** What the aligner promises for OCR line [i]: a consumed PDF line is
    free, above the threshold and the first of maximal ratio among the free
    lines, and its flags are the flags of the output; otherwise the output
    is plain, and the line is blank or no free PDF line is above the
    threshold. *)
Definition line_spec (pdf : list LineBox) (used : gset nat)
  (res : list (LineBox * option nat)) (i : nat) (line : string) : Prop :=
  match res !! i with
  | Some (lb, Some j) =>
      ∃ box, pdf !! j = Some box ∧
        lb = mkLineBox line (is_bold box) (is_italic box) ∧
        is_empty (strip line) = false ∧
        free_at used (map snd res) i j ∧
        (threshold < similarity line box)%Q ∧
        (∀ j' box', pdf !! j' = Some box' → free_at used (map snd res) i j' →
           (similarity line box' <= similarity line box)%Q ∧
           (j' < j → (similarity line box' < similarity line box)%Q))
  | Some (lb, None) =>
      lb = plain line ∧
      (is_empty (strip line) = true ∨
       (∀ j' box', pdf !! j' = Some box' → free_at used (map snd res) i j' →
          (similarity line box' <= threshold)%Q))
  | None => False
  end.

End Aligner.
End Align.

(* ===================================================================== *)
(** ** Helpers of the card parser                                         *)
(* ===================================================================== *)

Module Helpers.
Import Re.

(** [norm] replaces the curly quotes U+201C, U+201D, U+2018 and U+2019 by
    straight quotes.  None of them is a code point below 256, so on the
    text modelled here it returns its argument. *)
Definition norm (s : string) : string := s.

Definition dqs : string := String dquote "".

(** [\q([A-Z][A-Z\-]+)\?\q] and [\?\q]. *)
Definition NICKNAME_Q : regex :=
  cat [dq; Grp 1 (Cat (Cls is_upper) (plus (Cls (fun c => is_upper c || eqc c "-"))));
       lit "?"; dq].
Definition QUESTION_QUOTE : regex := Cat (lit "?") dq.

Definition clean_unit_name (name : string) : string :=
  let cleaned := re_sub NICKNAME_Q [TLit dqs; TGrp 1; TLit dqs] name in
  if String.eqb cleaned name
  then re_sub QUESTION_QUOTE [TLit dqs] name
  else cleaned.

(** [dedupe_preserve_order]. *)
Fixpoint dedupe_loop (seen : gset string) (items : list string) : list string :=
  match items with
  | [] => []
  | item :: rest =>
      if bool_decide (item ∈ seen) then dedupe_loop seen rest
      else item :: dedupe_loop ({[ item ]} ∪ seen) rest
  end.

Definition dedupe_preserve_order (items : list string) : list string :=
  dedupe_loop ∅ items.

(** [split_rules_smart]: split at the commas outside parentheses, strip
    the pieces and drop the empty ones. *)
Definition flush (current : list ascii) (rules : list string) : list string :=
  let rule := strip (of_chars (rev current)) in
  if truthy rule then rules ++ [rule] else rules.

Fixpoint split_rules_loop (l : list ascii) (paren_depth : Z)
  (current : list ascii) (rules : list string) : list string :=
  match l with
  | [] => flush current rules
  | char :: rest =>
      if eqc char "(" then split_rules_loop rest (paren_depth + 1)%Z (char :: current) rules
      else if eqc char ")" then split_rules_loop rest (paren_depth - 1)%Z (char :: current) rules
      else if eqc char "," && (paren_depth =? 0)%Z
           then split_rules_loop rest paren_depth [] (flush current rules)
      else split_rules_loop rest paren_depth (char :: current) rules
  end.

Definition split_rules_smart (line : string) : list string :=
  split_rules_loop (chars line) 0%Z [] [].

(** A lone parenthetical, and one capitalised word. *)
Definition PAREN_ONLY : regex :=
  cat [Bol; lit "("; plus (Cls (not_in ")")); lit ")"; Eol].
Definition CAP_WORD : regex :=
  cat [Bol; Cls is_upper; plus (Cls is_lower); Eol].

Definition sp (a b : string) : string := a +:+ " " +:+ b.

(** [merge_fragmented_rules]; [merged] is kept in reverse, [first] says
    that the index is 0. *)
Fixpoint merge_loop (first : bool) (rules : list string) (merged : list string)
  : list string :=
  match rules with
  | [] => rev merged
  | rule :: rest =>
      let plain := merge_loop false rest (rule :: merged) in
      if negb first && matches PAREN_ONLY rule then
        match merged with
        | last :: before => merge_loop false rest (sp last rule :: before)
        | [] => plain
        end
      else
        match rest with
        | next_rule :: rest2 =>
            if negb (endswith rule ")") &&
               (matches CAP_WORD next_rule || matches PAREN_ONLY next_rule)
            then
              match rest2 with
              | third :: rest3 =>
                  if matches PAREN_ONLY third
                  then merge_loop false rest3 (sp (sp rule next_rule) third :: merged)
                  else if matches PAREN_ONLY next_rule
                  then merge_loop false rest2 (sp rule next_rule :: merged)
                  else plain
              | [] =>
                  if matches PAREN_ONLY next_rule
                  then merge_loop false rest2 (sp rule next_rule :: merged)
                  else plain
              end
            else plain
        | [] => plain
        end
  end.

Definition merge_fragmented_rules (rules : list string) : list string :=
  merge_loop true rules [].

End Helpers.

(* ===================================================================== *)
(** ** The patterns of the card grammar                                   *)
(* ===================================================================== *)

Module Pat.
Import Re.

(** Blanks, a comma, blanks; and the same with the comma optional. *)
Definition comma_sep : regex := cat [star space; lit ","; star space].
Definition opt_comma : regex := cat [star space; opt (lit ","); star space].

(** [HEADER_RE], case-insensitive; group 1 is [name], group 2 is [pts]. *)
Definition PTS_TOKEN : regex :=
  cat [plus digit; opt (cat [lit "/"; plus digit])].

Definition HEADER_RE : regex :=
  cat [Bol; Grp 1 (lazy_plus dot); star space; lit "-"; star space;
       Grp 2 PTS_TOKEN; star space; liti "pts"; Eol].

(** [STAT_RE], case-insensitive.  Groups: 1 [unitType], 2 [classFlag],
    3 [height], 4 [spot], 5 [move], 6 [quality], 7 [tfront], 8 [tside],
    9 [trear], 10 [evasion], 11 [command], 12 [tail]. *)
Definition STAT_RE : regex :=
  cat [Bol;
       Grp 1 (alt [liti "Inf"; liti "Vec"; liti "Air"]);
       opt (cat [star space; lit "(";
                 Grp 2 (alt [plus (Cls (in_seti "SWCMLH")); liti "CAP"; liti "CAS"]);
                 lit ")"]);
       opt comma_sep;
       opt (cat [onei "H"; Grp 3 (plus digit)]);
       opt comma_sep;
       opt (cat [Cls (in_seti "S$"); Grp 4 (plus digit); dq]);
       opt comma_sep;
       onei "M"; Grp 5 (alt [plus digit; onei "O"]); dq;
       opt comma_sep;
       onei "Q"; Grp 6 (alt [plus digit; lit "*"]);
       opt (cat [comma_sep; onei "T"; Grp 7 (plus (Cls (not_in "/,")));
                 opt (cat [lit "/"; Grp 8 (plus (Cls (not_in "/,"))); lit "/";
                           Grp 9 (plus (Cls (fun c => negb (eqc c "," || is_space c))))])]);
       opt (cat [comma_sep; onei "E"; Grp 10 (plus digit)]);
       opt (cat [comma_sep; onei "C"; Grp 11 (plus digit)]);
       opt (cat [opt_comma; Grp 12 (star dot)]);
       Eol].

(** [WEAPON_NAME_RE]: a code containing a digit and a name, a capitalised
    name with a calibre in mm, or an ammunition line starting with [>]. *)
Definition WEAPON_NAME_RE : regex :=
  alt [cat [Bol; Ahead (cat [star nonspace; digit]);
            Grp 1 (cat [Cls (fun c => is_digit c || is_upper c);
                        star (Cls (fun c => is_digit c || is_upper c || eqc c "-"))]);
            plus space; Grp 2 (plus dot); Eol];
       cat [Bol; Cls is_upper; plus (Cls is_alpha); plus space; star dot;
            plus digit; opt (lit "."); star digit; star space; lit "mm";
            star dot; Eol];
       cat [Bol; lit ">"; star space; plus dot; Eol]].

(** [PROFILE_RE], case-insensitive.  Groups: 1 [target], 2 [range],
    3 [acc], 4 [str], 5 [dmg], 6 [ammo], 7 [trailing]. *)
Definition TARGETS : regex :=
  alt [liti "All"; liti "Inf"; liti "Vec"; liti "Air"; liti "Gnd";
       liti "Inf/Vec"; liti "Inf/Vec"].

Definition PROFILE_RE : regex :=
  cat [Bol; opt (Grp 1 TARGETS); opt_comma;
       onei "R";
       Grp 2 (alt [plus digit; onei "O"; onei "e"; liti "eo"; onei "o"; liti "4o"]);
       dq; opt_comma;
       onei "A"; Grp 3 (plus (Cls (not_in ","))); opt_comma;
       opt (cat [onei "S"; Grp 4 (plus (Cls (not_in ","))); opt_comma]);
       onei "D"; Grp 5 (plus digit);
       opt (cat [opt_comma; liti "Ammo"; star space; Grp 6 (plus digit)]);
       opt (cat [opt_comma; Grp 7 (star dot)]);
       Eol].

(** [PROFILE_DETECT_RE], case-insensitive, used with [search]. *)
Definition PROFILE_DETECT_RE : regex :=
  cat [opt (alt [liti "All"; liti "Inf"; liti "Vec"; liti "Air"; liti "Gnd";
                 liti "Inf/Vec"]);
       opt_comma; onei "R"; plus digit; dq; opt_comma;
       onei "A"; plus (Cls (not_in ",")); opt_comma;
       opt (cat [onei "S"; plus (Cls (not_in ",")); opt_comma]);
       onei "D"; plus digit].

(** [FOOTER_NOISE_RE], case-insensitive, used with [search]. *)
Definition FOOTER_NOISE_RE : regex :=
  alt [cat [Wb; liti "FIRELOCK"; Wb];
       cat [Wb; liti "M.D.C."; Wb];
       liti "FEDERAL STATES-ARMY";
       liti "DREKFORT"].

(** The patterns written in the body of [parse_card_text]. *)
(** A line that is a unit type and nothing else. *)
Definition UNIT_TYPE_ONLY : regex :=
  cat [Bol; Grp 1 (alt [lit "Inf"; lit "Vec"; lit "Air"]); Eol].

(** The start of a class flag, three alternatives: an opening parenthesis
    and letters of [SWCML] at the start of the text, or [CAP], or [CAS)];
    the anchor and the parenthesis belong to the first alternative only. *)
Definition CLASS_FLAG_START : regex :=
  alt [cat [Bol; lit "("; plus (Cls (in_set "SWCML"))];
       lit "CAP";
       lit "CAS)"].

(** The shape of a special rule (pre-processing of split weapon names):
    capitalised words separated by blanks, then optionally a comma and
    anything. *)
Definition RULE_SHAPE : regex :=
  cat [Bol; Cls is_upper; plus (Cls is_lower);
       star (cat [plus space; Cls is_upper; plus (Cls is_lower)]);
       opt (cat [lit ","; star dot]); Eol].

(** A comma, blanks and [At+]: an accuracy [A+] read with a stray [t];
    searched, then substituted with groups around the comma and the plus. *)
Definition AT_PLUS : regex := cat [lit ","; star space; lit "At+"].
Definition AT_PLUS_SUB : regex :=
  cat [Grp 1 (cat [lit ","; star space]); lit "At"; Grp 2 (lit "+")].

(** Digits, blanks and [pts], case-insensitive, used with [search]. *)
Definition PTS_SEARCH : regex :=
  cat [Grp 1 (plus digit); star space; liti "pts"].

(** A line made of a dash, a points token and [pts], case-insensitive. *)
Definition DASH_PTS : regex :=
  cat [Bol; star space; lit "-"; star space; Grp 1 PTS_TOKEN; star space;
       liti "pts"; star space; Eol].

(** A name, a dash and a points token, without [pts]. *)
Definition NAME_DASH_NUM : regex :=
  cat [Bol; Grp 1 (lazy_plus dot); star space; lit "-"; star space;
       Grp 2 PTS_TOKEN; star space; Eol].

(** A line of underscores. *)
Definition SEPARATOR : regex := cat [Bol; plus (lit "_"); Eol].

(** [weapon_code_pattern], used with [search]: a code of capitals, digits
    and dashes whose word contains a digit, blanks and a further word. *)
Definition WEAPON_CODE : regex :=
  cat [Ahead (cat [star nonspace; digit]);
       Cls (fun c => is_digit c || is_upper c);
       star (Cls (fun c => is_digit c || is_upper c || eqc c "-"));
       plus space; plus nonspace].

(** One capitalised word, optionally followed by a parenthetical. *)
Definition SINGLE_RULE : regex :=
  cat [Bol; Cls is_upper; plus (Cls is_lower);
       opt (cat [star space; lit "("; plus (Cls (not_in ")")); lit ")"]); Eol].

(** Digits followed by [mm], used with [search]. *)
Definition CALIBER : regex := Grp 1 (cat [plus digit; lit "mm"]).

(** [Ammo N] inside a weapon name, with the blanks around it,
    case-insensitive. *)
Definition AMMO_IN_NAME : regex :=
  cat [star space; liti "Ammo"; plus space; plus digit; star space].

(** An embedded rule as a whole word, alone and with the blanks around it. *)
Definition WORD (rule : string) : regex := cat [Wb; lit rule; Wb].
Definition WORD_PADDED (rule : string) : regex :=
  cat [star space; Wb; lit rule; Wb; star space].

Definition SPACES : regex := plus space.

(** A line [Ammo N], case-insensitive. *)
Definition AMMO_LINE : regex :=
  cat [Bol; liti "Ammo"; plus space; Grp 1 (plus digit); Eol].

(** A parenthesised number with an optional double quote: an orphaned
    radius. *)
Definition RADIUS_ONLY : regex :=
  cat [Bol; lit "("; plus (Cls is_digit); opt dq; lit ")"; Eol].

End Pat.

(* ===================================================================== *)
(** ** [slugify]                                                          *)
(* ===================================================================== *)

Module Slug.
Import Re.

(** A code point of a Python [str]. *)
Definition codepoint : Type := N.

Definition codepoints (s : string) : list codepoint :=
  map N_of_ascii (chars s).

(** [s.encode('ascii', 'ignore').decode('ascii')]: the code points below
    128, the others are dropped. *)
Definition encode_ascii_ignore (cps : list codepoint) : string :=
  of_chars (map ascii_of_N (filter (fun n => (n <? 128)%N) cps)).

(** One or more characters other than a lower-case letter or a digit. *)
Definition NON_SLUG : regex :=
  plus (Cls (fun c => negb (is_lower c || is_digit c))).

Section Slugify.

(** [unicodedata.normalize('NFKD', s)]. *)
Variable nfkd : list codepoint -> list codepoint.

Definition slugify (s : list codepoint) : string :=
  let s := nfkd s in
  let s := encode_ascii_ignore s in
  let s := lower s in
  let s := re_sub NON_SLUG [TLit "-"] s in
  strip_char "-" s.

End Slugify.

(** The compatibility decomposition on the code points used in the
    statements below: the ASCII code points are their own decomposition,
    U+00C9 (E with acute) decomposes into U+0045 U+0301 and U+00E9 (e with
    acute) into U+0065 U+0301.  Other code points are left alone by this
    fragment, which is only applied to texts made of the ones listed. *)
Definition nfkd_fragment (s : list codepoint) : list codepoint :=
  flat_map (fun cp =>
              if (cp =? 201)%N then [69; 769]%N
              else if (cp =? 233)%N then [101; 769]%N
              else [cp]) s.

End Slug.

(* ===================================================================== *)
(** ** The card grammar: [parse_card_text]                                *)
(* ===================================================================== *)

Module Card.
Import Re Pat Helpers.

(** *** The records of the output *)

(** [points]: an integer, or a split cost such as [0/20] kept as text. *)
Inductive points : Type :=
| PInt (n : Z)
| PStr (s : string).

(** [toughness]: one value, or the dictionary [front]/[side]/[rear]; each
    value is what [parse_toughness_value] returns. *)
Inductive toughness_value : Type :=
| TOne (t : option atom)
| TDir (front side rear : option atom).

Record Stats : Type := mkStats {
  movement : Z;
  quality : atom;
  height : option Z;
  spottingDistance : option Z;
  command : option Z;
  evasion : option Z;
  toughness : option toughness_value
}.

(** A shot type and a weapon.  [R] is what stands for a list of special
    rules: a reference into the store of rule lists while the card is
    parsed, the list itself in the result.  An optional field is a key that
    may be absent; [ammo] may also be present with the value [None]. *)
Record ShotType (R : Type) : Type := mkShotType {
  st_name : string;
  st_target : string;
  st_range : Z;
  st_accuracy : acc_value;
  st_strength : option strength_value;
  st_dice : Z;
  st_specialRules : option R
}.

Arguments mkShotType {R}.
Arguments st_name {R}.
Arguments st_target {R}.
Arguments st_range {R}.
Arguments st_accuracy {R}.
Arguments st_strength {R}.
Arguments st_dice {R}.
Arguments st_specialRules {R}.

Record Weapon (R : Type) : Type := mkWeapon {
  w_name : string;
  w_target : string;
  w_range : Z;
  w_accuracy : acc_value;
  w_dice : Z;
  w_strength : option strength_value;
  w_ammo : option (option Z);
  w_specialRules : option R;
  w_shotTypes : option (list (ShotType R))
}.

Arguments mkWeapon {R}.
Arguments w_name {R}.
Arguments w_target {R}.
Arguments w_range {R}.
Arguments w_accuracy {R}.
Arguments w_dice {R}.
Arguments w_strength {R}.
Arguments w_ammo {R}.
Arguments w_specialRules {R}.
Arguments w_shotTypes {R}.

(** The unit dictionary; [category] and [subcategory] are added by the
    caller. *)
Record Unit : Type := mkUnit {
  u_id : string;
  u_name : string;
  u_unitClass : string;
  u_points : points;
  u_stats : Stats;
  u_descriptiveCategory : option string;
  u_specialRules : list string;
  u_description : option string;
  u_weapons : option (list (Weapon (list string)));
  u_category : option string;
  u_subcategory : option string
}.

(** *** Reading the input *)

Definition nonblank (s : string) : bool := truthy (strip s).

(** The lines and the boxes the parser works on: the non-blank boxes
    without footer noise when boxes are given, the non-blank lines of the
    text without footer noise otherwise. *)
Definition read_input (card_text : option string)
  (line_boxes : option (list LineBox)) : list string * list LineBox :=
  match line_boxes with
  | Some ((_ :: _) as boxes) =>
      let kept :=
        filter (fun lb => nonblank (text lb) && negb (found FOOTER_NOISE_RE (text lb)))
               boxes in
      (map (fun lb => norm (text lb)) kept, kept)
  | _ =>
      let lines := map norm (splitlines (default "" card_text)) in
      let lines := filter (fun ln => nonblank ln) lines in
      let lines := filter (fun ln => negb (found FOOTER_NOISE_RE ln)) lines in
      (lines, map (fun ln => mkLineBox ln false false) lines)
  end.

Definition has_formatting_of (line_boxes : list LineBox) : bool :=
  existsb is_italic line_boxes.

(** *** Pre-processing *)

(** A lone unit type followed by a line that starts with a class flag:
    the two lines are joined. *)
Fixpoint merge_unit_type (lines : list string) : list string :=
  match lines with
  | [] => []
  | line :: rest =>
      match rest with
      | next :: rest' =>
          if matches UNIT_TYPE_ONLY (strip line) &&
             matches CLASS_FLAG_START (strip next)
          then (line +:+ strip next) :: merge_unit_type rest'
          else line :: merge_unit_type rest
      | [] => [line]
      end
  end.

(** The fragments that may continue a weapon name: at most [n] of the
    next lines, short and without a comma, up to a profile, a stat line or
    a long line. *)
Fixpoint collect_fragments (n : nat) (rest : list string) : list string :=
  match n, rest with
  | S n', next_line :: rest' =>
      if found PROFILE_DETECT_RE next_line || matches STAT_RE next_line ||
         (30 <? len next_line)
      then []
      else if (len next_line <? 30) && negb (has_char "," next_line)
           then next_line :: collect_fragments n' rest'
           else []
  | _, _ => []
  end.

Definition fragment_start (i : nat) (line : string) (rest : list string) : bool :=
  (3 <=? i) &&
  (negb (bool_decide (rest = [])) &&
   (len line <? 30) &&
   negb (has_char "," line) &&
   negb (found PROFILE_DETECT_RE line) &&
   negb (matches STAT_RE line) &&
   negb (matches RULE_SHAPE line)).

(** Weapon names split over several lines are joined when the joined text
    looks like a weapon name.  [lines] is the text from index [i] on. *)
Fixpoint merge_weapon_names (fuel : nat) (i : nat) (lines : list string)
  : list string :=
  match fuel, lines with
  | _, [] => []
  | 0, _ => lines
  | S fuel', line :: rest =>
      let keep := line :: merge_weapon_names fuel' (S i) rest in
      if fragment_start i line rest then
        let fragments := collect_fragments 3 rest in
        match fragments with
        | [] => keep
        | _ :: _ =>
            let merged := join " " (line :: fragments) in
            if matches WEAPON_NAME_RE merged
            then merged ::
                 merge_weapon_names fuel' (S i + length fragments)
                                    (skipn (length fragments) rest)
            else keep
        end
      else keep
  end.

(** [At++] read for [A++] in a profile. *)
Definition fix_at_plus (line : string) : string :=
  if found AT_PLUS line
  then re_sub AT_PLUS_SUB [TGrp 1; TLit "A"; TGrp 2] line
  else line.

Definition preprocess (has_formatting : bool) (lines : list string) : list string :=
  let lines := if has_formatting then lines else merge_unit_type lines in
  let lines := merge_weapon_names (length lines) 0 lines in
  map fix_at_plus lines.

(** *** The header *)

Record Header : Type := mkHeader {
  unit_name : string;
  unit_points : points;
  header_idx : nat
}.

(** A points token: a split cost stays text, a single value is an integer
    (the token is a numeral by the pattern that captured it). *)
Definition points_of (pts_str : string) : points :=
  if has_char "/" pts_str then PStr pts_str else PInt (int_of_digits pts_str).

Definition grp (m : rmatch_obj) (n : nat) : string := default "" (group m n).

(** The standard form, tried on the first five lines. *)
Fixpoint header_standard (i : nat) (lines : list string) : option Header :=
  match lines with
  | [] => None
  | line :: rest =>
      match re_match HEADER_RE line with
      | Some hm =>
          Some (mkHeader (clean_unit_name (norm (grp hm 1))) (points_of (grp hm 2)) i)
      | None => header_standard (S i) rest
      end
  end.

(** The name, a dash and the points on three lines; the loop runs over
    [range(min(3, len(lines) - 2))]. *)
Fixpoint header_three_lines (n i : nat) (lines : list string) : option Header :=
  match n, lines with
  | S n', l0 :: ((l1 :: l2 :: _) as rest) =>
      let next := header_three_lines n' (S i) rest in
      if String.eqb (strip l1) "-" && contains (lower l2) "pts" then
        match re_search PTS_SEARCH l2 with
        | Some pts_match =>
            Some (mkHeader (clean_unit_name (norm l0))
                           (PInt (int_of_digits (grp pts_match 1))) (i + 2))
        | None => next
        end
      else next
  | _, _ => None
  end.

(** The name on one line, the dash and the points on the next; the loop
    runs over [range(min(4, len(lines) - 1))] and needs a previous line. *)
Fixpoint header_dash_pts (n i : nat) (prev : option string) (lines : list string)
  : option Header :=
  match n, lines with
  | S n', l0 :: ((_ :: _) as rest) =>
      let next := header_dash_pts n' (S i) (Some l0) rest in
      match re_match DASH_PTS l0, prev with
      | Some m, Some name_line =>
          Some (mkHeader (clean_unit_name (norm name_line)) (points_of (grp m 1)) i)
      | _, _ => next
      end
  | _, _ => None
  end.

(** The name, the dash and the number on one line, [pts] on the next. *)
Fixpoint header_pts_next (n i : nat) (lines : list string) : option Header :=
  match n, lines with
  | S n', l0 :: ((l1 :: _) as rest) =>
      let next := header_pts_next n' (S i) rest in
      if String.eqb (lower (strip l1)) "pts" then
        match re_match NAME_DASH_NUM l0 with
        | Some m =>
            Some (mkHeader (clean_unit_name (norm (grp m 1))) (points_of (grp m 2)) (S i))
        | None => next
        end
      else next
  | _, _ => None
  end.

Definition find_header (lines : list string) : option Header :=
  match header_standard 0 (firstn 5 lines) with
  | Some h => Some h
  | None =>
      match header_three_lines 3 0 lines with
      | Some h => Some h
      | None =>
          match header_dash_pts 4 0 None lines with
          | Some h => Some h
          | None => header_pts_next 4 0 lines
          end
      end
  end.

(** *** The stat line *)

(** [gd.get(name)] used as a condition: the group took part in the match
    and is not empty. *)
Definition grp_truthy (m : rmatch_obj) (n : nat) : option string :=
  match group m n with
  | Some s => if truthy s then Some s else None
  | None => None
  end.

(** [int(gd[name])] for a group captured by [\d+]: its text is a numeral,
    so the conversion cannot raise. *)
Definition grp_int (m : rmatch_obj) (n : nat) : option Z :=
  option_map int_of_digits (grp_truthy m n).

(** The match the stat loop obtains at index [i]: the line itself, or, with
    formatting, a lone unit type joined with the next line. *)
Definition stat_match_at (has_formatting : bool) (lines : list string) (i : nat)
  : option rmatch_obj :=
  match lines !! i with
  | None => None
  | Some line =>
      match re_match STAT_RE line with
      | Some m => Some m
      | None =>
          match lines !! (S i) with
          | Some next =>
              if has_formatting && matches UNIT_TYPE_ONLY (strip line)
              then re_match STAT_RE (line +:+ next)
              else None
          | None => None
          end
      end
  end.

(** The first index of [range(header_idx + 1, min(header_idx + 10,
    len(lines)))] with a match; [n] indices remain from [i] on. *)
Fixpoint find_stat (has_formatting : bool) (lines : list string) (n i : nat)
  : option (nat * rmatch_obj) :=
  match n with
  | 0 => None
  | S n' =>
      if i <? length lines then
        match stat_match_at has_formatting lines i with
        | Some m => Some (i, m)
        | None => find_stat has_formatting lines n' (S i)
        end
      else None
  end.

(** Movement: [O] and [0] are zero, anything else goes through [int],
    which raises on the lower-case [o] the pattern also lets through. *)
Definition movement_of (move_val : string) : result Z :=
  if String.eqb move_val "O" || String.eqb move_val "0" then Ok 0%Z
  else py_int move_val.

Definition quality_of (qual_val : string) : atom :=
  if String.eqb qual_val "*" then AStr "*" else AInt (int_of_digits qual_val).

Definition toughness_of (m : rmatch_obj) : option toughness_value :=
  match grp_truthy m 7 with
  | None => None
  | Some tfront =>
      match grp_truthy m 8, grp_truthy m 9 with
      | Some tside, Some trear =>
          Some (TDir (parse_toughness_value tfront)
                     (parse_toughness_value tside)
                     (parse_toughness_value trear))
      | _, _ => Some (TOne (parse_toughness_value tfront))
      end
  end.

Definition build_stats (m : rmatch_obj) : result Stats :=
  movement ← movement_of (grp m 5);
  Ok (mkStats movement (quality_of (grp m 6))
              (grp_int m 3) (grp_int m 4) (grp_int m 11) (grp_int m 10)
              (toughness_of m)).

(** The unit type with its class flag, as in [Inf(S)]. *)
Definition unit_type_of (m : rmatch_obj) : string :=
  match grp_truthy m 2 with
  | Some class_flag => grp m 1 +:+ "(" +:+ class_flag +:+ ")"
  | None => grp m 1
  end.

Record StatLine : Type := mkStatLine {
  sl_stats : Stats;
  stat_i : nat;
  unit_type : string;
  descriptive_category : option string
}.

(** The line just before the stat line, when it is not the header line. *)
Definition category_line (lines : list string) (header_idx i : nat) : option string :=
  if S header_idx <? i then lines !! (i - 1) else None.

Definition stat_stage (has_formatting : bool) (lines : list string)
  (header_idx : nat) : result (option StatLine) :=
  match find_stat has_formatting lines 9 (S header_idx) with
  | None => Ok None
  | Some (i, m) =>
      stats ← build_stats m;
      Ok (Some (mkStatLine stats i (unit_type_of m)
                           (category_line lines header_idx i)))
  end.

(** *** Special rules and description *)

(** [is_weapon_line(ln, idx)]; [idx] is [None] for the default [-1]. *)
Definition is_weapon_line (line_boxes : list LineBox) (ln : string)
  (idx : option nat) : bool :=
  let matches_pattern := matches WEAPON_NAME_RE ln in
  match idx with
  | Some i =>
      match line_boxes !! i with
      | Some lb => matches_pattern && negb (is_italic lb)
      | None => matches_pattern
      end
  | None => matches_pattern
  end.

Definition is_special_rule_line (line_boxes : list LineBox) (idx : nat) : bool :=
  match line_boxes !! idx with
  | Some lb => is_italic lb
  | None => false
  end.

(** [lines[cursor].strip('_').strip()]. *)
Definition bare (line : string) : string := strip (strip_char "_" line).

(** The first loop after the stat line; [rest] is [lines] from [cursor] on.
    It stops at a weapon line, and after a separator. *)
Fixpoint collect_rules (line_boxes : list LineBox) (cursor : nat)
  (rest : list string) (special_rules : list string)
  (temp_rules : list (nat * string))
  : nat * list string * list (nat * string) :=
  match rest with
  | [] => (cursor, special_rules, temp_rules)
  | line :: rest' =>
      if is_weapon_line line_boxes line (Some cursor)
      then (cursor, special_rules, temp_rules)
      else if matches SEPARATOR (strip line)
      then (S cursor, special_rules, temp_rules)
      else
        let ln := bare line in
        if truthy ln then
          if is_special_rule_line line_boxes cursor then
            let special_rules :=
              if has_char "," ln then special_rules ++ split_rules_smart ln
              else special_rules ++ [ln] in
            collect_rules line_boxes (S cursor) rest' special_rules temp_rules
          else
            collect_rules line_boxes (S cursor) rest' special_rules
                          (temp_rules ++ [(cursor, ln)])
        else collect_rules line_boxes (S cursor) rest' special_rules temp_rules
  end.

(** An italic line that contains a weapon code after some other text is
    split in two: the text before the code stays italic, the rest becomes
    a plain line.  The loop runs over [zip(lines, line_boxes)]. *)
Fixpoint split_merged (lines : list string) (boxes : list LineBox)
  : list (string * LineBox) :=
  match lines, boxes with
  | line :: ls, line_box :: bs =>
      let keep := (line, line_box) :: split_merged ls bs in
      if is_italic line_box then
        match re_search WEAPON_CODE line with
        | Some code_match =>
            let weapon_name_start := mo_start code_match in
            if 0 <? weapon_name_start then
              let special_rule_part := strip (prefix_upto weapon_name_start line) in
              let weapon_part := strip (suffix_from weapon_name_start line) in
              if truthy special_rule_part && truthy weapon_part then
                (special_rule_part, mkLineBox special_rule_part false true) ::
                (weapon_part, mkLineBox weapon_part false false) ::
                split_merged ls bs
              else keep
            else keep
        | None => keep
        end
      else keep
  | _, _ => []
  end.

Definition SENTENCE_WORDS : list string :=
  ["All"; "The"; "Each"; "When"; "If"; "Any"; "This"].

Definition in_list (s : string) (l : list string) : bool :=
  existsb (String.eqb s) l.

(** Where the buffered plain lines start to read like a sentence; [texts]
    is the buffer from index [i] on. *)
Fixpoint find_desc_start (i : nat) (texts : list string) : option nat :=
  match texts with
  | [] => None
  | text :: rest =>
      let next := find_desc_start (S i) rest in
      if 3 <? length texts then
        let combined_remaining := join " " texts in
        let is_sentence :=
          (20 <? len combined_remaining) &&
          (endswith combined_remaining "." || endswith combined_remaining ")") in
        let is_not_special_rule := negb (matches SINGLE_RULE text) in
        let is_sentence_word := in_list text SENTENCE_WORDS in
        if is_sentence && (is_not_special_rule || is_sentence_word)
        then Some i else next
      else next
  end.

Definition join_opt (items : list string) : option string :=
  match items with
  | [] => None
  | _ => Some (join " " items)
  end.

(** The buffered plain lines become special rules, or special rules
    followed by a description. *)
Definition classify_temp_rules (special_rules : list string)
  (temp_rules : list (nat * string)) : list string * option string :=
  let texts := map snd temp_rules in
  match find_desc_start 0 texts with
  | Some desc_start_idx =>
      (special_rules ++ firstn desc_start_idx texts,
       join_opt (skipn desc_start_idx texts))
  | None => (special_rules ++ texts, None)
  end.

(** After the second separator: separators and blank lines are skipped,
    and the next line says whether a weapon follows. *)
Fixpoint after_separator (peek_cursor : nat) (rest : list string) : nat * bool :=
  match rest with
  | [] => (peek_cursor, false)
  | line :: rest' =>
      if matches SEPARATOR (strip line) || String.eqb (strip line) ""
      then after_separator (S peek_cursor) rest'
      else (peek_cursor, matches WEAPON_NAME_RE line)
  end.

(** The look-ahead for a description block: the position reached, the
    candidate lines, [found_second_separator] and [found_weapon_after]. *)
Fixpoint peek_description (peek_cursor : nat) (rest : list string)
  (potential_desc_lines : list string) : nat * list string * bool * bool :=
  match rest with
  | [] => (peek_cursor, potential_desc_lines, false, false)
  | line :: rest' =>
      if matches SEPARATOR (strip line) then
        let '(peek_cursor, found_weapon_after) := after_separator (S peek_cursor) rest' in
        (peek_cursor, potential_desc_lines, true, found_weapon_after)
      else if matches WEAPON_NAME_RE line
      then (peek_cursor, potential_desc_lines, false, false)
      else
        let desc_ln := bare line in
        peek_description (S peek_cursor) rest'
          (if truthy desc_ln then potential_desc_lines ++ [desc_ln]
           else potential_desc_lines)
  end.

Definition reads_like_sentence (line : string) : bool :=
  (5 <? length (words line)) && negb (has_char "," line).

(** The description block before the weapons: the cursor, the special
    rules and the description after it. *)
Definition description_block (lines : list string) (cursor : nat)
  (special_rules : list string) (description : option string)
  : nat * list string * option string :=
  match lines !! cursor with
  | None => (cursor, special_rules, description)
  | Some line =>
      if matches WEAPON_NAME_RE line then (cursor, special_rules, description)
      else
        let '(peek_cursor, potential_desc_lines, found_second_separator,
              found_weapon_after) :=
          peek_description cursor (drop cursor lines) [] in
        let nonempty := negb (bool_decide (potential_desc_lines = [])) in
        if found_second_separator && found_weapon_after && nonempty
        then (peek_cursor, special_rules, Some (join " " potential_desc_lines))
        else if nonempty && negb found_weapon_after
        then (cursor,
              special_rules ++
                filter (fun line => negb (reads_like_sentence line))
                       potential_desc_lines,
              description)
        else (cursor, special_rules, description)
  end.

(** *** The weapon list *)

(** The lists of special rules of the weapons are Python lists that may be
    shared (a placeholder base weapon and its first shot type hold the same
    list) and are mutated in place; they live in a store and the records
    hold references. *)
Definition rules_store : Type := list (list string).

Definition alloc (store : rules_store) (rules : list string) : rules_store * nat :=
  (store ++ [rules], length store).

Definition rules_at (store : rules_store) (r : nat) : list string :=
  default [] (store !! r).

(** [weapon.get("specialRules")] as a condition: the key is there and the
    list is not empty. *)
Definition rules_truthy (store : rules_store) (r : option nat) : option nat :=
  match r with
  | Some ref => match rules_at store ref with [] => None | _ :: _ => Some ref end
  | None => None
  end.

(** The variables the weapon loop updates: the cursor, the weapons, the
    store, and [embedded_special_rules], which keeps its value from one
    iteration to the next. *)
Record wstate : Type := mkW {
  cursor : nat;
  weapons : list (Weapon nat);
  store : rules_store;
  embedded_special_rules : list string
}.

Definition set_cursor (c : nat) (st : wstate) : wstate :=
  mkW c (weapons st) (store st) (embedded_special_rules st).

Definition next_line (st : wstate) : wstate := set_cursor (S (cursor st)) st.

Inductive outcome : Type :=
| Continue (st : wstate)
| Break (st : wstate).

(** The index of the last element that satisfies [q]: what a walk from the
    end of the list that stops at the first hit finds. *)
Fixpoint last_index_where {A : Type} (q : A -> bool) (l : list A) : option nat :=
  match l with
  | [] => None
  | x :: t =>
      match last_index_where q t with
      | Some i => Some (S i)
      | None => if q x then Some 0 else None
      end
  end.

Definition UNNAMED : string := "(Unnamed weapon)".

(** The text after a special rule that was glued before an ammunition
    variant: [Radius (2) > 82mm Chemical-SP] gives [> 82mm Chemical-SP]. *)
Definition ammo_after_marker (s : string) : option string :=
  match split1 ">" s with
  | (_, Some second) => Some (">" +:+ strip second)
  | (_, None) => None
  end.

Definition cleaned_line (ln : string) : string :=
  if has_char ">" ln && negb (startswith (strip ln) ">") then
    match split1 ">" ln with
    | (first, Some second) =>
        let first_part := strip first in
        let potential_ammo := ">" +:+ strip second in
        if matches WEAPON_NAME_RE potential_ammo &&
           negb (matches WEAPON_NAME_RE first_part)
        then potential_ammo else ln
    | (_, None) => ln
    end
  else ln.

(** The name of a mortar from the calibre of its ammunition and the
    descriptive category of the unit. *)
Definition mortar_title (descriptive_category : option string) (caliber : string)
  : string :=
  match descriptive_category with
  | Some dc =>
      if truthy dc && contains (upper dc) "MORTAR" then
        let mortar_type :=
          fold_left (fun acc word =>
                       if in_list word ["towed"; "mortar"; "self-propelled"]
                       then acc else title word +:+ " ")
                    (words (lower dc)) "" in
        caliber +:+ " " +:+ mortar_type +:+ "Mortar"
      else caliber +:+ " Mortar"
  | None => caliber +:+ " Mortar"
  end.

(** The look-ahead that names an unnamed profile after the ammunition
    variant that follows it; [rest] is [lines] after the profile. *)
Fixpoint lookahead_title (descriptive_category : option string)
  (rest : list string) : option string :=
  match rest with
  | [] => None
  | line :: rest' =>
      let next_ln := strip line in
      if is_empty next_ln || matches SEPARATOR next_ln
      then lookahead_title descriptive_category rest'
      else if startswith next_ln ">" then
        match re_search CALIBER next_ln with
        | Some caliber_match =>
            Some (mortar_title descriptive_category (grp caliber_match 1))
        | None => None
        end
      else if found PROFILE_DETECT_RE next_ln then None
      else lookahead_title descriptive_category rest'
  end.

(** [Turret], [No CC] and [Multi-Gun] found in a name are taken out of it
    and kept as special rules. *)
Definition extract_embedded (text : string) : string * list string :=
  fold_left (fun '(t, emb) rule =>
               if found (WORD rule) t
               then (re_sub (WORD_PADDED rule) [TLit " "] t, emb ++ [rule])
               else (t, emb))
            ["Turret"; "No CC"; "Multi-Gun"] (text, []).

(** The title of a named weapon, from the text the name pattern matched. *)
Definition clean_weapon_title (matched : string) : string * list string :=
  let weapon_title := re_sub AMMO_IN_NAME [TLit " "] matched in
  let '(weapon_title, embedded) :=
    if has_char ">" weapon_title && negb (startswith weapon_title ">") then
      match split1 ">" weapon_title with
      | (first, Some second) =>
          let '(base_part, embedded) := extract_embedded (strip first) in
          (strip base_part +:+ " " +:+ (">" +:+ strip second), embedded)
      | (_, None) => extract_embedded weapon_title
      end
    else extract_embedded weapon_title in
  (strip (re_sub SPACES [TLit " "] weapon_title), embedded).

Definition drop_rules (w : Weapon nat) : Weapon nat :=
  mkWeapon (w_name w) (w_target w) (w_range w) (w_accuracy w) (w_dice w)
           (w_strength w) (w_ammo w) None (w_shotTypes w).

Definition add_shot_type (shot_type : ShotType nat) (w : Weapon nat) : Weapon nat :=
  mkWeapon (w_name w) (w_target w) (w_range w) (w_accuracy w) (w_dice w)
           (w_strength w) (w_ammo w) (w_specialRules w)
           (Some (default [] (w_shotTypes w) ++ [shot_type])).

Section WeaponLoop.

Variable lines : list string.
Variable line_boxes : list LineBox.
Variable descriptive_category : option string.

(** The title of a profile that has no name line: the last special rule of
    the previous weapon when it looks like a weapon name (it is then taken
    away from that weapon), else a name made from the next ammunition
    variant, else the placeholder. *)
Definition unnamed_title (st : wstate) : string * wstate :=
  let '(weapon_title, st) :=
    match last (weapons st) with
    | Some w =>
        match rules_truthy (store st) (w_specialRules w) with
        | Some r =>
            let last_weapon_rules := rules_at (store st) r in
            match last last_weapon_rules with
            | Some last_rule =>
                if matches WEAPON_NAME_RE last_rule then
                  let weapon_title :=
                    if has_char ">" last_rule && negb (startswith last_rule ">")
                    then match ammo_after_marker last_rule with
                         | Some potential_ammo =>
                             if matches WEAPON_NAME_RE potential_ammo
                             then potential_ammo else last_rule
                         | None => last_rule
                         end
                    else last_rule in
                  let popped := removelast last_weapon_rules in
                  let store' := <[ r := popped ]> (store st) in
                  let weapons' :=
                    match popped with
                    | [] => alter drop_rules (length (weapons st) - 1) (weapons st)
                    | _ :: _ => weapons st
                    end in
                  (weapon_title,
                   mkW (cursor st) weapons' store' (embedded_special_rules st))
                else (UNNAMED, st)
            | None => (UNNAMED, st)
            end
        | None => (UNNAMED, st)
        end
    | None => (UNNAMED, st)
    end in
  if String.eqb weapon_title UNNAMED then
    match lookahead_title descriptive_category (drop (S (cursor st)) lines) with
    | Some t => (t, st)
    | None => (weapon_title, st)
    end
  else (weapon_title, st).

(** What the first part of an iteration finds. *)
Inductive located : Type :=
| LSkip (st : wstate)                    (* no weapon here: continue *)
| LBreak (st : wstate)                   (* a name on the last line: break *)
| LProfile (weapon_title : string) (pm : rmatch_obj) (st : wstate).
                                         (* a profile, the cursor is on it *)

Definition locate (st : wstate) (ln : string) : located :=
  let cleaned_ln := cleaned_line ln in
  let is_italic_line := is_special_rule_line line_boxes (cursor st) in
  match re_match WEAPON_NAME_RE cleaned_ln with
  | None =>
      if found PROFILE_DETECT_RE ln then
        match re_match PROFILE_RE ln with
        | Some pm =>
            let '(weapon_title, st) := unnamed_title st in
            LProfile weapon_title pm st
        | None => LSkip (next_line st)
        end
      else LSkip (next_line st)
  | Some wm =>
      if is_italic_line then LSkip (next_line st)
      else
        let '(weapon_title, embedded) := clean_weapon_title (norm (group0 wm)) in
        let st := mkW (S (cursor st)) (weapons st) (store st) embedded in
        match lines !! cursor st with
        | None => LBreak st
        | Some profile_line =>
            match re_match PROFILE_RE profile_line with
            | Some pm => LProfile weapon_title pm st
            | None => LSkip (next_line st)
            end
        end
  end.

(** The special rules that follow a profile; [rest] is [lines] from
    [cursor] on.  The result is the cursor, the rules and the value of a
    line [Ammo N] when there was one. *)
Fixpoint weapon_rules (cursor : nat) (rest : list string)
  (w_rules : list string) (ammo_from_line : option Z)
  : nat * list string * option Z :=
  match rest with
  | [] => (cursor, w_rules, ammo_from_line)
  | line :: rest' =>
      if is_weapon_line line_boxes line (Some cursor)
      then (cursor, w_rules, ammo_from_line)
      else
        let rule_ln := bare line in
        let is_italic_line := is_special_rule_line line_boxes cursor in
        match re_match AMMO_LINE rule_ln with
        | Some ammo_match =>
            weapon_rules (S cursor) rest' w_rules
                         (Some (int_of_digits (grp ammo_match 1)))
        | None =>
            if truthy rule_ln && negb (found PROFILE_DETECT_RE rule_ln) then
              if startswith rule_ln ">" && matches WEAPON_NAME_RE rule_ln
              then (cursor, w_rules, ammo_from_line)
              else
                let w_rules :=
                  if is_italic_line || has_char "," rule_ln
                  then w_rules ++
                       filter (fun part =>
                                 negb (startswith part ">" &&
                                       matches WEAPON_NAME_RE part))
                              (split_rules_smart rule_ln)
                  else w_rules in
                weapon_rules (S cursor) rest' w_rules ammo_from_line
            else if found PROFILE_DETECT_RE rule_ln
            then (cursor, w_rules, ammo_from_line)
            else weapon_rules (S cursor) rest' w_rules ammo_from_line
        end
  end.

(** The range: the letter O is zero, and [e], [eo] and [4o] are misread
    forms of 40; the other texts the pattern lets through are numerals. *)
Definition range_of (range_val : string) : Z :=
  let range_val :=
    if String.eqb range_val "O" || String.eqb (lower range_val) "o" then "0"
    else if String.eqb (lower range_val) "e" || String.eqb (lower range_val) "eo"
    then "40"
    else if String.eqb (lower range_val) "4o" then "40"
    else range_val in
  int_of_digits range_val.

(** An unnamed weapon takes its name from the first ammunition variant
    with a calibre among its rules, and that rule is removed. *)
Fixpoint name_from_rules (w_rules : list string) : option (string * list string) :=
  match w_rules with
  | [] => None
  | rule :: rest =>
      let later :=
        match name_from_rules rest with
        | Some (t, rest') => Some (t, rule :: rest')
        | None => None
        end in
      if startswith rule ">" then
        match re_search CALIBER rule with
        | Some caliber_match =>
            Some (mortar_title descriptive_category (grp caliber_match 1), rest)
        | None => later
        end
      else later
  end.

(** The rules of a Smoke or Chemical-SP shot type: an orphaned radius such
    as [(3)] becomes [Smoke (3\q)]. *)
Definition fix_smoke_rule (ammo_type rule : string) : string :=
  if matches RADIUS_ONLY rule then
    let radius :=
      if negb (has_char dquote rule) && has_char ")" rule
      then replace ")" (dqs +:+ ")") rule else rule in
    ammo_type +:+ " " +:+ radius
  else rule.

Definition is_smoke (shot_name : string) : bool :=
  endswith shot_name "Smoke" || endswith shot_name "Chemical-SP".

(** The special rules of a shot type: the list of the weapon object
    itself, or a new list when the Smoke fix rewrites it. *)
Definition shot_rules (store : rules_store) (rules : option nat)
  (shot_name : string) : rules_store * option nat :=
  match rules_truthy store rules with
  | Some r =>
      if is_smoke shot_name then
        let ammo_type := default "" (last (words shot_name)) in
        let '(store, r') :=
          alloc store (map (fix_smoke_rule ammo_type) (rules_at store r)) in
        (store, Some r')
      else (store, Some r)
  | None => (store, None)
  end.

Definition make_shot_type (store : rules_store) (shot_name : string)
  (weapon_obj : Weapon nat) : rules_store * ShotType nat :=
  let '(store, rules) := shot_rules store (w_specialRules weapon_obj) shot_name in
  (store,
   mkShotType shot_name (w_target weapon_obj) (w_range weapon_obj)
              (w_accuracy weapon_obj) (w_strength weapon_obj)
              (w_dice weapon_obj) rules).

(** The base weapon created when a combined name has no base yet: the
    same profile, [ammo] only when it has a value, and the very list of
    special rules of the weapon object. *)
Definition placeholder_base (base_weapon_name : string) (weapon_obj : Weapon nat)
  (store : rules_store) : Weapon nat :=
  mkWeapon base_weapon_name (w_target weapon_obj) (w_range weapon_obj)
           (w_accuracy weapon_obj) (w_dice weapon_obj) (w_strength weapon_obj)
           (match w_ammo weapon_obj with
            | Some (Some n) => Some (Some n)
            | _ => None
            end)
           (rules_truthy store (w_specialRules weapon_obj))
           None.

(** A name with a base and an ammunition part: the profile becomes a shot
    type of the base weapon, which is looked up by name from the end and
    created when it is missing. *)
Definition fold_combined (weapon_title : string) (weapon_obj : Weapon nat)
  (weapons : list (Weapon nat)) (store : rules_store)
  : list (Weapon nat) * rules_store :=
  match split1 ">" weapon_title with
  | (first, Some second) =>
      let base_weapon_name := strip first in
      let ammo_variant_name := strip second in
      let '(weapons, base_weapon_idx) :=
        match last_index_where (fun w => String.eqb (w_name w) base_weapon_name)
                               weapons with
        | Some i => (weapons, i)
        | None =>
            (weapons ++ [placeholder_base base_weapon_name weapon_obj store],
             length weapons)
        end in
      let '(store, shot_type) := make_shot_type store ammo_variant_name weapon_obj in
      (alter (add_shot_type shot_type) base_weapon_idx weapons, store)
  | (_, None) => (weapons, store)
  end.

(** The base weapon of an ammunition variant: the last weapon that is not
    itself a variant and, when the variant names a calibre, has the same
    calibre in its name. *)
Definition caliber_of (s : string) : option string :=
  match re_search CALIBER s with
  | Some m => group m 1
  | None => None
  end.

Definition is_base_for (ammo_caliber : option string) (w : Weapon nat) : bool :=
  negb (startswith (w_name w) ">") &&
  match ammo_caliber with
  | Some c =>
      match caliber_of (w_name w) with
      | Some wc => String.eqb wc c
      | None => false
      end
  | None => true
  end.

Definition find_base (weapon_title : string) (weapons : list (Weapon nat))
  : option nat :=
  last_index_where (is_base_for (caliber_of weapon_title)) weapons.

(** The end of an iteration: where the weapon object goes.  A combined
    name is folded under its base weapon; a variant, when there is a weapon
    already, is folded under its base weapon or skipped (with one more
    line) when it has none; anything else, a variant that comes first
    included, is appended to the weapons. *)
Definition file_weapon (weapon_title : string) (weapon_obj : Weapon nat)
  (st : wstate) : wstate :=
  if has_char ">" weapon_title && negb (startswith weapon_title ">") then
    let '(weapons, store) :=
      fold_combined weapon_title weapon_obj (weapons st) (store st) in
    mkW (cursor st) weapons store (embedded_special_rules st)
  else if startswith weapon_title ">" &&
          negb (bool_decide (weapons st = [])) then
    match find_base weapon_title (weapons st) with
    | None => next_line st
    | Some base_weapon_idx =>
        let shot_name := strip (suffix_from 1 weapon_title) in
        let '(store, shot_type) := make_shot_type (store st) shot_name weapon_obj in
        mkW (cursor st)
            (alter (add_shot_type shot_type) base_weapon_idx (weapons st))
            store (embedded_special_rules st)
    end
  else
    mkW (cursor st) (weapons st ++ [weapon_obj]) (store st)
        (embedded_special_rules st).

(** The second part of an iteration, from the profile on. *)
Definition process (weapon_title : string) (pm : rmatch_obj) (st : wstate)
  : outcome :=
  let cursor := S (cursor st) in
  let w_rules :=
    match grp_truthy pm 7 with
    | Some trailing =>
        if truthy (strip trailing) then split_rules_smart trailing else []
    | None => []
    end in
  let '(cursor, w_rules, ammo_from_line) :=
    weapon_rules cursor (drop cursor lines) w_rules None in
  let range := range_of (grp pm 2) in
  let strength :=
    match grp_truthy pm 4 with
    | Some s => parse_strength s
    | None => None
    end in
  match parse_acc (grp pm 3) with
  | None =>
      (* accuracy could not be parsed: the weapon is skipped *)
      Continue (set_cursor cursor st)
  | Some accuracy =>
      let target :=
        match grp_truthy pm 1 with
        | Some t => replace " " "" t
        | None => "All"
        end in
      let ammo :=
        match grp_truthy pm 6 with
        | Some a => Some (int_of_digits a)
        | None => ammo_from_line
        end in
      let '(weapon_title, w_rules) :=
        if String.eqb weapon_title UNNAMED then
          match name_from_rules w_rules with
          | Some (t, rules) => (t, rules)
          | None => (weapon_title, w_rules)
          end
        else (weapon_title, w_rules) in
      let w_rules := embedded_special_rules st ++ w_rules in
      let '(store, rules) :=
        match w_rules with
        | [] => (store st, None)
        | _ :: _ =>
            let '(s, r) :=
              alloc (store st)
                    (dedupe_preserve_order (merge_fragmented_rules w_rules)) in
            (s, Some r)
        end in
      let weapon_obj :=
        mkWeapon weapon_title target range accuracy (int_of_digits (grp pm 5))
                 strength (Some ammo) rules None in
      Continue (file_weapon weapon_title weapon_obj
                            (mkW cursor (weapons st) store (embedded_special_rules st)))
  end.

(** One iteration of [while cursor < len(lines)]. *)
Definition step (st : wstate) : outcome :=
  match lines !! cursor st with
  | None => Break st
  | Some ln =>
      match locate st ln with
      | LSkip st' => Continue st'
      | LBreak st' => Break st'
      | LProfile weapon_title pm st' => process weapon_title pm st'
      end
  end.

(** The loop; every iteration moves the cursor forward, so [length lines]
    iterations from cursor 0 are enough to leave it. *)
Fixpoint weapon_loop (fuel : nat) (st : wstate) : wstate :=
  match fuel with
  | 0 => st
  | S fuel' =>
      match step st with
      | Break st' => st'
      | Continue st' => weapon_loop fuel' st'
      end
  end.

End WeaponLoop.

(** *** The unit record *)

(** The result holds the lists themselves: each reference is read in the
    final store. *)
Definition resolve_shot (store : rules_store) (s : ShotType nat)
  : ShotType (list string) :=
  mkShotType (st_name s) (st_target s) (st_range s) (st_accuracy s)
             (st_strength s) (st_dice s)
             (option_map (rules_at store) (st_specialRules s)).

Definition resolve_weapon (store : rules_store) (w : Weapon nat)
  : Weapon (list string) :=
  mkWeapon (w_name w) (w_target w) (w_range w) (w_accuracy w) (w_dice w)
           (w_strength w) (w_ammo w)
           (option_map (rules_at store) (w_specialRules w))
           (option_map (map (resolve_shot store)) (w_shotTypes w)).

Definition nonempty_str (s : option string) : option string :=
  match s with
  | Some x => if truthy x then Some x else None
  | None => None
  end.

Section Parse.

(** [unicodedata.normalize('NFKD', s)], used by [slugify]. *)
Variable nfkd : list Slug.codepoint -> list Slug.codepoint.

(** Where the scan for special rules starts: after the stat line, or after
    its second half when it was split. *)
Definition rules_start (has_formatting : bool) (lines : list string)
  (stat_i : nat) : nat :=
  match lines !! stat_i with
  | Some line =>
      if has_formatting && matches UNIT_TYPE_ONLY (strip line)
      then stat_i + 2 else stat_i + 1
  | None => stat_i + 1
  end.

(** The state the weapon loop ends in, for a card whose header and stat
    line were found. *)
Definition weapon_stage (lines : list string) (line_boxes : list LineBox)
  (descriptive_category : option string) (cursor : nat) : wstate :=
  weapon_loop lines line_boxes descriptive_category (S (length lines))
              (mkW cursor [] [] []).

(** Everything after the stat line. *)
Definition finish (has_formatting : bool) (lines : list string)
  (line_boxes : list LineBox) (h : Header) (sl : StatLine) : Unit :=
  let cursor := rules_start has_formatting lines (stat_i sl) in
  let '(cursor, special_rules, temp_rules) :=
    collect_rules line_boxes cursor (drop cursor lines) [] [] in
  let fixed := split_merged lines line_boxes in
  let lines := map fst fixed in
  let line_boxes := map snd fixed in
  let '(special_rules, description) :=
    match temp_rules with
    | [] => (special_rules, None)
    | _ :: _ => classify_temp_rules special_rules temp_rules
    end in
  let '(cursor, special_rules, description) :=
    description_block lines cursor special_rules description in
  let st := weapon_stage lines line_boxes (descriptive_category sl) cursor in
  let weapons := map (resolve_weapon (store st)) (weapons st) in
  mkUnit (Slug.slugify nfkd (Slug.codepoints (unit_name h)))
         (unit_name h)
         (unit_type sl)
         (unit_points h)
         (sl_stats sl)
         (nonempty_str (descriptive_category sl))
         (dedupe_preserve_order (merge_fragmented_rules special_rules))
         (nonempty_str description)
         (match weapons with [] => None | _ :: _ => Some weapons end)
         None None.

(** [parse_card_text]: [Ok None] is the value [None], [Exn] an exception. *)
Definition parse_card_text (card_text : option string)
  (line_boxes : option (list LineBox)) : result (option Unit) :=
  let '(lines, line_boxes) := read_input card_text line_boxes in
  match lines with
  | [] => Ok None
  | _ :: _ =>
      let has_formatting := has_formatting_of line_boxes in
      let lines := preprocess has_formatting lines in
      match find_header lines with
      | None => Ok None
      | Some h =>
          sl ← stat_stage has_formatting lines (header_idx h);
          match sl with
          | None => Ok None
          | Some sl => Ok (Some (finish has_formatting lines line_boxes h sl))
          end
      end
  end.

(** *** The extraction run *)

(** [split_category_subcategory]. *)
Definition split_category_subcategory (heading : string)
  : option string * option string :=
  if is_empty heading then (None, None)
  else if contains heading " - " then
    match split1 " - " heading with
    | (first, Some second) => (Some (title (strip first)), Some (strip second))
    | (first, None) => (Some (title (strip first)), None)
    end
  else (Some (title (strip heading)), None).

Definition VALID_CATEGORIES : list string :=
  ["TACOMS"; "Infantry"; "Vehicles"; "Aircraft"; "Emplacements"; "Support";
   "Scenario"].

Definition inferred_category (unit_class_value : string) : string :=
  if contains unit_class_value "Inf" then "Infantry"
  else if contains unit_class_value "Vec" then "Vehicles"
  else if contains unit_class_value "Air" then "Aircraft"
  else "Infantry".

(** The category and the subcategory of a unit, from the heading above its
    card and its unit class. *)
Definition categorise (heading : string) (unit_class_value : string)
  : string * option string :=
  let '(cat, subcat) := split_category_subcategory heading in
  let inferred_cat := inferred_category unit_class_value in
  match cat with
  | Some c =>
      if truthy c && in_list c VALID_CATEGORIES then
        if (String.eqb c "Infantry" && contains unit_class_value "Inf") ||
           (String.eqb c "Vehicles" && contains unit_class_value "Vec") ||
           (String.eqb c "Aircraft" && contains unit_class_value "Air") ||
           in_list c ["TACOMS"; "Emplacements"; "Support"; "Scenario"]
        then (c, subcat)
        else (inferred_cat, None)
      else (inferred_cat, subcat)
  | None => (inferred_cat, subcat)
  end.

Definition with_category (heading : string) (u : Unit) : Unit :=
  let '(cat, subcat) := categorise heading (u_unitClass u) in
  mkUnit (u_id u) (u_name u) (u_unitClass u) (u_points u) (u_stats u)
         (u_descriptiveCategory u) (u_specialRules u) (u_description u)
         (u_weapons u) (Some cat) (nonempty_str subcat).

(** What the collaborators deliver for one card: the text and the line
    boxes of [extract_card_text_ocr], and the heading of
    [heading_for_card]. *)
Record CardInput : Type := mkCardInput {
  ci_text : string;
  ci_line_boxes : list LineBox;
  ci_heading : string
}.

(** The loop over the cards: a card without text and a card that does not
    parse are passed over; an exception of the parser ends the run. *)
Fixpoint collect_units (cards : list CardInput) : result (list Unit) :=
  match cards with
  | [] => Ok []
  | card :: rest =>
      if is_empty (ci_text card) then collect_units rest
      else
        unit ← parse_card_text (Some (ci_text card)) (Some (ci_line_boxes card));
        units ← collect_units rest;
        match unit with
        | None => Ok units
        | Some u => Ok (with_category (ci_heading card) u :: units)
        end
  end.

(** The final pass: a unit without id, or with an id already seen, is
    dropped. *)
Fixpoint dedupe_units (seen : gset string) (units : list Unit) : list Unit :=
  match units with
  | [] => []
  | u :: rest =>
      let uid := u_id u in
      if is_empty uid || bool_decide (uid ∈ seen) then dedupe_units seen rest
      else u :: dedupe_units ({[ uid ]} ∪ seen) rest
  end.

Definition extract_units_from_qur_ocr (cards : list CardInput)
  : result (list Unit) :=
  units ← collect_units cards;
  Ok (dedupe_units ∅ units).

End Parse.

End Card.

(* ===================================================================== *)
(** ** Sample cards                                                       *)
(* ===================================================================== *)

(** The cards the statements below are evaluated on, as the plain text of
    a card (the lines joined by line feeds). *)
Module Samples.

Definition q : string := Helpers.dqs.

Definition card (lines : list string) : option string :=
  Some (join (String LF "") lines).

(** [Inf(S), M4\q, Q3, T1/1/1], [Inf, M4\q, Q3] and [Air(CAP), M10\q, Q3, T2]. *)
Definition stat_triple : string := "Inf(S), M4" +:+ q +:+ ", Q3, T1/1/1".
Definition stat_plain : string := "Inf, M4" +:+ q +:+ ", Q3".
Definition stat_scalar : string := "Air(CAP), M10" +:+ q +:+ ", Q3, T2".

Definition grenadiers : option string :=
  card ["GRENADIERS - 120 pts"; stat_triple].

Definition interceptor : option string :=
  card ["INTERCEPTOR - 90 pts"; stat_scalar].

(** The split cost, in the one-line form and in the three fallback forms. *)
Definition raiders_one_line : option string :=
  card ["RAIDERS - 0/20 pts"; stat_plain].
Definition raiders_three_lines : option string :=
  card ["RAIDERS"; "-"; "0/20 pts"; stat_plain].
Definition raiders_dash_pts : option string :=
  card ["RAIDERS"; "- 0/20 pts"; stat_plain].
Definition raiders_pts_next : option string :=
  card ["RAIDERS - 0/20"; "pts"; stat_plain].

(** A profile line: target, range, accuracy, strength, dice. *)
Definition profile (target range acc str dice : string) : string :=
  target +:+ ", R" +:+ range +:+ q +:+ ", A" +:+ acc +:+ ", S" +:+ str
         +:+ ", D" +:+ dice.

(** A weapon whose name carries its ammunition. *)
Definition howitzer : option string :=
  card ["HOWITZER - 50 pts"; stat_plain;
        "2K52 152mm Howitzer > 152mm HEAT"; profile "Gnd" "40" "3+" "10" "1"].

(** A card whose first weapon line is an ammunition variant. *)
Definition variant_first_card : option string :=
  card ["MORTAR TEAM - 30 pts"; stat_plain;
        "> 82mm Frag"; profile "Gnd" "40" "4+" "2" "2"].

(** Three weapons; the accuracy of the second, [zz], does not parse. *)
Definition three_weapons : option string :=
  card ["GRENADIERS - 120 pts"; stat_plain;
        "6G1 7.76mm Rifle"; profile "All" "12" "3+" "1" "1";
        "6L1 85mm RPG"; profile "Vec" "12" "zz" "5" "1";
        "6G2 7.76mm MG"; profile "All" "18" "4+" "1" "3"].

(** A stat line whose movement is the lower-case letter o. *)
Definition lower_case_o : option string :=
  card ["DRONE - 10 pts"; "Inf, Mo" +:+ q +:+ ", Q3"].

(** A card whose name is the one letter U+00C9, E with acute. *)
Definition e_acute : string := String (chr 201) EmptyString.

Definition accented : option string :=
  card [e_acute +:+ " - 10 pts"; stat_plain].

(** The name and the points of the unit a card gives. *)
Definition name_and_points (r : result (option Card.Unit))
  : option (string * Card.points) :=
  match r with
  | Ok (Some u) => Some (Card.u_name u, Card.u_points u)
  | _ => None
  end.

(** Its unit class and its stats. *)
Definition class_and_stats (r : result (option Card.Unit))
  : option (string * Card.Stats) :=
  match r with
  | Ok (Some u) => Some (Card.u_unitClass u, Card.u_stats u)
  | _ => None
  end.

(** The names of its weapons. *)
Definition weapon_names (r : result (option Card.Unit)) : option (list string) :=
  match r with
  | Ok (Some u) => Some (map Card.w_name (default [] (Card.u_weapons u)))
  | _ => None
  end.

End Samples.

(* ===================================================================== *)
(** ** The shape of the weapon list                                       *)
(* ===================================================================== *)

Module WeaponInv.
Import Card.

(** The names of the top-level weapons. *)
Definition names (ws : list (Weapon nat)) : list string := map w_name ws.

(** A name that starts with the variant marker can only be the first of
    the list. *)
Definition variant_first (ns : list string) : Prop :=
  ∀ i n, ns !! i = Some n → startswith n ">" = true → i = 0.

End WeaponInv.

(* ===================================================================== *)
(** ** Texts within the character model                                   *)
(* ===================================================================== *)

Module Text.

(** The texts on which the character classes above are those of Python:
    every code point is below 128. *)
Definition is_ascii (s : string) : bool :=
  forallb (fun c => code c <? 128) (chars s).

(** A character of a line of rules that is neither a parenthesis nor a
    comma. *)
Definition is_plain (c : ascii) : bool :=
  negb (eqc c "(" || eqc c ")" || eqc c ",").

Definition all_plain (s : string) : bool := forallb is_plain (chars s).

End Text.

(* ===================================================================== *)
(** ** What merging rule fragments keeps                                  *)
(* ===================================================================== *)

Module MergeInv.

(** The state of the loop of [merge_fragmented_rules] ([merged], in
    reverse, and the rules still to read) against its result: the same
    text when the items are joined by single blanks, no more items, and
    a result that is empty only when there was nothing. *)
Definition kept (rules merged out : list string) : Prop :=
  join " " out = join " " (rev merged ++ rules) ∧
  length out ≤ length merged + length rules ∧
  (out = [] → merged = [] ∧ rules = []).

End MergeInv.

(* ===================================================================== *)
(** ** Substitution of the runs of a class                                *)
(* ===================================================================== *)

(** What [re.sub] computes for the two shapes of pattern the slug and the
    matching key are made with, written without the matcher: a pattern that
    is one character of a class [q], and a pattern that is a run (one or
    more) of characters of [q]; the replacement is a fixed text [t]. *)
Module Subst.

(** The length of the run of [q] at the head of a text. *)
Fixpoint run_length (q : ascii -> bool) (l : list ascii) : nat :=
  match l with
  | c :: r => if q c then S (run_length q r) else 0
  | [] => 0
  end.

(** Every character of [q] replaced by [t]. *)
Fixpoint replace_each (q : ascii -> bool) (t : list ascii) (l : list ascii)
  : list ascii :=
  match l with
  | [] => []
  | c :: r => if q c then t ++ replace_each q t r else c :: replace_each q t r
  end.

(** Every maximal run of [q] replaced by [t]; [inrun] says that the
    character before the text belongs to a run. *)
Fixpoint replace_runs (q : ascii -> bool) (t : list ascii) (inrun : bool)
  (l : list ascii) : list ascii :=
  match l with
  | [] => []
  | c :: r =>
      if q c then (if inrun then [] else t) ++ replace_runs q t true r
      else c :: replace_runs q t false r
  end.

(** The state of the matcher is a position of the subject. *)
Definition at_pos (subject : string) (s : Re.mstate) : Prop :=
  Re.m_rest s = skipn (Re.m_pos s) (chars subject).

End Subst.

(* ===================================================================== *)
(** ** The shape of a matching key                                        *)
(* ===================================================================== *)

Module KeyInv.

(** The characters of a key: blanks and characters of words that are not
    upper-case letters; no blank at either end, no two blanks in a row. *)
Definition key_shape (K : list ascii) : Prop :=
  (∀ c, In c K → c = " "%char ∨ (is_word c = true ∧ is_upper c = false)) ∧
  match K with [] => True | a :: _ => is_space a = false end ∧
  match rev K with [] => True | z :: _ => is_space z = false end ∧
  contains_l [" "%char; " "%char] K = false.

End KeyInv.

(* ===================================================================== *)
(** ** Optional keys of a weapon                                          *)
(* ===================================================================== *)

Module WeaponShape.

(** The key [shotTypes] of a weapon is absent or holds a non-empty list. *)
Definition shots_ok {R : Type} (w : Card.Weapon R) : Prop :=
  Card.w_shotTypes w ≠ Some [].

End WeaponShape.

(* ===================================================================== *)
(** ** The geometry of a page: [heading_for_card], [reconstruct_lines]    *)
(* ===================================================================== *)

(** The coordinates are Python floats.  They are kept abstract: a type
    [F] with the operations the two functions use ([-], [+], [/], [abs],
    [min], [max], [<], [<=], the conversion of an integer and
    [float('inf')]), of which nothing is assumed. *)
Module Layout.

Section Floats.

Variable F : Type.
Variable inf : F.
Variable of_nat : nat -> F.
Variable fsub fadd fdiv fmin fmax : F -> F -> F.
Variable fabs : F -> F.
Variable flt fle : F -> F -> bool.

(** A bounding box [(x0, top, x1, bottom)]. *)
Definition bbox : Type := (F * F * F * F)%type.

(** [h_bottom <= card_top] and [x_overlap > 0]: the heading is above the
    card and in its column. *)
Definition qualifies (card heading : bbox) : bool :=
  let '(card_x0, card_top, card_x1, card_bottom) := card in
  let '(h_x0, h_top, h_x1, h_bottom) := heading in
  fle h_bottom card_top &&
  (let x_overlap := fsub (fmin card_x1 h_x1) (fmax card_x0 h_x0) in
   flt (of_nat 0) x_overlap).

(** [distance = card_top - h_bottom]. *)
Definition distance (card heading : bbox) : F :=
  let '(card_x0, card_top, card_x1, card_bottom) := card in
  let '(h_x0, h_top, h_x1, h_bottom) := heading in
  fsub card_top h_bottom.

(** The loop of [heading_for_card] over the headings. *)
Fixpoint heading_loop (card : bbox) (headings : list (string * bbox))
  (best_heading : string) (best_distance : F) : string * F :=
  match headings with
  | [] => (best_heading, best_distance)
  | (heading_text, heading_bbox) :: rest =>
      if qualifies card heading_bbox &&
         flt (distance card heading_bbox) best_distance
      then heading_loop card rest heading_text (distance card heading_bbox)
      else heading_loop card rest best_heading best_distance
  end.

Definition heading_for_card (headings : list (string * bbox)) (card : bbox)
  : string :=
  match headings with
  | [] => ""
  | _ :: _ => fst (heading_loop card headings "" inf)
  end.

(** A word of the OCR output with its box. *)
Record WordBox : Type := mkWordBox {
  wb_text : string;
  x0 : F;
  y0 : F;
  x1 : F;
  y1 : F;
  wb_is_bold : bool;
  wb_is_italic : bool
}.

(** [center_y]: [(y0 + y1) / 2]. *)
Definition center_y (w : WordBox) : F :=
  fdiv (fadd (y0 w) (y1 w)) (of_nat 2).

(** [sum(w.center_y for w in current_line) / len(current_line)]. *)
Definition avg_y (current_line : list WordBox) : F :=
  fdiv (fold_left fadd (map center_y current_line) (of_nat 0))
       (of_nat (length current_line)).

(** The grouping loop of [reconstruct_lines] over [words[1:]]. *)
Fixpoint group_words (y_tolerance : F) (words : list WordBox)
  (current_line : list WordBox) (lines : list (list WordBox))
  : list (list WordBox) :=
  match words with
  | [] =>
      match current_line with
      | [] => lines
      | _ :: _ => lines ++ [current_line]
      end
  | word :: rest =>
      match current_line with
      | [] => group_words y_tolerance rest [word] lines
      | _ :: _ =>
          if fle (fabs (fsub (center_y word) (avg_y current_line))) y_tolerance
          then group_words y_tolerance rest (current_line ++ [word]) lines
          else group_words y_tolerance rest [word] (lines ++ [current_line])
      end
  end.

(** [sorted(line_words, key=lambda w: w.x0)]: the stable sort, written as
    the insertion of each word after the words that are not to its right. *)
Fixpoint insert_by_x0 (w : WordBox) (l : list WordBox) : list WordBox :=
  match l with
  | [] => [w]
  | h :: t => if flt (x0 w) (x0 h) then w :: h :: t else h :: insert_by_x0 w t
  end.

Definition sorted_by_x0 (l : list WordBox) : list WordBox :=
  fold_left (fun acc w => insert_by_x0 w acc) l [].

(** The text of a line: its words from left to right, joined by blanks
    and corrected. *)
Definition line_text (line_words : list WordBox) : string :=
  Fix.fix_ocr_errors_contextual
    (join " " (map wb_text (sorted_by_x0 line_words))).

Definition reconstruct_lines (words : list WordBox) (y_tolerance : F)
  : list string :=
  match words with
  | [] => []
  | first :: rest => map line_text (group_words y_tolerance rest [first] [])
  end.

End Floats.

End Layout.
(* ===================================================================== *)
(** * Properties                                                          *)
(* ===================================================================== *)

Example parse_acc_ex1 : parse_acc "3+/4+" = Some (AccPair (AInt 3) (AInt 4)).
Proof. reflexivity. Qed.
Example parse_acc_ex2 : parse_acc "4+" = Some (AccOne (AInt 4)).
Proof. reflexivity. Qed.
Example parse_acc_ex3 : parse_acc " ++/xx " = Some (AccPair (AStr "++") (AStr "xx")).
Proof. reflexivity. Qed.
Example parse_acc_ex4 : parse_acc "t++" = None.
Proof. reflexivity. Qed.
Example parse_strength_ex1 : parse_strength "1/1+" = Some (StrPair (AInt 1) (AInt 1)).
Proof. reflexivity. Qed.
Example parse_strength_ex2 : parse_strength "[D3]" = Some (StrOne (AStr "[D3]")).
Proof. reflexivity. Qed.
Example parse_strength_ex3 : parse_strength "3+" = Some (StrOne (AStr "3+")).
Proof. reflexivity. Qed.
Example parse_strength_ex4 : parse_strength "14" = Some (StrOne (AInt 14)).
Proof. reflexivity. Qed.
Example fix_ex1 : Fix.fix_ocr_errors_contextual "Inf (S), M4, Q3, 120pts" = "Inf(S), M4, Q3, 120 pts".
Proof. vm_compute. reflexivity. Qed.
Example fix_ex2 :
  Fix.fix_ocr_errors_contextual ("Vec, $32" +:+ Fix.dqs +:+ ", Re" +:+ Fix.dqs +:+ ", El, $3/4,$14 lnf")
  = "Vec, S32" +:+ Fix.dqs +:+ ", R40" +:+ Fix.dqs +:+ ", E4, S3/4, S14 lnf".
Proof. vm_compute. reflexivity. Qed.
Example fix_ex3 : Fix.fix_ocr_errors_contextual "a lnf lnf b" = "a Inf lnf b".
Proof. vm_compute. reflexivity. Qed.
Example fix_ex4 : Fix.fix_ocr_errors_contextual "a Inf lnf b" = "a Inf Inf b".
Proof. vm_compute. reflexivity. Qed.

(* ===================================================================== *)
(** ** The line aligner                                                   *)
(* ===================================================================== *)

Module AlignFacts.
Import Align.

Section Scan.

Variable ratio : string -> string -> Q.
Variable pdf : list LineBox.
Variable used : gset nat.
Variable line : string.

Local Abbreviation sim := (similarity ratio line).

Local Abbreviation scan_inv := (Align.scan_inv ratio pdf used line).

Lemma scan_inv_init : scan_inv 0 no_best.
Proof. left. repeat split; auto. intros; lia. Qed.

Lemma scan_inv_skip k b :
  k ∈ used → scan_inv k b → scan_inv (S k) b.
Proof.
  intros Hk [(H1 & H2 & H3 & H4) | (j & box & H1 & H2 & H3 & H4 & H5 & H6 & H7 & H8)].
  - left. repeat split; auto. intros j box Hj Hl Hu.
    destruct (decide (j = k)) as [-> | Hne]; [contradiction |].
    apply (H4 j box); auto. lia.
  - right. exists j, box. repeat split; auto; try lia;
      destruct (decide (j' = k)) as [-> | Hne]; try contradiction;
      apply (H8 j' box'); auto; lia.
Qed.

Lemma scan_inv_keep k b box :
  pdf !! k = Some box → (sim box <= best_ratio b)%Q →
  scan_inv k b → scan_inv (S k) b.
Proof.
  intros Hk Hle [(H1 & H2 & H3 & H4) | (j & bx & H1 & H2 & H3 & H4 & H5 & H6 & H7 & H8)].
  - left. repeat split; auto. intros j bx Hj Hl Hu.
    destruct (decide (j = k)) as [-> | Hne].
    + rewrite Hk in Hl. injection Hl as <-. now rewrite H3 in Hle.
    + apply (H4 j bx); auto. lia.
  - right. exists j, bx. rewrite H3 in Hle.
    split; [auto|]. split; [auto|]. split; [auto|]. split; [auto|].
    split; [lia|]. split; [auto|]. split; [auto|].
    intros j' box' Hj' Hl' Hu'.
    destruct (decide (j' = k)) as [-> | Hne].
    + rewrite Hk in Hl'. injection Hl' as <-. split; [auto | intros; lia].
    + apply (H8 j' box'); auto. lia.
Qed.

Lemma scan_inv_take k b box :
  pdf !! k = Some box → k ∉ used → (best_ratio b < sim box)%Q →
  scan_inv k b → scan_inv (S k) (mkBest (Some box) (sim box) (Some k)).
Proof.
  intros Hk Hu Hlt Hinv. right. exists k, box. simpl.
  split; [auto|]. split; [auto|]. split; [auto|]. split; [auto|].
  split; [lia|]. split; [auto|].
  destruct Hinv as [(H1 & H2 & H3 & H4) | (j & bx & H1 & H2 & H3 & H4 & H5 & H6 & H7 & H8)].
  - rewrite H3 in Hlt. split; [auto|].
    intros j' box' Hj' Hl' Hu'.
    destruct (decide (j' = k)) as [-> | Hne].
    + rewrite Hk in Hl'. injection Hl' as <-. split; [apply Qle_refl | intros; lia].
    + assert (Hle : (sim box' <= 0)%Q) by (apply (H4 j' box'); auto; lia).
      split; [| intros _]; eauto using Qle_lt_trans, Qlt_le_weak.
  - rewrite H3 in Hlt. split; [eauto using Qlt_trans|].
    intros j' box' Hj' Hl' Hu'.
    destruct (decide (j' = k)) as [-> | Hne].
    + rewrite Hk in Hl'. injection Hl' as <-. split; [apply Qle_refl | intros; lia].
    + assert (Hle : (sim box' <= sim bx)%Q) by (apply (H8 j' box'); auto; lia).
      split; [| intros _]; eauto using Qle_lt_trans, Qlt_le_weak.
Qed.

(** The invariant is carried through the loop. *)
Lemma scan_spec boxes : ∀ k b,
  drop k pdf = boxes → scan_inv k b →
  scan_inv (length pdf) (scan ratio used line k boxes b).
Proof.
  induction boxes as [| box rest IH]; intros k b Hdrop Hinv; simpl.
  - assert (length pdf ≤ k) as Hlen.
    { destruct (decide (length pdf ≤ k)) as [|Hn]; [auto|].
      assert (is_Some (drop k pdf !! 0)) as [x Hx]
        by (rewrite lookup_drop; apply lookup_lt_is_Some; lia).
      rewrite Hdrop in Hx. discriminate. }
    destruct Hinv as [(H1 & H2 & H3 & H4) | (j & bx & H1 & H2 & H3 & H4 & H5 & H6 & H7 & H8)].
    + left. repeat split; auto. intros j bx Hj Hl Hu.
      apply (H4 j bx); auto. apply lookup_lt_Some in Hl. lia.
    + right. exists j, bx. apply lookup_lt_Some in H4 as Hlt.
      split; [auto|]. split; [auto|]. split; [auto|]. split; [auto|].
      split; [lia|]. split; [auto|]. split; [auto|].
      intros j' box' Hj' Hl' Hu'. apply (H8 j' box'); auto.
      apply lookup_lt_Some in Hl'. lia.
  - assert (pdf !! k = Some box) as Hk.
    { rewrite <- (Nat.add_0_r k), <- lookup_drop, Hdrop. reflexivity. }
    assert (drop (S k) pdf = rest) as Hrest.
    { replace (S k) with (k + 1) by lia.
      rewrite <- drop_drop, Hdrop. reflexivity. }
    case_bool_decide as Hu.
    + apply IH; auto using scan_inv_skip.
    + destruct (Qlt_le_dec (best_ratio b) (sim box)) as [Hlt | Hle].
      * apply IH; [exact Hrest |]. now apply (scan_inv_take k b box).
      * apply IH; [exact Hrest |]. now apply (scan_inv_keep k b box).
Qed.

End Scan.
End AlignFacts.

Module AlignLoop.
Import Align.

Section Loop.

Variable ratio : string -> string -> Q.
Variable pdf : list LineBox.

Local Abbreviation sim := (similarity ratio).

(** One iteration: either a free PDF line above the threshold, the first of
    maximal ratio, is consumed, or nothing is. *)
Lemma align_line_spec used line used' lb oj :
  align_line ratio pdf used line = (used', (lb, oj)) →
  match oj with
  | Some j =>
      used' = {[ j ]} ∪ used ∧
      ∃ box, pdf !! j = Some box ∧
        lb = mkLineBox line (is_bold box) (is_italic box) ∧
        is_empty (strip line) = false ∧ (j ∉ used) ∧
        (threshold < sim line box)%Q ∧
        (∀ j' box', pdf !! j' = Some box' → j' ∉ used →
           (sim line box' <= sim line box)%Q ∧
           (j' < j → (sim line box' < sim line box)%Q))
  | None =>
      used' = used ∧ lb = plain line ∧
      (is_empty (strip line) = true ∨
       (∀ j' box', pdf !! j' = Some box' → j' ∉ used →
          (sim line box' <= threshold)%Q))
  end.
Proof.
  unfold align_line. destruct (is_empty (strip line)) eqn:Hblank.
  { intros [= <- <- <-]. auto. }
  pose proof (AlignFacts.scan_spec ratio pdf used line pdf 0 no_best eq_refl
                (AlignFacts.scan_inv_init ratio pdf used line)) as Hinv.
  set (b := scan ratio used line 0 pdf no_best) in *.
  destruct Hinv as [(H1 & H2 & H3 & H4) | (j & box & H1 & H2 & H3 & H4 & H5 & H6 & H7 & H8)].
  - rewrite H1. intros [= <- <- <-]. repeat split; auto. right.
    intros j' box' Hl Hu. apply lookup_lt_Some in Hl as Hlt.
    apply Qle_trans with 0%Q; [eauto | discriminate].
  - rewrite H1, H2, H3.
    destruct (Qlt_le_dec threshold (sim line box)) as [Hlt | Hle];
      intros [= <- <- <-].
    + split; [auto|]. exists box.
      split; [auto|]. split; [auto|]. split; [auto|]. split; [auto|].
      split; [auto|]. intros j' box' Hl Hu.
      apply lookup_lt_Some in Hl as Hj'. apply (H8 j' box'); auto.
    + repeat split; auto. right. intros j' box' Hl Hu.
      apply lookup_lt_Some in Hl as Hj'.
      apply Qle_trans with (sim line box); [| auto].
      apply (H8 j' box'); auto.
Qed.

Lemma free_at_shift used used' oj idx i j :
  (match oj with Some j0 => used' = {[ j0 ]} ∪ used | None => used' = used end) →
  free_at used (oj :: idx) (S i) j ↔ free_at used' idx i j.
Proof.
  intros Hu. unfold free_at. split.
  - intros [Hj Hi]. split.
    + destruct oj as [j0|]; subst used'; [| auto].
      specialize (Hi 0 ltac:(lia)). simpl in Hi. set_solver.
    + intros i' Hi'. apply (Hi (S i')). lia.
  - intros [Hj Hi]. split.
    + destruct oj as [j0|]; subst used'; set_solver.
    + intros [| i'] Hi'; simpl.
      * destruct oj as [j0|]; subst used'; [| discriminate].
        intros [= ->]. set_solver.
      * apply Hi. lia.
Qed.

(** The loop, from any set of used indices. *)
Lemma align_loop_spec ocr : ∀ used,
  let res := align_loop ratio pdf used ocr in
  map (λ r, text (fst r)) res = ocr ∧
  (∀ i line, ocr !! i = Some line → line_spec ratio pdf used res i line) ∧
  (∀ i i' j, map snd res !! i = Some (Some j) →
             map snd res !! i' = Some (Some j) → i = i') ∧
  (∀ i j, map snd res !! i = Some (Some j) → j ∉ used).
Proof.
  induction ocr as [| line rest IH]; intros used; simpl.
  { repeat split; intros; discriminate. }
  destruct (align_line ratio pdf used line) as [used' [lb oj]] eqn:Hline.
  apply align_line_spec in Hline as Hspec.
  destruct (IH used') as (IHtext & IHspec & IHinj & IHfresh). simpl.
  assert (Hused : match oj with
                  | Some j0 => used' = {[ j0 ]} ∪ used
                  | None => used' = used end)
    by (destruct oj; tauto).
  assert (Htext : text lb = line).
  { destruct oj as [j|].
    - destruct Hspec as (_ & box & _ & -> & _). reflexivity.
    - destruct Hspec as (_ & -> & _). reflexivity. }
  split; [now rewrite Htext, IHtext |].
  split; [| split].
  - intros [| i] ln Hln; simpl in Hln.
    + injection Hln as <-. unfold line_spec. simpl.
      destruct oj as [j|].
      * destruct Hspec as (_ & box & Hl & Hlb & Hnb & Hfree & Hthr & Hbest).
        exists box.
        split; [auto|]. split; [auto|]. split; [auto|].
        split; [split; [auto | intros; lia] |]. split; [auto|].
        intros j' box' Hl' Hfree'. apply (Hbest j' box'); auto. apply Hfree'.
      * destruct Hspec as (_ & Hlb & [Hb | Hall]); split; auto.
        right. intros j' box' Hl Hfree. apply (Hall j' box'); auto. apply Hfree.
    + specialize (IHspec i ln Hln). unfold line_spec in *. simpl.
      destruct (align_loop ratio pdf used' rest !! i) as [[lb' [j|]]|]; [| | auto].
      * destruct IHspec as (box & Hl & Hlb & Hnb & Hfree & Hthr & Hbest).
        exists box.
        split; [auto|]. split; [auto|]. split; [auto|].
        split; [apply (free_at_shift used used' oj); auto |]. split; [auto|].
        intros j' box' Hl' Hfree'. apply (Hbest j' box'); auto.
        apply (free_at_shift used used' oj); auto.
      * destruct IHspec as (Hlb & [Hb | Hall]); split; auto.
        right. intros j' box' Hl Hfree. apply (Hall j' box'); auto.
        apply (free_at_shift used used' oj); auto.
  - intros [| i] [| i'] j Hi Hi'; simpl in *; auto.
    + injection Hi as ->. apply IHfresh in Hi'. subst used'. set_solver.
    + injection Hi' as ->. apply IHfresh in Hi. subst used'. set_solver.
    + f_equal. eauto.
  - intros [| i] j Hi; simpl in *.
    + injection Hi as ->. destruct Hspec as (_ & box & _ & _ & _ & Hfree & _). auto.
    + apply IHfresh in Hi. destruct oj; subst used'; set_solver.
Qed.

End Loop.
End AlignLoop.


(* ===================================================================== *)
(** ** Strings                                                            *)
(* ===================================================================== *)

Module StrFacts.

Lemma chars_of_chars l : chars (of_chars l) = l.
Proof. apply list_ascii_of_string_of_list_ascii. Qed.

Lemma of_chars_chars s : of_chars (chars s) = s.
Proof. apply string_of_list_ascii_of_string. Qed.

Lemma chars_app a b : chars (a +:+ b) = chars a ++ chars b.
Proof. induction a as [| c a IH]; simpl; [reflexivity | now rewrite IH]. Qed.

Lemma chars_inj a b : chars a = chars b → a = b.
Proof. intros H. rewrite <- (of_chars_chars a), <- (of_chars_chars b). now rewrite H. Qed.

Lemma is_empty_chars s : is_empty s = match chars s with [] => true | _ => false end.
Proof. destruct s; reflexivity. Qed.

Lemma eqc_eq a b : eqc a b = true ↔ a = b.
Proof. apply Ascii.eqb_eq. Qed.

Lemma eqc_refl a : eqc a a = true.
Proof. apply Ascii.eqb_refl. Qed.

Section Strip.

Variable p : ascii -> bool.

Lemma lstrip_by_app_keep A c B :
  p c = false → lstrip_by p (A ++ c :: B) = lstrip_by p A ++ c :: B.
Proof.
  intros Hc. induction A as [| a A IH]; simpl.
  - now rewrite Hc.
  - destruct (p a); [exact IH | reflexivity].
Qed.

Lemma rstrip_by_app_keep A c B :
  p c = false → rstrip_by p (A ++ c :: B) = A ++ c :: rstrip_by p B.
Proof.
  intros Hc. unfold rstrip_by.
  rewrite rev_app_distr. simpl. rewrite <- app_assoc. simpl.
  rewrite lstrip_by_app_keep by exact Hc.
  rewrite rev_app_distr. simpl. rewrite rev_involutive, <- app_assoc. reflexivity.
Qed.

Lemma strip_by_app_keep A c B :
  p c = false → strip_by p (A ++ c :: B) = lstrip_by p A ++ c :: rstrip_by p B.
Proof.
  intros Hc. unfold strip_by.
  rewrite lstrip_by_app_keep by exact Hc. now apply rstrip_by_app_keep.
Qed.

Lemma lstrip_by_all l : forallb p l = true → lstrip_by p l = [].
Proof.
  induction l as [| a l IH]; simpl; [reflexivity |].
  intros [Ha Hl]%andb_prop. rewrite Ha. auto.
Qed.

Lemma forallb_rev l : forallb p (rev l) = forallb p l.
Proof.
  induction l as [| a l IH]; simpl; [reflexivity |].
  rewrite forallb_app, IH. simpl. rewrite andb_true_r. apply andb_comm.
Qed.

Lemma rstrip_by_all l : forallb p l = true → rstrip_by p l = [].
Proof.
  intros H. unfold rstrip_by. rewrite lstrip_by_all; [reflexivity |].
  now rewrite forallb_rev.
Qed.

(** A text is all strippable, or it has a first character that is kept. *)
Lemma first_kept l :
  forallb p l = true ∨
  ∃ A c B, l = A ++ c :: B ∧ forallb p A = true ∧ p c = false.
Proof.
  induction l as [| a l IH]; simpl; [now left |].
  destruct (p a) eqn:Ha.
  - destruct IH as [H | (A & c & B & -> & HA & Hc)]; [now left |].
    right. exists (a :: A), c, B. simpl. rewrite Ha. auto.
  - right. exists [], a, l. auto.
Qed.

Lemma lstrip_by_idem l : lstrip_by p (lstrip_by p l) = lstrip_by p l.
Proof.
  induction l as [| a l IH]; simpl; [reflexivity |].
  destruct (p a) eqn:Ha; [exact IH | simpl; now rewrite Ha].
Qed.

Lemma strip_by_lstrip l : strip_by p (lstrip_by p l) = strip_by p l.
Proof. unfold strip_by. now rewrite lstrip_by_idem. Qed.

Lemma strip_by_rstrip l : strip_by p (rstrip_by p l) = strip_by p l.
Proof.
  destruct (first_kept l) as [H | (A & c & B & -> & HA & Hc)].
  - rewrite rstrip_by_all by exact H. unfold strip_by.
    rewrite (lstrip_by_all l H). reflexivity.
  - rewrite rstrip_by_app_keep by exact Hc.
    rewrite !strip_by_app_keep by exact Hc. f_equal. f_equal.
    destruct (first_kept (rev B)) as [H | (A' & c' & B' & Hrev & HA' & Hc')].
    + rewrite (rstrip_by_all B) by (now rewrite <- forallb_rev). reflexivity.
    + assert (B = rev B' ++ c' :: rev A') as ->.
      { rewrite <- (rev_involutive B), Hrev, rev_app_distr. simpl.
        now rewrite <- app_assoc. }
      rewrite rstrip_by_app_keep by exact Hc'.
      rewrite rstrip_by_app_keep by exact Hc'.
      f_equal. f_equal.
      rewrite (rstrip_by_all (rev A')) by (now rewrite forallb_rev).
      reflexivity.
Qed.

(** A text whose first and last characters are kept is left as it is. *)
Lemma strip_by_ends a l z :
  p a = false → p z = false → strip_by p (a :: l ++ [z]) = a :: l ++ [z].
Proof.
  intros Ha Hz. change (a :: l ++ [z]) with ([] ++ a :: (l ++ [z])).
  rewrite strip_by_app_keep by exact Ha. simpl. f_equal.
  change (l ++ [z]) with (l ++ z :: []).
  now rewrite rstrip_by_app_keep by exact Hz.
Qed.

Lemma rstrip_by_snoc_drop l z :
  p z = true → rstrip_by p (l ++ [z]) = rstrip_by p l.
Proof.
  intros Hz. unfold rstrip_by. rewrite rev_app_distr. simpl. now rewrite Hz.
Qed.

Lemma rstrip_by_snoc_keep l z :
  p z = false → rstrip_by p (l ++ [z]) = l ++ [z].
Proof.
  intros Hz. unfold rstrip_by. rewrite rev_app_distr. simpl. rewrite Hz.
  simpl. now rewrite rev_involutive.
Qed.

End Strip.

(** Splitting at a character that occurs once. *)
Lemma split_on_no_sep c cur l :
  existsb (eqc c) l = false → split_on c cur l = [of_chars (rev cur ++ l)].
Proof.
  revert cur. induction l as [| a l IH]; intros cur; simpl.
  - now rewrite app_nil_r.
  - intros [Ha Hl]%orb_false_elim.
    assert (eqc a c = false) as ->.
    { destruct (eqc a c) eqn:E; [| reflexivity].
      apply eqc_eq in E as ->. now rewrite eqc_refl in Ha. }
    rewrite IH by exact Hl. simpl. now rewrite <- app_assoc.
Qed.

Lemma split_on_one_sep c cur A B :
  existsb (eqc c) A = false → existsb (eqc c) B = false →
  split_on c cur (A ++ c :: B) = [of_chars (rev cur ++ A); of_chars B].
Proof.
  revert cur. induction A as [| a A IH]; intros cur HA HB; simpl.
  - rewrite eqc_refl, app_nil_r. now rewrite split_on_no_sep by exact HB.
  - simpl in HA. apply orb_false_elim in HA as [Ha HA].
    assert (eqc a c = false) as ->.
    { destruct (eqc a c) eqn:E; [| reflexivity].
      apply eqc_eq in E as ->. now rewrite eqc_refl in Ha. }
    rewrite IH by assumption. simpl. now rewrite <- app_assoc.
Qed.

End StrFacts.

(* ===================================================================== *)
(** ** The numeric parsers                                                *)
(* ===================================================================== *)

Module ParseFacts.
Import StrFacts.

(** A decimal numeral: its characters. *)
Lemma isdigit_chars d :
  isdigit d = true → ∃ a l, chars d = a :: l ∧ forallb is_digit (a :: l) = true.
Proof.
  unfold isdigit, truthy. destruct d as [| a d]; simpl; [discriminate |].
  intros H. exists a, (chars d). auto.
Qed.

Lemma digit_not_space c : is_digit c = true → is_space c = false.
Proof.
  unfold is_digit, is_space, between. intros H.
  apply andb_prop in H as [H1%Nat.leb_le H2%Nat.leb_le].
  apply orb_false_intro; apply andb_false_iff.
  - right. apply Nat.leb_gt. lia.
  - right. apply Nat.leb_gt. lia.
Qed.

Lemma digit_neq c x : is_digit c = true → is_digit x = false → eqc x c = false.
Proof.
  intros Hc Hx. destruct (eqc x c) eqn:E; [| reflexivity].
  apply eqc_eq in E as ->. congruence.
Qed.

Lemma digits_no_char x l :
  is_digit x = false → forallb is_digit l = true → existsb (eqc x) l = false.
Proof.
  intros Hx. induction l as [| c l IH]; simpl; [reflexivity |].
  intros [Hc Hl]%andb_prop. rewrite (digit_neq c x Hc Hx). auto.
Qed.

Lemma rstrip_by_none p l :
  existsb p l = false → rstrip_by p l = l.
Proof.
  intros H. unfold rstrip_by.
  assert (Hr : existsb p (rev l) = false).
  { apply not_true_is_false. intros (x & Hin & Hx)%existsb_exists.
    apply in_rev in Hin.
    assert (existsb p l = true) by (apply existsb_exists; eauto). congruence. }
  destruct (rev l) as [| a t] eqn:E; simpl.
  - now rewrite <- (rev_involutive l), E.
  - simpl in Hr. apply orb_false_elim in Hr as [-> _].
    now rewrite <- E, rev_involutive.
Qed.

(** A numeral followed by [+]: nothing to strip at the ends, the [+] goes
    with [rstrip('+')] and the numeral remains. *)
Lemma strip_digits_plus d :
  isdigit d = true → strip (d +:+ "+") = d +:+ "+".
Proof.
  intros (a & l & Hd & Hdig)%isdigit_chars.
  unfold strip. rewrite chars_app, Hd. simpl in Hdig.
  apply andb_prop in Hdig as [Ha Hl].
  change ((a :: l) ++ chars "+") with (a :: l ++ ["+"%char]).
  rewrite strip_by_ends; [| now apply digit_not_space | reflexivity].
  apply chars_inj. rewrite chars_of_chars, chars_app, Hd. reflexivity.
Qed.

Lemma rstrip_plus_digits_plus d :
  isdigit d = true → rstrip_char plus_sign (d +:+ "+") = d.
Proof.
  intros (a & l & Hd & Hdig)%isdigit_chars.
  unfold rstrip_char. rewrite chars_app.
  change (chars "+") with ["+"%char].
  rewrite rstrip_by_snoc_drop by reflexivity.
  rewrite rstrip_by_none.
  - apply of_chars_chars.
  - rewrite Hd. now apply digits_no_char.
Qed.

Lemma rstrip_plus_digits d :
  isdigit d = true → rstrip_char plus_sign d = d.
Proof.
  intros (a & l & Hd & Hdig)%isdigit_chars.
  unfold rstrip_char. rewrite rstrip_by_none.
  - apply of_chars_chars.
  - rewrite Hd. now apply digits_no_char.
Qed.

Lemma has_char_digits_plus x d :
  is_digit x = false → x ≠ "+"%char → isdigit d = true →
  has_char x (d +:+ "+") = false.
Proof.
  intros Hx Hne (a & l & Hd & Hdig)%isdigit_chars.
  unfold has_char. rewrite chars_app, existsb_app, Hd.
  rewrite (digits_no_char x (a :: l) Hx Hdig). simpl.
  rewrite orb_false_r. destruct (eqc x "+") eqn:E; [| reflexivity].
  now apply eqc_eq in E.
Qed.

Lemma endswith_app_plus d : endswith (d +:+ "+") "+" = true.
Proof.
  unfold endswith. rewrite chars_app, rev_app_distr. reflexivity.
Qed.

Lemma str_eqb_false a b : a ≠ b → String.eqb a b = false.
Proof. intros H. now apply String.eqb_neq. Qed.

Lemma lower_last_plus d s :
  (∀ l, s ≠ of_chars (l ++ ["+"%char])) → lower (d +:+ "+") ≠ s.
Proof.
  intros Hs Heq. apply (Hs (map to_lower (chars d))).
  rewrite <- Heq. unfold lower. now rewrite chars_app, map_app.
Qed.

Lemma not_snoc_plus (s : string) (z : ascii) (l0 : list ascii) :
  chars s = l0 ++ [z] → z ≠ "+"%char → ∀ l, s ≠ of_chars (l ++ ["+"%char]).
Proof.
  intros Hs Hz l Heq. rewrite Heq, chars_of_chars in Hs.
  apply app_inj_tail in Hs as [_ Hs]. congruence.
Qed.

Lemma is_xx_digits_plus d : is_xx (d +:+ "+") = false.
Proof.
  unfold is_xx. apply orb_false_intro; apply str_eqb_false, lower_last_plus.
  - apply (not_snoc_plus "xx" "x" ["x"%char]); [reflexivity | discriminate].
  - apply (not_snoc_plus "x" "x" []); [reflexivity | discriminate].
Qed.

Lemma digits_plus_not_sentinel d :
  isdigit d = true →
  String.eqb (d +:+ "+") "++" = false ∧ String.eqb (d +:+ "+") "*" = false ∧
  is_empty (d +:+ "+") = false.
Proof.
  intros (a & l & Hd & Hdig)%isdigit_chars.
  simpl in Hdig. apply andb_prop in Hdig as [Ha Hl].
  assert (Hs : d = String a (of_chars l)).
  { apply chars_inj. rewrite Hd. simpl. now rewrite chars_of_chars. }
  subst d. simpl. repeat split.
  - destruct (Ascii.eqb a "+") eqn:E; [| reflexivity].
    apply Ascii.eqb_eq in E as ->. discriminate.
  - destruct (Ascii.eqb a "*") eqn:E; [| reflexivity].
    apply Ascii.eqb_eq in E as ->. discriminate.
Qed.

(** [parse_acc] on a numeral followed by [+]. *)
Lemma parse_acc_threshold d :
  isdigit d = true →
  parse_acc (d +:+ "+") = Some (AccOne (AInt (int_of_digits d))).
Proof.
  intros Hd. unfold parse_acc.
  rewrite (strip_digits_plus d Hd).
  destruct (digits_plus_not_sentinel d Hd) as (-> & -> & ->).
  rewrite is_xx_digits_plus.
  rewrite (has_char_digits_plus slash d) by (auto || discriminate).
  rewrite endswith_app_plus, (rstrip_plus_digits_plus d Hd), Hd. reflexivity.
Qed.

Lemma parse_acc_part_threshold d :
  isdigit d = true →
  parse_acc_part (d +:+ "+") = Some (AInt (int_of_digits d)).
Proof.
  intros Hd. unfold parse_acc_part.
  rewrite (strip_digits_plus d Hd).
  destruct (digits_plus_not_sentinel d Hd) as (-> & -> & _).
  rewrite is_xx_digits_plus, (rstrip_plus_digits_plus d Hd), Hd. reflexivity.
Qed.

(** The dice pattern needs an opening bracket. *)
Lemma dice_needs_bracket a l :
  a ≠ "["%char → Re.matches DICE_RE (of_chars (a :: l)) = false.
Proof.
  intros Ha. unfold Re.matches, Re.re_match, Re.match_at, Re.start_state.
  rewrite chars_of_chars.
  destruct (eqc "[" a) eqn:E; [apply eqc_eq in E; congruence |].
  cbn -[eqc]. now rewrite E.
Qed.

(** [parse_strength] on a numeral followed by [+]: the token itself. *)
Lemma parse_strength_threshold d :
  isdigit d = true →
  parse_strength (d +:+ "+") = Some (StrOne (AStr (d +:+ "+"))).
Proof.
  intros Hd. unfold parse_strength.
  destruct (digits_plus_not_sentinel d Hd) as (_ & _ & ->).
  rewrite (strip_digits_plus d Hd).
  destruct (isdigit_chars d Hd) as (a & l & Hc & Hdig).
  assert (Hs : d +:+ "+" = of_chars (a :: l ++ ["+"%char])).
  { apply chars_inj. now rewrite chars_of_chars, chars_app, Hc. }
  rewrite Hs at 1. rewrite dice_needs_bracket.
  - rewrite (has_char_digits_plus slash d) by (auto || discriminate).
    now rewrite endswith_app_plus.
  - simpl in Hdig. apply andb_prop in Hdig as [Ha _].
    intros ->. discriminate.
Qed.

End ParseFacts.

Module SlashFacts.
Import StrFacts ParseFacts.

Lemma eqc_slash_lower c : eqc slash (to_lower c) = eqc slash c.
Proof. destruct c as [[] [] [] [] [] [] [] []]; vm_compute; reflexivity. Qed.

Lemma has_char_slash_lower s : has_char slash (lower s) = has_char slash s.
Proof.
  unfold has_char, lower. rewrite chars_of_chars.
  induction (chars s) as [| c l IH]; cbn [map existsb]; [reflexivity |].
  now rewrite eqc_slash_lower, IH.
Qed.

Lemma is_xx_no_slash s : has_char slash s = true → is_xx s = false.
Proof.
  intros H. unfold is_xx.
  apply orb_false_intro; apply str_eqb_false; intros E;
    rewrite <- has_char_slash_lower, E in H; discriminate.
Qed.

Lemma slash_not_sentinel s :
  has_char slash s = true →
  String.eqb s "++" = false ∧ String.eqb s "*" = false ∧ is_empty s = false.
Proof.
  intros H. repeat split.
  - apply str_eqb_false. intros ->. discriminate.
  - apply str_eqb_false. intros ->. discriminate.
  - destruct s; [discriminate | reflexivity].
Qed.

Lemma existsb_lstrip (p q : ascii -> bool) (l : list ascii) :
  existsb p l = false → existsb p (lstrip_by q l) = false.
Proof.
  induction l as [| a l IH]; simpl; [auto |].
  intros [Ha Hl]%orb_false_elim. destruct (q a); [auto |].
  simpl. now rewrite Ha, Hl.
Qed.

Lemma existsb_rev (p : ascii -> bool) (l : list ascii) :
  existsb p (rev l) = existsb p l.
Proof.
  induction l as [| a l IH]; simpl; [reflexivity |].
  rewrite existsb_app, IH. simpl. rewrite orb_false_r. apply orb_comm.
Qed.

Lemma existsb_rstrip (p q : ascii -> bool) (l : list ascii) :
  existsb p l = false → existsb p (rstrip_by q l) = false.
Proof.
  intros H. unfold rstrip_by. rewrite existsb_rev.
  apply existsb_lstrip. now rewrite existsb_rev.
Qed.

(** Stripping a text with one slash strips the left end of the first part
    and the right end of the second. *)
Lemma strip_two_parts a b :
  chars (strip (a +:+ "/" +:+ b)) =
  lstrip_by is_space (chars a) ++ slash :: rstrip_by is_space (chars b).
Proof.
  unfold strip. rewrite chars_of_chars, !chars_app.
  change (chars "/" ++ chars b) with (slash :: chars b).
  now apply strip_by_app_keep.
Qed.

Lemma strip_of_lstrip a :
  strip (of_chars (lstrip_by is_space (chars a))) = strip a.
Proof. unfold strip. now rewrite chars_of_chars, strip_by_lstrip. Qed.

Lemma strip_of_rstrip b :
  strip (of_chars (rstrip_by is_space (chars b))) = strip b.
Proof. unfold strip. now rewrite chars_of_chars, strip_by_rstrip. Qed.

(** The parts [split('/')] yields for a text with one slash. *)
Lemma split_two_parts a b :
  has_char slash a = false → has_char slash b = false →
  split_char slash (strip (a +:+ "/" +:+ b)) =
  [of_chars (lstrip_by is_space (chars a));
   of_chars (rstrip_by is_space (chars b))].
Proof.
  intros Ha Hb. unfold split_char. rewrite strip_two_parts.
  rewrite split_on_one_sep; [reflexivity | |].
  - now apply existsb_lstrip.
  - now apply existsb_rstrip.
Qed.

Lemma has_slash_two_parts a b :
  has_char slash (strip (a +:+ "/" +:+ b)) = true.
Proof.
  unfold has_char. rewrite strip_two_parts, existsb_app. simpl.
  apply orb_true_r.
Qed.

(** A part is read after [strip()], so the blanks the outer [strip()]
    removed do not matter. *)
Lemma parse_acc_part_lstrip a :
  parse_acc_part (of_chars (lstrip_by is_space (chars a))) = parse_acc_part a.
Proof. unfold parse_acc_part. now rewrite strip_of_lstrip. Qed.

Lemma parse_acc_part_rstrip b :
  parse_acc_part (of_chars (rstrip_by is_space (chars b))) = parse_acc_part b.
Proof. unfold parse_acc_part. now rewrite strip_of_rstrip. Qed.

(** [parse_acc] on two parts joined by a slash. *)
Lemma parse_acc_two_parts a b :
  has_char slash a = false → has_char slash b = false →
  parse_acc (a +:+ "/" +:+ b) =
  match parse_acc_part a, parse_acc_part b with
  | Some x, Some y => Some (AccPair x y)
  | _, _ => None
  end.
Proof.
  intros Ha Hb. unfold parse_acc.
  pose proof (has_slash_two_parts a b) as Hs.
  destruct (slash_not_sentinel _ Hs) as (-> & -> & ->).
  rewrite (is_xx_no_slash _ Hs), Hs, (split_two_parts a b Ha Hb).
  simpl. rewrite parse_acc_part_lstrip, parse_acc_part_rstrip.
  destruct (parse_acc_part a), (parse_acc_part b); reflexivity.
Qed.

End SlashFacts.

Module ThresholdFacts.
Import StrFacts ParseFacts SlashFacts.

Lemma parse_strength_part_threshold d :
  isdigit d = true →
  parse_strength_part (d +:+ "+") = Some (AInt (int_of_digits d)).
Proof.
  intros Hd. unfold parse_strength_part.
  now rewrite (strip_digits_plus d Hd), (rstrip_plus_digits_plus d Hd), Hd.
Qed.

Lemma parse_strength_part_lstrip a :
  parse_strength_part (of_chars (lstrip_by is_space (chars a))) =
  parse_strength_part a.
Proof. unfold parse_strength_part. now rewrite strip_of_lstrip. Qed.

Lemma parse_strength_part_rstrip b :
  parse_strength_part (of_chars (rstrip_by is_space (chars b))) =
  parse_strength_part b.
Proof. unfold parse_strength_part. now rewrite strip_of_rstrip. Qed.

(** [parse_strength] on two numerals with [+], joined by a slash: both
    markers are stripped. *)
Lemma parse_strength_pair d e :
  isdigit d = true → isdigit e = true →
  parse_strength ((d +:+ "+") +:+ "/" +:+ (e +:+ "+")) =
  Some (StrPair (AInt (int_of_digits d)) (AInt (int_of_digits e))).
Proof.
  intros Hd He. unfold parse_strength.
  set (a := d +:+ "+"). set (b := e +:+ "+").
  pose proof (has_slash_two_parts a b) as Hs.
  assert (Ha : has_char slash a = false)
    by (apply has_char_digits_plus; auto; discriminate).
  assert (Hb : has_char slash b = false)
    by (apply has_char_digits_plus; auto; discriminate).
  assert (Hne : is_empty (a +:+ "/" +:+ b) = false).
  { destruct (isdigit_chars d Hd) as (x & l & Hc & _).
    rewrite is_empty_chars, !chars_app. unfold a.
    rewrite chars_app, Hc. reflexivity. }
  rewrite Hne.
  assert (Hdice : Re.matches DICE_RE (strip (a +:+ "/" +:+ b)) = false).
  { destruct (isdigit_chars d Hd) as (x & l & Hc & Hdig).
    rewrite <- (of_chars_chars (strip _)), strip_two_parts.
    unfold a at 1. rewrite chars_app, Hc. simpl in Hdig.
    apply andb_prop in Hdig as [Hx _]. simpl.
    rewrite (digit_not_space x Hx). simpl.
    apply dice_needs_bracket. intros ->. discriminate. }
  rewrite Hdice, Hs, (split_two_parts a b Ha Hb). simpl.
  rewrite parse_strength_part_lstrip, parse_strength_part_rstrip.
  unfold a, b.
  now rewrite (parse_strength_part_threshold d Hd),
              (parse_strength_part_threshold e He).
Qed.

End ThresholdFacts.






(* ===================================================================== *)
(** ** The weapon list                                                    *)
(* ===================================================================== *)

Module WeaponFacts.
Import StrFacts SlashFacts Card WeaponInv.

(** *** Text before the marker *)

Lemma split1_l_first (c : ascii) l : ∀ cur a b,
  split1_l [c] cur l = (a, b) →
  existsb (eqc c) cur = false → existsb (eqc c) a = false.
Proof.
  induction l as [| x l IH]; intros cur a b; simpl.
  - intros [= <- <-] H. now rewrite existsb_rev.
  - destruct (eqc c x) eqn:E; simpl.
    + intros [= <- <-] H. now rewrite existsb_rev.
    + intros Hs H. apply (IH (x :: cur) a b Hs). simpl. now rewrite E, H.
Qed.

Lemma split1_first_no_marker c s a b :
  split1 (String c "") s = (a, b) → has_char c a = false.
Proof.
  unfold split1. simpl.
  destruct (split1_l [c] [] (chars s)) as [x y] eqn:E.
  intros [= <- <-]. unfold has_char. rewrite chars_of_chars.
  now apply (split1_l_first c (chars s) [] x y E).
Qed.

Lemma has_char_strip c s : has_char c s = false → has_char c (strip s) = false.
Proof.
  unfold has_char, strip, strip_by. rewrite chars_of_chars. intros H.
  now apply existsb_rstrip, existsb_lstrip.
Qed.

Lemma startswith_has_char c s :
  startswith s (String c "") = true → has_char c s = true.
Proof.
  unfold startswith, has_char. simpl.
  destruct (chars s) as [| x l]; simpl; [discriminate |].
  rewrite andb_true_r. intros H. apply eqc_eq in H as ->.
  now rewrite eqc_refl.
Qed.

(** The base part of a combined name is not a variant name. *)
Lemma base_name_not_variant s a b :
  split1 ">" s = (a, b) → startswith (strip a) ">" = false.
Proof.
  intros H. apply (split1_first_no_marker ">"%char) in H.
  apply has_char_strip in H.
  destruct (startswith (strip a) ">") eqn:E; [| reflexivity].
  apply (startswith_has_char ">"%char) in E. congruence.
Qed.

(** *** Updates that keep the names *)

Lemma names_alter (f : Weapon nat → Weapon nat) i ws :
  (∀ w, w_name (f w) = w_name w) → names (alter f i ws) = names ws.
Proof.
  intros Hf. revert i. unfold names.
  induction ws as [| w ws IH]; intros [| i]; simpl; try reflexivity.
  - now rewrite Hf.
  - f_equal. apply IH.
Qed.

Lemma names_add_shot_type s i ws :
  names (alter (add_shot_type s) i ws) = names ws.
Proof. now apply names_alter. Qed.

Lemma names_drop_rules i ws : names (alter drop_rules i ws) = names ws.
Proof. now apply names_alter. Qed.

Lemma names_app ws w : names (ws ++ [w]) = names ws ++ [w_name w].
Proof. unfold names. now rewrite map_app. Qed.

Lemma names_resolve store ws :
  map w_name (map (resolve_weapon store) ws) = names ws.
Proof. unfold names. rewrite map_map. reflexivity. Qed.

(** *** The invariant: a variant name can only come first *)

Lemma variant_first_nil : variant_first [].
Proof. intros i n H. discriminate. Qed.

Lemma variant_first_snoc ns n :
  variant_first ns → (ns = [] ∨ startswith n ">" = false) →
  variant_first (ns ++ [n]).
Proof.
  intros Hns Hn i m Hi Hm.
  destruct (decide (i < length ns)) as [Hlt | Hge].
  - rewrite lookup_app_l in Hi by exact Hlt. eauto.
  - rewrite lookup_app_r in Hi by lia.
    destruct (i - length ns) as [| k] eqn:Ek; [| destruct k; discriminate].
    injection Hi as <-. destruct Hn as [-> | Hn]; [simpl in *; lia | congruence].
Qed.

Section Loop.

Variable lines : list string.
Variable line_boxes : list LineBox.
Variable descriptive_category : option string.

Lemma unnamed_title_names st t st' :
  unnamed_title lines descriptive_category st = (t, st') →
  names (weapons st') = names (weapons st) ∧ cursor st' = cursor st.
Proof.
  unfold unnamed_title.
  destruct (last (weapons st)) as [w |]; simpl.
  2:{ destruct (lookahead_title _ _); intros [= <- <-]; auto. }
  destruct (rules_truthy (store st) (w_specialRules w)) as [r |].
  2:{ simpl. destruct (lookahead_title _ _); intros [= <- <-]; auto. }
  destruct (last (rules_at (store st) r)) as [last_rule |].
  2:{ simpl. destruct (lookahead_title _ _); intros [= <- <-]; auto. }
  destruct (Re.matches Pat.WEAPON_NAME_RE last_rule).
  2:{ simpl. destruct (lookahead_title _ _); intros [= <- <-]; auto. }
  match goal with
  | |- context [String.eqb ?t UNNAMED] => destruct (String.eqb t UNNAMED)
  end.
  - destruct (lookahead_title _ _); intros [= <- <-]; simpl;
      (split; [| reflexivity]);
      destruct (removelast _); auto using names_drop_rules.
  - intros [= <- <-]; simpl. split; [| reflexivity].
    destruct (removelast _); auto using names_drop_rules.
Qed.

(** The first part of an iteration keeps the names, whatever it finds. *)
Lemma locate_names st ln :
  match locate lines line_boxes descriptive_category st ln with
  | LSkip st' => names (weapons st') = names (weapons st) ∧ cursor st < cursor st'
  | LBreak st' => names (weapons st') = names (weapons st)
  | LProfile _ _ st' =>
      names (weapons st') = names (weapons st) ∧ cursor st ≤ cursor st'
  end.
Proof.
  unfold locate.
  destruct (Re.re_match Pat.WEAPON_NAME_RE (cleaned_line ln)) as [wm |].
  - destruct (is_special_rule_line line_boxes (cursor st)); simpl; [auto |].
    destruct (clean_weapon_title _) as [t emb]. simpl.
    destruct (lines !! S (cursor st)); [| reflexivity].
    destruct (Re.re_match Pat.PROFILE_RE s); simpl; auto.
  - destruct (Re.found Pat.PROFILE_DETECT_RE ln); simpl; [| auto].
    destruct (Re.re_match Pat.PROFILE_RE ln); simpl; [| auto].
    destruct (unnamed_title lines descriptive_category st) as [t st'] eqn:E.
    apply unnamed_title_names in E as [-> ->]. auto.
Qed.

Lemma fold_combined_names title obj ws store ws' store' :
  fold_combined title obj ws store = (ws', store') →
  names ws' = names ws ∨
  ∃ first rest, split1 ">" title = (first, Some rest) ∧
                names ws' = names ws ++ [strip first].
Proof.
  unfold fold_combined.
  destruct (split1 ">" title) as [first [rest |]] eqn:Hs.
  2:{ intros [= <- <-]. now left. }
  destruct (last_index_where _ ws) as [i |].
  - destruct (make_shot_type store (strip rest) obj) as [s shot].
    intros [= <- <-]. left. apply names_add_shot_type.
  - destruct (make_shot_type store (strip rest) obj) as [s shot].
    intros [= <- <-]. right. exists first, rest. split; [reflexivity |].
    rewrite names_add_shot_type, names_app. reflexivity.
Qed.

(** Filing a weapon keeps the invariant. *)
Lemma file_weapon_variant_first title obj st :
  w_name obj = title →
  variant_first (names (weapons st)) →
  variant_first (names (weapons (file_weapon title obj st))).
Proof.
  intros Hname Hinv. unfold file_weapon.
  destruct (has_char ">" title && negb (startswith title ">")) eqn:Hc.
  - destruct (fold_combined title obj (weapons st) (store st)) as [ws' s'] eqn:E.
    simpl. apply fold_combined_names in E as [-> | (first & rest & Hs & ->)];
      [exact Hinv |].
    apply variant_first_snoc; [exact Hinv | right].
    now apply (base_name_not_variant title first (Some rest)).
  - destruct (startswith title ">" && negb (bool_decide (weapons st = []))) eqn:Hv.
    + destruct (find_base title (weapons st)); simpl; [| exact Hinv].
      destruct (make_shot_type _ _ _) as [s shot]. simpl.
      now rewrite names_add_shot_type.
    + simpl. rewrite names_app, Hname.
      apply variant_first_snoc; [exact Hinv |].
      destruct (startswith title ">"); [| now right].
      simpl in Hv. apply negb_false_iff, bool_decide_eq_true in Hv.
      left. now rewrite Hv.
Qed.

Lemma file_weapon_cursor title obj st :
  cursor st ≤ cursor (file_weapon title obj st).
Proof.
  unfold file_weapon.
  destruct (has_char ">" title && negb (startswith title ">")).
  - destruct (fold_combined _ _ _ _). simpl. lia.
  - destruct (startswith title ">" && negb (bool_decide (weapons st = []))).
    + destruct (find_base title (weapons st)); simpl; [| lia].
      destruct (make_shot_type _ _ _). simpl. lia.
    + simpl. lia.
Qed.

Lemma weapon_rules_cursor rest : ∀ c rules ammo c' rules' ammo',
  weapon_rules line_boxes c rest rules ammo = (c', rules', ammo') → c ≤ c'.
Proof.
  induction rest as [| line rest IH]; intros c rules ammo c' rules' ammo';
    cbn [weapon_rules].
  - intros [= <- <- <-]. lia.
  - destruct (is_weapon_line line_boxes line (Some c)).
    { intros [= <- <- <-]. lia. }
    destruct (Re.re_match Pat.AMMO_LINE (bare line)).
    { intros H. apply IH in H. lia. }
    destruct (truthy (bare line) && negb (Re.found Pat.PROFILE_DETECT_RE (bare line))).
    + destruct (startswith (bare line) ">" && Re.matches Pat.WEAPON_NAME_RE (bare line)).
      { intros [= <- <- <-]. lia. }
      intros H. apply IH in H. lia.
    + destruct (Re.found Pat.PROFILE_DETECT_RE (bare line)).
      { intros [= <- <- <-]. lia. }
      intros H. apply IH in H. lia.
Qed.

(** The second part of an iteration always continues, further down, and
    keeps the invariant. *)
Lemma process_spec title pm st :
  ∃ st', process lines line_boxes descriptive_category title pm st = Continue st' ∧
         cursor st < cursor st' ∧
         (variant_first (names (weapons st)) →
          variant_first (names (weapons st'))).
Proof.
  unfold process.
  destruct (weapon_rules line_boxes (S (cursor st)) _ _ None)
    as [[c rules] ammo] eqn:Hr.
  apply weapon_rules_cursor in Hr.
  destruct (parse_acc (grp pm 3)) as [accuracy |].
  2:{ eexists. split; [reflexivity |]. simpl. split; [lia | auto]. }
  match goal with
  | |- context [let '(t, r) := ?x in _] => destruct x as [t r]
  end.
  match goal with
  | |- context [let '(s, r) := ?x in _] => destruct x as [s ref]
  end.
  eexists. split; [reflexivity |]. split.
  - eapply Nat.lt_le_trans; [| apply file_weapon_cursor]. simpl. lia.
  - intros Hinv. now apply file_weapon_variant_first.
Qed.

Lemma step_spec st :
  match step lines line_boxes descriptive_category st with
  | Continue st' =>
      cursor st < cursor st' ∧ cursor st < length lines ∧
      (variant_first (names (weapons st)) → variant_first (names (weapons st')))
  | Break st' =>
      variant_first (names (weapons st)) → variant_first (names (weapons st'))
  end.
Proof.
  unfold step. destruct (lines !! cursor st) as [ln |] eqn:Hl; [| auto].
  apply lookup_lt_Some in Hl as Hlt.
  pose proof (locate_names st ln) as Hloc.
  destruct (locate lines line_boxes descriptive_category st ln) as [s | s | t pm s].
  - destruct Hloc as [Hn Hc]. rewrite Hn. auto.
  - rewrite Hloc. auto.
  - destruct Hloc as [Hn Hc].
    destruct (process_spec t pm s) as (st' & -> & Hc' & Hinv).
    rewrite <- Hn. split; [lia | auto].
Qed.

(** The loop keeps the invariant. *)
Lemma weapon_loop_variant_first fuel : ∀ st,
  variant_first (names (weapons st)) →
  variant_first
    (names (weapons (weapon_loop lines line_boxes descriptive_category fuel st))).
Proof.
  induction fuel as [| fuel IH]; intros st Hinv; simpl; [exact Hinv |].
  pose proof (step_spec st) as Hs.
  destruct (step lines line_boxes descriptive_category st) as [st' | st'].
  - apply IH. now apply Hs.
  - now apply Hs.
Qed.

(** The bound on the number of iterations is never what ends the loop:
    any two bounds above the number of lines left give the same result. *)
Lemma weapon_loop_fuel n : ∀ m st,
  length lines - cursor st < n → length lines - cursor st < m →
  weapon_loop lines line_boxes descriptive_category n st =
  weapon_loop lines line_boxes descriptive_category m st.
Proof.
  induction n as [| n IH]; intros m st Hn Hm; [lia |].
  destruct m as [| m]; [lia |]. simpl.
  pose proof (step_spec st) as Hs.
  destruct (step lines line_boxes descriptive_category st) as [st' | st'];
    [| reflexivity].
  destruct Hs as (Hc & Hlen & _). apply IH; lia.
Qed.

End Loop.
End WeaponFacts.

Module FoldFacts.
Import StrFacts WeaponFacts Card WeaponInv.

Lemma last_index_where_spec {A : Type} (q : A → bool) (l : list A) :
  match last_index_where q l with
  | Some i =>
      ∃ x, l !! i = Some x ∧ q x = true ∧
           ∀ j y, i < j → l !! j = Some y → q y = false
  | None => ∀ j y, l !! j = Some y → q y = false
  end.
Proof.
  induction l as [| x l IH]; simpl; [intros j y H; discriminate |].
  destruct (last_index_where q l) as [i |].
  - destruct IH as (y & Hy & Hq & Hlast). exists y. repeat split; auto.
    intros [| j] z Hj Hz; [lia |]. simpl in Hz. apply (Hlast j z); [lia | auto].
  - destruct (q x) eqn:Hx.
    + exists x. repeat split; auto.
      intros [| j] z Hj Hz; [lia |]. simpl in Hz. eauto.
    + intros [| j] z Hz; simpl in Hz; [congruence | eauto].
Qed.

Lemma make_shot_type_name store shot_name obj store' shot :
  make_shot_type store shot_name obj = (store', shot) → st_name shot = shot_name.
Proof.
  unfold make_shot_type. destruct (shot_rules _ _ _) as [s r].
  intros [= <- <-]. reflexivity.
Qed.

Lemma alter_snoc {A : Type} (f : A → A) (l : list A) (x : A) :
  alter f (length l) (l ++ [x]) = l ++ [f x].
Proof. induction l as [| a l IH]; simpl; [reflexivity | f_equal; exact IH]. Qed.

(** A variant that comes after a weapon: it becomes a shot type of the
    base weapon [find_base] finds, or it is dropped. *)
Lemma file_variant title obj st :
  startswith title ">" = true → weapons st ≠ [] →
  match find_base title (weapons st) with
  | Some i =>
      ∃ base shot,
        weapons st !! i = Some base ∧
        is_base_for (caliber_of title) base = true ∧
        (∀ j w, i < j → weapons st !! j = Some w →
                is_base_for (caliber_of title) w = false) ∧
        st_name shot = strip (suffix_from 1 title) ∧
        weapons (file_weapon title obj st) =
          alter (add_shot_type shot) i (weapons st)
  | None => weapons (file_weapon title obj st) = weapons st
  end.
Proof.
  intros Hv Hne. unfold file_weapon. rewrite Hv. simpl.
  rewrite andb_false_r, bool_decide_eq_false_2 by exact Hne. simpl.
  unfold find_base.
  pose proof (last_index_where_spec (is_base_for (caliber_of title)) (weapons st)) as Hs.
  destruct (last_index_where _ (weapons st)) as [i |]; [| reflexivity].
  destruct Hs as (base & Hb & Hq & Hlast).
  destruct (make_shot_type (store st) _ obj) as [s shot] eqn:E.
  exists base, shot. apply make_shot_type_name in E. simpl. auto.
Qed.

(** A combined name: the profile becomes a shot type of the base weapon,
    which is the last weapon of that name or a new weapon. *)
Lemma file_combined title obj st first rest :
  has_char ">" title = true → startswith title ">" = false →
  split1 ">" title = (first, Some rest) →
  ∃ shot, st_name shot = strip rest ∧
    match last_index_where (λ w, String.eqb (w_name w) (strip first))
                           (weapons st) with
    | Some i =>
        weapons (file_weapon title obj st) =
          alter (add_shot_type shot) i (weapons st)
    | None =>
        ∃ base, w_name base = strip first ∧ w_shotTypes base = None ∧
          weapons (file_weapon title obj st) =
            weapons st ++ [add_shot_type shot base]
    end.
Proof.
  intros Hc Hv Hs. unfold file_weapon. rewrite Hc, Hv. simpl.
  unfold fold_combined. rewrite Hs.
  destruct (make_shot_type (store st) (strip rest) obj) as [s shot] eqn:E.
  exists shot. split; [now apply make_shot_type_name in E |].
  destruct (last_index_where _ (weapons st)) as [i |]; simpl; [reflexivity |].
  eexists. split; [| split]; [| | now rewrite alter_snoc]; reflexivity.
Qed.

End FoldFacts.

Module ParseFacts2.
Import WeaponFacts Card WeaponInv.

(** The weapons of a parsed unit satisfy the invariant of the loop. *)
Lemma finish_variant_first nfkd hf lines boxes h sl ws :
  u_weapons (finish nfkd hf lines boxes h sl) = Some ws →
  variant_first (map w_name ws).
Proof.
  unfold finish.
  destruct (collect_rules _ _ _ _ _) as [[c sr] tr].
  match goal with
  | |- context [let '(a, b) := ?x in _] => destruct x as [sr' desc]
  end.
  destruct (description_block _ _ _ _) as [[c' sr''] desc'].
  simpl. unfold weapon_stage.
  set (st := weapon_loop _ _ _ _ _).
  assert (Hinv : variant_first (names (weapons st))).
  { apply weapon_loop_variant_first. apply variant_first_nil. }
  destruct (map (resolve_weapon (store st)) (weapons st)) as [| w l] eqn:E;
    [discriminate |].
  intros [= <-]. rewrite <- E, names_resolve. exact Hinv.
Qed.

Lemma parse_card_text_finish nfkd card_text line_boxes u :
  parse_card_text nfkd card_text line_boxes = Ok (Some u) →
  ∃ hf lines boxes h sl, u = finish nfkd hf lines boxes h sl.
Proof.
  unfold parse_card_text.
  destruct (read_input card_text line_boxes) as [lines boxes].
  destruct lines as [| l0 lines]; [discriminate |].
  destruct (find_header _) as [h |]; [| discriminate].
  destruct (stat_stage _ _ _) as [[sl |] | e]; simpl; try discriminate.
  intros [= <-]. eauto 10.
Qed.

End ParseFacts2.

(* ===================================================================== *)
(** ** Ammunition variants                                                *)
(* ===================================================================== *)

(** C3, counterexample.  A card whose first weapon line begins with the
    variant marker: there is no weapon yet to fold it under, the loop takes
    its last branch and appends it, and the unit comes out with the variant
    [> 82mm Frag] as its one top-level weapon, without shot types. *)
Lemma variant_first_line_counterexample :
  ∃ u w,
    Card.parse_card_text Slug.nfkd_fragment Samples.variant_first_card None
      = Ok (Some u) ∧
    Card.u_weapons u = Some [w] ∧
    Card.w_name w = "> 82mm Frag" ∧
    startswith (Card.w_name w) ">" = true ∧
    Card.w_shotTypes w = None.
Proof.
  eexists _, _. split; [vm_compute; reflexivity |].
  repeat split; reflexivity.
Qed.

(** C3.  Ammunition variants are folded under a parent weapon
    whenever the unit already has a weapon.  (1) The combined name
    [2K52 152mm Howitzer > 152mm HEAT] gives one top-level weapon,
    [2K52 152mm Howitzer], with the shot type [152mm HEAT].  (2) In every
    unit [parse_card_text] returns, a top-level weapon whose name begins
    with the marker can only be the first weapon of the list: a variant
    line is kept as a weapon only when it is parsed before any other
    weapon.  (3) A variant parsed when there are weapons becomes a shot
    type of the last weapon that is not a variant and has its calibre (any
    calibre when the variant names none), the other weapons unchanged;
    when there is no such weapon it is dropped.  (4) A combined name becomes
    a shot type of the last weapon that has the base name, or of a new
    weapon of that name put at the end. *)
Theorem ammunition_variants_folded :
  (∃ u w shot,
     Card.parse_card_text Slug.nfkd_fragment Samples.howitzer None
       = Ok (Some u) ∧
     Card.u_weapons u = Some [w] ∧
     Card.w_name w = "2K52 152mm Howitzer" ∧
     Card.w_shotTypes w = Some [shot] ∧
     Card.st_name shot = "152mm HEAT") ∧
  (∀ nfkd card_text line_boxes u ws i w,
     Card.parse_card_text nfkd card_text line_boxes = Ok (Some u) →
     Card.u_weapons u = Some ws → ws !! i = Some w →
     startswith (Card.w_name w) ">" = true → i = 0) ∧
  (∀ title obj st,
     startswith title ">" = true → Card.weapons st ≠ [] →
     match Card.find_base title (Card.weapons st) with
     | Some i =>
         ∃ base shot,
           Card.weapons st !! i = Some base ∧
           Card.is_base_for (Card.caliber_of title) base = true ∧
           (∀ j w, i < j → Card.weapons st !! j = Some w →
                   Card.is_base_for (Card.caliber_of title) w = false) ∧
           Card.st_name shot = strip (suffix_from 1 title) ∧
           Card.weapons (Card.file_weapon title obj st) =
             alter (Card.add_shot_type shot) i (Card.weapons st)
     | None =>
         Card.weapons (Card.file_weapon title obj st) = Card.weapons st
     end) ∧
  (∀ title obj st first rest,
     has_char ">" title = true → startswith title ">" = false →
     split1 ">" title = (first, Some rest) →
     ∃ shot, Card.st_name shot = strip rest ∧
       match Card.last_index_where
               (λ w, String.eqb (Card.w_name w) (strip first))
               (Card.weapons st) with
       | Some i =>
           Card.weapons (Card.file_weapon title obj st) =
             alter (Card.add_shot_type shot) i (Card.weapons st)
       | None =>
           ∃ base, Card.w_name base = strip first ∧
             Card.w_shotTypes base = None ∧
             Card.weapons (Card.file_weapon title obj st) =
               Card.weapons st ++ [Card.add_shot_type shot base]
       end).
Proof.
  split; [| split; [| split]].
  - eexists _, _, _. split; [vm_compute; reflexivity |].
    repeat split; reflexivity.
  - intros nfkd card_text line_boxes u ws i w Hp Hw Hi Hv.
    apply ParseFacts2.parse_card_text_finish in Hp
      as (hf & lines & boxes & h & sl & ->).
    apply ParseFacts2.finish_variant_first in Hw.
    apply (Hw i (Card.w_name w)); [| exact Hv].
    rewrite list_lookup_fmap, Hi. reflexivity.
  - intros title obj st. apply FoldFacts.file_variant.
  - intros title obj st first rest. apply FoldFacts.file_combined.
Qed.

Lemma ammunition_variants_folded_witness :
  ∃ u ws w,
    Card.parse_card_text Slug.nfkd_fragment Samples.variant_first_card None
      = Ok (Some u) ∧
    Card.u_weapons u = Some ws ∧ ws !! 0 = Some w ∧
    startswith (Card.w_name w) ">" = true ∧ 0 = 0.
Proof.
  eexists _, _, _. split; [vm_compute; reflexivity |].
  split; [reflexivity |]. split; [reflexivity |]. split; [reflexivity |].
  eapply (proj1 (proj2 ammunition_variants_folded)
            Slug.nfkd_fragment Samples.variant_first_card None);
    [vm_compute; reflexivity | reflexivity | reflexivity | reflexivity].
Defined.

(* ===================================================================== *)
(** ** The line corrector                                                 *)
(* ===================================================================== *)

(** C4.  The corrector is not idempotent.  [str.replace] does not look at
    the text it has already passed, and the two words of [a lnf lnf b]
    share their space: the first pass corrects the first word only, the
    second pass corrects the other one. *)
Theorem fix_ocr_errors_contextual_second_pass :
  let s := "a lnf lnf b" in
  Fix.fix_ocr_errors_contextual s = "a Inf lnf b" ∧
  Fix.fix_ocr_errors_contextual (Fix.fix_ocr_errors_contextual s)
    = "a Inf Inf b" ∧
  Fix.fix_ocr_errors_contextual (Fix.fix_ocr_errors_contextual s)
    ≠ Fix.fix_ocr_errors_contextual s.
Proof.
  cbv zeta. split; [vm_compute; reflexivity |].
  split; [vm_compute; reflexivity |].
  vm_compute. discriminate.
Qed.

(* ===================================================================== *)
(** ** The header                                                         *)
(* ===================================================================== *)

(** C6.  The two examples of the one-line header hold: [GRENADIERS - 120
    pts] gives the name and the integer 120, [RAIDERS - 0/20 pts] the
    string [0/20]; so do the forms with the dash and the points on the
    second line, and with [pts] on a line of its own.  The form in three
    lines (name, dash, points) does not: it searches the third line for
    digits before [pts] and converts them, and the split cost [0/20] comes
    out as the integer 20. *)
Theorem header_three_lines_split_cost :
  let run card :=
    Samples.name_and_points
      (Card.parse_card_text Slug.nfkd_fragment card None) in
  run Samples.grenadiers = Some ("GRENADIERS", Card.PInt 120) ∧
  run Samples.raiders_one_line = Some ("RAIDERS", Card.PStr "0/20") ∧
  run Samples.raiders_dash_pts = Some ("RAIDERS", Card.PStr "0/20") ∧
  run Samples.raiders_pts_next = Some ("RAIDERS", Card.PStr "0/20") ∧
  run Samples.raiders_three_lines = Some ("RAIDERS", Card.PInt 20).
Proof.
  cbv zeta. repeat split; try (vm_compute; reflexivity).
Qed.

(* ===================================================================== *)
(** ** The stat line                                                      *)
(* ===================================================================== *)

(** C7.  The line [Inf(S), M4\q, Q3, T1/1/1] matches the stat pattern,
    and a card with this stat line gives the unit class [Inf(S)], the
    movement 4, the quality 3 and the toughness with front, side and rear
    1, all integers.  A stat line with the one toughness [T2] gives the
    scalar 2; in general, a match whose front group is set and whose side
    or rear group is not gives a scalar, the front value. *)
Theorem stat_line_example :
  let run card :=
    Samples.class_and_stats
      (Card.parse_card_text Slug.nfkd_fragment card None) in
  Re.matches Pat.STAT_RE Samples.stat_triple = true ∧
  run Samples.grenadiers =
    Some ("Inf(S)",
          Card.mkStats 4 (AInt 3) None None None None
            (Some (Card.TDir (Some (AInt 1)) (Some (AInt 1)) (Some (AInt 1))))) ∧
  run Samples.interceptor =
    Some ("Air(CAP)",
          Card.mkStats 10 (AInt 3) None None None None
            (Some (Card.TOne (Some (AInt 2))))) ∧
  (∀ m tfront,
     Card.grp_truthy m 7 = Some tfront →
     Card.grp_truthy m 8 = None ∨ Card.grp_truthy m 9 = None →
     Card.toughness_of m = Some (Card.TOne (parse_toughness_value tfront))) ∧
  (∀ m tfront tside trear,
     Card.grp_truthy m 7 = Some tfront →
     Card.grp_truthy m 8 = Some tside → Card.grp_truthy m 9 = Some trear →
     Card.toughness_of m =
       Some (Card.TDir (parse_toughness_value tfront)
                       (parse_toughness_value tside)
                       (parse_toughness_value trear))).
Proof.
  cbv zeta. split; [vm_compute; reflexivity |].
  split; [vm_compute; reflexivity |].
  split; [vm_compute; reflexivity |]. split.
  - intros m tfront H7 H. unfold Card.toughness_of. rewrite H7.
    destruct H as [-> | ->]; [reflexivity |].
    destruct (Card.grp_truthy m 8); reflexivity.
  - intros m tfront tside trear H7 H8 H9. unfold Card.toughness_of.
    rewrite H7, H8, H9. reflexivity.
Qed.

Lemma stat_line_example_witness :
  ∃ m, Re.re_match Pat.STAT_RE Samples.stat_scalar = Some m ∧
       Card.toughness_of m = Some (Card.TOne (Some (AInt 2))).
Proof.
  eexists. split; [vm_compute; reflexivity |].
  rewrite (proj1 (proj2 (proj2 (proj2 stat_line_example))) _ "2");
    [reflexivity | vm_compute; reflexivity | left; vm_compute; reflexivity].
Defined.

(* ===================================================================== *)
(** ** Cards without header or stat line                                  *)
(* ===================================================================== *)

Module AnchorFacts.
Import Card.

(** No match in the window: the search for the stat line fails. *)
Lemma find_stat_none hf lines n : ∀ i,
  (∀ j, i ≤ j → j < i + n → stat_match_at hf lines j = None) →
  find_stat hf lines n i = None.
Proof.
  induction n as [| n IH]; intros i H; simpl; [reflexivity |].
  destruct (i <? length lines); [| reflexivity].
  rewrite (H i) by lia. apply IH. intros j Hij Hj. apply H; lia.
Qed.

Lemma find_stat_some hf lines n : ∀ i j m,
  find_stat hf lines n i = Some (j, m) →
  i ≤ j ∧ j < i + n ∧ stat_match_at hf lines j = Some m.
Proof.
  induction n as [| n IH]; intros i j m; simpl; [discriminate |].
  destruct (i <? length lines); [| discriminate].
  destruct (stat_match_at hf lines i) as [m' |] eqn:E.
  - intros [= <- <-]. repeat split; [lia | lia | exact E].
  - intros H. apply IH in H as (? & ? & ?). repeat split; [lia | lia | auto].
Qed.

End AnchorFacts.



(* ===================================================================== *)
(** ** A weapon whose accuracy cannot be parsed                           *)
(* ===================================================================== *)

Module SkipFacts.
Import Card WeaponInv WeaponFacts.

Section Loop.
Variable lines : list string.
Variable line_boxes : list LineBox.
Variable descriptive_category : option string.

Local Abbreviation process := (process lines line_boxes descriptive_category).
Local Abbreviation step := (step lines line_boxes descriptive_category).
Local Abbreviation locate := (locate lines line_boxes descriptive_category).

(** Without accuracy the second part of the iteration only moves the
    cursor. *)
Lemma process_unparsed title pm st :
  parse_acc (grp pm 3) = None →
  ∃ c, process title pm st = Continue (set_cursor c st) ∧ cursor st < c.
Proof.
  intros Ha. unfold Card.process.
  destruct (weapon_rules line_boxes (S (cursor st)) _ _ None)
    as [[c rules] ammo] eqn:Hr.
  apply weapon_rules_cursor in Hr. rewrite Ha.
  exists c. split; [reflexivity | lia].
Qed.

Lemma step_unparsed st ln title pm st1 :
  lines !! cursor st = Some ln →
  locate st ln = LProfile title pm st1 →
  parse_acc (grp pm 3) = None →
  ∃ c, step st = Continue (set_cursor c st1) ∧ cursor st < c ∧
       names (weapons (set_cursor c st1)) = names (weapons st).
Proof.
  intros Hl Hloc Ha. unfold Card.step. rewrite Hl.
  pose proof (locate_names lines line_boxes descriptive_category st ln) as Hn.
  rewrite Hloc in Hn |- *. destruct Hn as [Hn Hc].
  destruct (process_unparsed title pm st1 Ha) as (c & -> & Hlt).
  exists c. split; [reflexivity |]. split; [lia | exact Hn].
Qed.

End Loop.

(** Header and stat line found: there is a record. *)
Lemma parse_card_text_record nfkd card_text line_boxes h sl :
  let inp := read_input card_text line_boxes in
  let hf := has_formatting_of (snd inp) in
  let lines := preprocess hf (fst inp) in
  fst inp ≠ [] → find_header lines = Some h →
  stat_stage hf lines (header_idx h) = Ok (Some sl) →
  parse_card_text nfkd card_text line_boxes =
    Ok (Some (finish nfkd hf lines (snd inp) h sl)).
Proof.
  cbv zeta. unfold parse_card_text.
  destruct (read_input card_text line_boxes) as [lines0 boxes]. simpl.
  destruct lines0 as [| l0 lines0]; [congruence |].
  intros _ -> ->. reflexivity.
Qed.

End SkipFacts.



(* ===================================================================== *)
(** ** Identifiers                                                        *)
(* ===================================================================== *)

Module SlugFacts.
Import Re Slug StrFacts.

Lemma rep_loop_greedy body k n s :
  rep_loop body true k (S n) s =
  match body (λ s', if m_pos s <? m_pos s'
                    then rep_loop body true k n s' else None) s with
  | Some x => Some x
  | None => k s
  end.
Proof. reflexivity. Qed.

Lemma rmatch_cls q k s :
  rmatch (Cls q) k s =
  match m_rest s with
  | c :: t => if q c then k (advance c t s) else None
  | [] => None
  end.
Proof. reflexivity. Qed.

Lemma rmatch_cat r1 r2 k s :
  rmatch (Cat r1 r2) k s = rmatch r1 (rmatch r2 k) s.
Proof. reflexivity. Qed.

Lemma rmatch_rep greedy r k s :
  rmatch (Rep greedy r) k s =
  rep_loop (rmatch r) greedy k (S (length (m_rest s))) s.
Proof. reflexivity. Qed.

(** A greedy repetition of a class over a text made of that class takes
    the whole text. *)
Lemma rep_cls_all (q : ascii → bool) : ∀ t n s,
  m_rest s = t → forallb q t = true → length t < n →
  ∃ s', rep_loop (rmatch (Cls q)) true Some n s = Some s' ∧
        m_pos s' = m_pos s + length t.
Proof.
  induction t as [| c t IH]; intros n s Hr Hq Hn.
  - destruct n as [| n]; [simpl in Hn; lia |].
    rewrite rep_loop_greedy, rmatch_cls, Hr.
    exists s. split; [reflexivity | simpl; lia].
  - destruct n as [| n]; [simpl in Hn; lia |].
    simpl in Hq. apply andb_true_iff in Hq as [Hc Ht].
    rewrite rep_loop_greedy, rmatch_cls, Hr, Hc.
    replace (m_pos s <? m_pos (advance c t s)) with true
      by (symmetry; apply Nat.ltb_lt; simpl; lia).
    destruct (IH n (advance c t s)) as (s' & Hs' & Hp);
      [reflexivity | exact Ht | simpl in Hn; lia |].
    rewrite Hs'. exists s'. split; [reflexivity |].
    rewrite Hp. simpl. lia.
Qed.

Lemma skip_state_all : ∀ t s,
  m_rest s = t → m_rest (skip_state (length t) s) = [].
Proof.
  induction t as [| c t IH]; intros s Hr; simpl; [exact Hr |].
  rewrite Hr. apply IH. reflexivity.
Qed.

(** At the end of the text a pattern that needs a character finds
    nothing. *)
Lemma sub_from_end fuel tpl subject s :
  m_rest s = [] → sub_from fuel NON_SLUG tpl subject s = "".
Proof.
  intros Hr. destruct fuel as [| fuel]; simpl; rewrite Hr; [reflexivity |].
  cbn [length search_from]. unfold match_at, NON_SLUG, plus.
  cbn [rmatch]. rewrite Hr. reflexivity.
Qed.

Lemma search_from_hit n r subject s m :
  match_at r subject s = Some m → search_from n r subject s = Some m.
Proof. intros H. destruct n; simpl; rewrite H; reflexivity. Qed.

Lemma sub_from_S fuel r tpl subject s :
  sub_from (S fuel) r tpl subject s =
  match search_from (length (m_rest s)) r subject s with
  | None => of_chars (m_rest s)
  | Some m =>
      if mo_end m <=? m_pos s then of_chars (m_rest s)
      else slice (m_pos s) (mo_start m) subject +:+ expand tpl m +:+
           sub_from fuel r tpl subject (skip_state (mo_end m - m_pos s) s)
  end.
Proof. reflexivity. Qed.

(** A text without lower-case letters and digits becomes one hyphen. *)
Lemma re_sub_non_slug (l : list ascii) :
  l ≠ [] →
  forallb (λ c, negb (is_lower c || is_digit c)) l = true →
  re_sub NON_SLUG [TLit "-"] (of_chars l) = "-".
Proof.
  intros Hne Hq. destruct l as [| c t]; [congruence |].
  simpl in Hq. apply andb_true_iff in Hq as [Hc Ht].
  unfold re_sub, start_state. rewrite chars_of_chars.
  set (s0 := MState 0 None (c :: t) []).
  assert (Hm : ∃ m, match_at NON_SLUG (of_chars (c :: t)) s0 = Some m ∧
                    mo_start m = 0 ∧ mo_end m = length (c :: t)).
  { unfold match_at, NON_SLUG, plus.
    rewrite rmatch_cat, rmatch_cls. cbn [m_rest s0]. rewrite Hc, rmatch_rep.
    change (m_rest (advance c t s0)) with t.
    destruct (rep_cls_all (λ c, negb (is_lower c || is_digit c)) t
                (S (length t)) (advance c t s0))
      as (s' & Hs' & Hp); [reflexivity | exact Ht | lia |].
    rewrite Hs'. eexists. split; [reflexivity |].
    simpl. split; [reflexivity |]. rewrite Hp. reflexivity. }
  destruct Hm as (m & Hm & Hstart & Hend).
  rewrite sub_from_S, (search_from_hit _ _ _ _ m Hm), Hstart, Hend.
  cbn [m_pos s0].
  replace (length (c :: t) <=? 0) with false by reflexivity.
  rewrite Nat.sub_0_r, sub_from_end by (apply skip_state_all; reflexivity).
  reflexivity.
Qed.

(** No ASCII letter or digit in the decomposed name: the slug is empty. *)
Lemma slugify_no_alnum nfkd name :
  (∀ cp, In cp (nfkd name) → (cp < 128)%N →
         is_alnum (ascii_of_N cp) = false) →
  slugify nfkd name = "".
Proof.
  intros H. unfold slugify, encode_ascii_ignore, lower.
  rewrite chars_of_chars.
  match goal with |- context [map to_lower ?x] => set (l := x) end.
  assert (Hl : ∀ c, In c l → is_alnum c = false).
  { intros c Hc. apply in_map_iff in Hc as (cp & <- & Hcp).
    apply list_elem_of_In, list_elem_of_filter in Hcp as [Hlt Hin].
    apply H; [now apply list_elem_of_In |].
    apply N.ltb_lt, Is_true_eq_true, Hlt. }
  assert (Hlow : map to_lower l = l).
  { rewrite <- (map_id l) at 2. apply map_ext_in. intros c Hc.
    apply Hl in Hc. unfold is_alnum, is_alpha in Hc.
    apply orb_false_iff in Hc as [Hc _]. apply orb_false_iff in Hc as [Hu _].
    unfold to_lower. now rewrite Hu. }
  rewrite Hlow. destruct l as [| c t] eqn:El; [reflexivity |].
  rewrite re_sub_non_slug; [reflexivity | discriminate |].
  apply forallb_forall. intros x Hx. apply Hl in Hx.
  unfold is_alnum, is_alpha in Hx.
  apply orb_false_iff in Hx as [Hx Hd]. apply orb_false_iff in Hx as [_ Hlo].
  now rewrite Hlo, Hd.
Qed.

End SlugFacts.

Module DedupeFacts.
Import Card.

(** What the final pass keeps, for any set of identifiers already seen. *)
Lemma dedupe_units_spec : ∀ units seen,
  let out := dedupe_units seen units in
  Forall (λ u, u_id u ≠ "" ∧ u_id u ∉ seen) out ∧
  NoDup (map u_id out) ∧
  sublist out units ∧
  (∀ i u, units !! i = Some u → u_id u ≠ "" → u_id u ∉ seen →
          (∀ j v, j < i → units !! j = Some v → u_id v ≠ u_id u) →
          u ∈ out).
Proof.
  induction units as [| u rest IH]; intros seen; cbn zeta.
  - simpl. repeat split; [constructor | constructor | constructor |].
    intros i u H. discriminate.
  - simpl.
    destruct (IH seen) as (Hf1 & Hn1 & Hs1 & Hk1).
    destruct (IH ({[ u_id u ]} ∪ seen)) as (Hf2 & Hn2 & Hs2 & Hk2).
    destruct (is_empty (u_id u)) eqn:He; simpl.
    { repeat split; [exact Hf1 | exact Hn1 | now apply sublist_cons |].
      intros [| i] v Hv Hne Hseen Hfirst; simpl in Hv.
      - injection Hv as <-. destruct (u_id u); [congruence | discriminate].
      - apply (Hk1 i v Hv Hne Hseen). intros j w Hj Hw.
        apply (Hfirst (S j) w); [lia | exact Hw]. }
    destruct (bool_decide (u_id u ∈ seen)) eqn:Hd; simpl.
    { apply bool_decide_eq_true in Hd.
      repeat split; [exact Hf1 | exact Hn1 | now apply sublist_cons |].
      intros [| i] v Hv Hne Hseen Hfirst; simpl in Hv.
      - injection Hv as <-. contradiction.
      - apply (Hk1 i v Hv Hne Hseen). intros j w Hj Hw.
        apply (Hfirst (S j) w); [lia | exact Hw]. }
    apply bool_decide_eq_false in Hd.
    assert (Hne : u_id u ≠ "") by (destruct (u_id u); [discriminate | congruence]).
    repeat split.
    + constructor; [split; assumption |].
      eapply Forall_impl; [exact Hf2 |]. intros v [Hv1 Hv2].
      split; [exact Hv1 | set_solver].
    + simpl. apply NoDup_cons. split; [| exact Hn2].
      intros Hin. apply list_elem_of_fmap in Hin as (v & Hv & Hin).
      rewrite Forall_forall in Hf2. destruct (Hf2 v Hin) as [_ Hns].
      apply Hns. rewrite <- Hv. set_solver.
    + now apply sublist_skip.
    + intros [| i] v Hv Hnev Hseen Hfirst; simpl in Hv.
      * injection Hv as <-. apply elem_of_cons. now left.
      * apply elem_of_cons. right. apply (Hk2 i v Hv Hnev).
        -- intros Hin. apply elem_of_union in Hin as [Hin | Hin]; [| contradiction].
           apply elem_of_singleton in Hin.
           apply (Hfirst 0 u); [lia | reflexivity | now symmetry].
        -- intros j w Hj Hw. apply (Hfirst (S j) w); [lia | exact Hw].
Qed.

End DedupeFacts.

(** C10, counterexample.  The name made of the one letter U+00C9 (E with
    acute) has no ASCII letter or digit, but its compatibility decomposition
    is the letter E followed by the combining accent U+0301: the accent is
    dropped by the ASCII encoding, the letter stays, and the slug is [e].
    A card with this name is parsed into a unit of identifier [e], which
    the final pass keeps. *)
Lemma accented_name_counterexample :
  forallb (λ c, negb (is_alnum c)) (chars Samples.e_acute) = true ∧
  Slug.codepoints Samples.e_acute = [201%N] ∧
  Slug.slugify Slug.nfkd_fragment (Slug.codepoints Samples.e_acute) = "e" ∧
  (∃ u,
     Card.parse_card_text Slug.nfkd_fragment Samples.accented None
       = Ok (Some u) ∧
     Card.u_name u = Samples.e_acute ∧ Card.u_id u = "e") ∧
  (∃ u,
     Card.extract_units_from_qur_ocr Slug.nfkd_fragment
       [Card.mkCardInput (default "" Samples.accented) [] "Infantry"]
       = Ok [u] ∧
     Card.u_name u = Samples.e_acute ∧ Card.u_id u = "e").
Proof.
  split; [vm_compute; reflexivity |]. split; [vm_compute; reflexivity |].
  split; [vm_compute; reflexivity |]. split.
  - eexists. split; [vm_compute; reflexivity |]. split; reflexivity.
  - eexists. split; [vm_compute; reflexivity |]. split; reflexivity.
Qed.

(** C10.  For every compatibility decomposition [nfkd]:
    (1) a name whose decomposition has no ASCII letter or digit has the
    empty slug; (2) the final pass keeps the units whose identifier is not
    empty and was not seen before: in its output every identifier is
    non-empty, no identifier occurs twice, the units come in their input
    order, and a unit with a non-empty identifier that no earlier unit has
    is kept; (3) so every run of [extract_units_from_qur_ocr] that returns
    gives units with non-empty, pairwise distinct identifiers. *)
Theorem empty_slug_dropped_ids_distinct
  (nfkd : list Slug.codepoint → list Slug.codepoint) :
  (∀ name,
     (∀ cp, In cp (nfkd name) → (cp < 128)%N →
            is_alnum (ascii_of_N cp) = false) →
     Slug.slugify nfkd name = "") ∧
  (∀ units,
     let out := Card.dedupe_units ∅ units in
     Forall (λ u, Card.u_id u ≠ "") out ∧
     NoDup (map Card.u_id out) ∧
     sublist out units ∧
     (∀ i u, units !! i = Some u → Card.u_id u ≠ "" →
             (∀ j v, j < i → units !! j = Some v →
                     Card.u_id v ≠ Card.u_id u) →
             u ∈ out)) ∧
  (∀ cards out,
     Card.extract_units_from_qur_ocr nfkd cards = Ok out →
     Forall (λ u, Card.u_id u ≠ "") out ∧ NoDup (map Card.u_id out)).
Proof.
  split; [| split].
  - intros name. apply SlugFacts.slugify_no_alnum.
  - intros units. cbv zeta.
    destruct (DedupeFacts.dedupe_units_spec units ∅) as (Hf & Hn & Hs & Hk).
    repeat split; [| exact Hn | exact Hs |].
    + eapply Forall_impl; [exact Hf |]. intros u [Hu _]. exact Hu.
    + intros i u Hu Hne Hfirst. apply (Hk i u Hu Hne); [set_solver | exact Hfirst].
  - intros cards out. unfold Card.extract_units_from_qur_ocr.
    destruct (Card.collect_units nfkd cards) as [units | e]; simpl;
      [| discriminate].
    intros [= <-].
    destruct (DedupeFacts.dedupe_units_spec units ∅) as (Hf & Hn & _ & _).
    split; [| exact Hn].
    eapply Forall_impl; [exact Hf |]. intros u [Hu _]. exact Hu.
Qed.

Lemma empty_slug_dropped_ids_distinct_witness :
  Slug.slugify Slug.nfkd_fragment (Slug.codepoints "?!") = "".
Proof.
  apply (proj1 (empty_slug_dropped_ids_distinct Slug.nfkd_fragment)).
  intros cp Hin Hlt. simpl in Hin.
  destruct Hin as [<- | [<- | []]]; reflexivity.
Defined.

(* ===================================================================== *)
(** * Further properties of the extractor                                 *)
(* ===================================================================== *)

(* ===================================================================== *)
(** ** De-duplication of rules                                            *)
(* ===================================================================== *)

Module DedupeOrderFacts.
Import Helpers.

Lemma dedupe_loop_spec : ∀ items seen,
  NoDup (dedupe_loop seen items) ∧
  (∀ x, x ∈ dedupe_loop seen items ↔ x ∈ items ∧ x ∉ seen) ∧
  sublist (dedupe_loop seen items) items.
Proof.
  induction items as [| a items IH]; intros seen; simpl.
  - split; [constructor |]. split; [| constructor].
    intros x. split; [intros H; inversion H | intros [H _]; inversion H].
  - destruct (IH seen) as (Hn1 & He1 & Hs1).
    destruct (IH ({[ a ]} ∪ seen)) as (Hn2 & He2 & Hs2).
    destruct (bool_decide (a ∈ seen)) eqn:Hd.
    + apply bool_decide_eq_true in Hd.
      split; [exact Hn1 |]. split; [| now apply sublist_cons].
      intros x. rewrite He1, elem_of_cons. split; [tauto |].
      intros [[-> | H] Hx]; [contradiction | tauto].
    + apply bool_decide_eq_false in Hd.
      split; [| split; [| now apply sublist_skip]].
      * apply NoDup_cons. split; [| exact Hn2].
        rewrite He2. set_solver.
      * intros x. rewrite !elem_of_cons, He2. split.
        -- intros [-> | [H Hx]]; [tauto | set_solver].
        -- intros [[-> | H] Hx]; [now left |].
           destruct (decide (x = a)) as [-> | Hne]; [now left |].
           right. split; [exact H | set_solver].
Qed.

Lemma dedupe_loop_snoc : ∀ items seen x,
  dedupe_loop seen (items ++ [x]) =
  dedupe_loop seen items ++
    (if bool_decide (x ∈ seen ∨ x ∈ items) then [] else [x]).
Proof.
  induction items as [| a items IH]; intros seen x; simpl.
  - destruct (bool_decide (x ∈ seen)) eqn:Hd.
    + apply bool_decide_eq_true in Hd.
      rewrite bool_decide_eq_true_2 by now left. reflexivity.
    + apply bool_decide_eq_false in Hd.
      rewrite bool_decide_eq_false_2; [reflexivity |].
      intros [H | H]; [contradiction | inversion H].
  - destruct (bool_decide (a ∈ seen)) eqn:Hd.
    + apply bool_decide_eq_true in Hd. rewrite IH. f_equal.
      rewrite (bool_decide_ext (x ∈ seen ∨ x ∈ items)
                               (x ∈ seen ∨ x ∈ a :: items)); [reflexivity |].
      rewrite elem_of_cons. split; [tauto |].
      intros [H | [-> | H]]; tauto.
    + rewrite IH. simpl. f_equal. f_equal.
      rewrite (bool_decide_ext (x ∈ {[a]} ∪ seen ∨ x ∈ items)
                               (x ∈ seen ∨ x ∈ a :: items)); [reflexivity |].
      rewrite elem_of_cons. set_solver.
Qed.

Lemma dedupe_loop_nodup : ∀ items seen,
  NoDup items → (∀ x, x ∈ items → x ∉ seen) →
  dedupe_loop seen items = items.
Proof.
  induction items as [| a items IH]; intros seen Hn Hs; simpl; [reflexivity |].
  apply NoDup_cons in Hn as [Ha Hn].
  rewrite bool_decide_eq_false_2 by (apply Hs; now left).
  f_equal. apply IH; [exact Hn |].
  intros x Hx. assert (Hx' : x ∈ a :: items) by (apply elem_of_cons; now right).
  specialize (Hs x Hx').
  assert (x ≠ a) by (intros ->; contradiction). set_solver.
Qed.

End DedupeOrderFacts.

(** X1.  [dedupe_preserve_order] returns a list without duplicates that has
    exactly the items of its input and keeps them in the order of the
    input. *)
Theorem dedupe_preserve_order_set (items : list string) :
  let out := Helpers.dedupe_preserve_order items in
  NoDup out ∧ (∀ x, x ∈ out ↔ x ∈ items) ∧ sublist out items.
Proof.
  cbv zeta. unfold Helpers.dedupe_preserve_order.
  destruct (DedupeOrderFacts.dedupe_loop_spec items ∅) as (Hn & He & Hs).
  split; [exact Hn |]. split; [| exact Hs].
  intros x. rewrite He. set_solver.
Qed.

(** X2.  An item is kept at its first occurrence: adding an item at the end of
    the input adds it at the end of the output when it is new and changes
    nothing when it is not.  A list without duplicates is returned as it
    is, so a second pass changes nothing. *)
Theorem dedupe_preserve_order_first_occurrence (items : list string) :
  (∀ x, Helpers.dedupe_preserve_order (items ++ [x]) =
        Helpers.dedupe_preserve_order items ++
          (if bool_decide (x ∈ items) then [] else [x])) ∧
  (NoDup items → Helpers.dedupe_preserve_order items = items) ∧
  Helpers.dedupe_preserve_order (Helpers.dedupe_preserve_order items) =
    Helpers.dedupe_preserve_order items.
Proof.
  unfold Helpers.dedupe_preserve_order. split; [| split].
  - intros x. rewrite DedupeOrderFacts.dedupe_loop_snoc. f_equal.
    rewrite (bool_decide_ext (x ∈ (∅ : gset string) ∨ x ∈ items) (x ∈ items));
      [reflexivity | set_solver].
  - intros Hn. apply DedupeOrderFacts.dedupe_loop_nodup; [exact Hn | set_solver].
  - apply DedupeOrderFacts.dedupe_loop_nodup; [| set_solver].
    apply (DedupeOrderFacts.dedupe_loop_spec items ∅).
Qed.

Lemma dedupe_preserve_order_first_occurrence_witness :
  Helpers.dedupe_preserve_order ["Brave"; "Fearless"] = ["Brave"; "Fearless"].
Proof.
  apply (proj1 (proj2 (dedupe_preserve_order_first_occurrence
                         ["Brave"; "Fearless"]))).
  apply NoDup_cons. split; [set_solver |].
  apply NoDup_cons. split; [set_solver | constructor].
Defined.

(* ===================================================================== *)
(** ** Splitting a line of rules                                          *)
(* ===================================================================== *)

Module SplitFacts.
Import Helpers StrFacts Text.

Lemma strip_by_idem p l : strip_by p (strip_by p l) = strip_by p l.
Proof.
  unfold strip_by at 2. now rewrite strip_by_rstrip, strip_by_lstrip.
Qed.

Lemma strip_idem s : strip (strip s) = strip s.
Proof. unfold strip. now rewrite chars_of_chars, strip_by_idem. Qed.

Lemma flush_app cur rules : flush cur rules = rules ++ flush cur [].
Proof.
  unfold flush. destruct (truthy _); [reflexivity | now rewrite app_nil_r].
Qed.

Lemma flush_good (P : string → Prop) cur rules :
  (∀ s, truthy (strip s) = true → P (strip s)) →
  Forall P rules → Forall P (flush cur rules).
Proof.
  intros HP Hr. unfold flush.
  destruct (truthy (strip (of_chars (rev cur)))) eqn:E; [| exact Hr].
  apply Forall_app. split; [exact Hr |]. constructor; [| constructor].
  now apply HP.
Qed.

Lemma loop_good (P : string → Prop) :
  (∀ s, truthy (strip s) = true → P (strip s)) →
  ∀ l d cur rules, Forall P rules → Forall P (split_rules_loop l d cur rules).
Proof.
  intros HP. induction l as [| c l IH]; intros d cur rules Hr; simpl.
  - now apply flush_good.
  - destruct (eqc c "("); [now apply IH |].
    destruct (eqc c ")"); [now apply IH |].
    destruct (eqc c "," && (d =? 0)%Z); apply IH; [| exact Hr].
    now apply flush_good.
Qed.

Lemma loop_app : ∀ l d cur rules,
  split_rules_loop l d cur rules = rules ++ split_rules_loop l d cur [].
Proof.
  induction l as [| c l IH]; intros d cur rules; simpl.
  - apply flush_app.
  - destruct (eqc c "("); [apply IH |].
    destruct (eqc c ")"); [apply IH |].
    destruct (eqc c "," && (d =? 0)%Z); [| apply IH].
    rewrite IH, (IH _ _ (flush cur [])), (flush_app cur rules).
    now rewrite app_assoc.
Qed.

(** Without a comma that counts, the loop only collects characters. *)
Lemma loop_collect : ∀ l d cur rules,
  (d ≠ 0%Z ∨ existsb (eqc ",") l = false) →
  forallb (λ c, negb (eqc c "(" || eqc c ")")) l = true →
  ∀ rest, split_rules_loop (l ++ rest) d cur rules =
          split_rules_loop rest d (rev l ++ cur) rules.
Proof.
  induction l as [| c l IH]; intros d cur rules Hd Hp rest; [reflexivity |].
  cbn [forallb] in Hp. apply andb_true_iff in Hp as [Hc Hp].
  apply negb_true_iff, orb_false_iff in Hc as [Ho Hcl].
  cbn [app split_rules_loop]. rewrite Ho, Hcl.
  assert (eqc c "," && (d =? 0)%Z = false) as ->.
  { destruct Hd as [Hd | Hd].
    - apply andb_false_iff. right. now apply Z.eqb_neq.
    - cbn [existsb] in Hd. apply orb_false_iff in Hd as [Hd _].
      apply andb_false_iff. left.
      destruct (eqc c ",") eqn:E; [| reflexivity].
      apply eqc_eq in E as ->. now rewrite eqc_refl in Hd. }
  rewrite IH; [cbn [rev]; now rewrite <- app_assoc | | exact Hp].
  destruct Hd as [Hd | Hd]; [now left | right].
  cbn [existsb] in Hd. now apply orb_false_iff in Hd.
Qed.

Lemma no_comma_any_depth : ∀ l d cur rules,
  existsb (eqc ",") l = false →
  split_rules_loop l d cur rules = flush (rev l ++ cur) rules.
Proof.
  induction l as [| c l IH]; intros d cur rules Hc; [reflexivity |].
  cbn [existsb] in Hc. apply orb_false_iff in Hc as [Hc Hl].
  assert (eqc c "," = false) as E.
  { destruct (eqc c ",") eqn:E; [| reflexivity].
    apply eqc_eq in E as ->. now rewrite eqc_refl in Hc. }
  cbn [split_rules_loop rev]. rewrite E. cbn [andb].
  destruct (eqc c "("); [rewrite IH by exact Hl; now rewrite <- app_assoc |].
  destruct (eqc c ")"); rewrite IH by exact Hl; now rewrite <- app_assoc.
Qed.

Lemma flush_nil_spec l :
  flush (rev l) [] =
  if is_empty (strip (of_chars l)) then [] else [strip (of_chars l)].
Proof.
  unfold flush, truthy. rewrite rev_involutive.
  destruct (is_empty _); reflexivity.
Qed.

Lemma plain_split l :
  forallb is_plain l = true →
  forallb (λ c, negb (eqc c "(" || eqc c ")")) l = true ∧
  existsb (eqc ",") l = false.
Proof.
  induction l as [| c l IH]; cbn [forallb existsb]; [auto |].
  intros [Hc Hl]%andb_true_iff. destruct (IH Hl) as [H1 H2].
  unfold is_plain in Hc. apply negb_true_iff in Hc.
  apply orb_false_iff in Hc as [Hc Hcomma].
  rewrite Hc, H1, H2. cbn [negb andb]. split; [reflexivity |].
  rewrite orb_false_r.
  destruct (eqc "," c) eqn:E; [| reflexivity].
  apply eqc_eq in E as <-. now rewrite eqc_refl in Hcomma.
Qed.

Lemma loop_comma rest cur rules :
  split_rules_loop ("," :: rest)%char 0 cur rules =
  split_rules_loop rest 0 [] (flush cur rules).
Proof. reflexivity. Qed.

Lemma loop_open rest d cur rules :
  split_rules_loop ("(" :: rest)%char d cur rules =
  split_rules_loop rest (d + 1) ("("%char :: cur) rules.
Proof. reflexivity. Qed.

Lemma loop_close rest d cur rules :
  split_rules_loop (")" :: rest)%char d cur rules =
  split_rules_loop rest (d - 1) (")"%char :: cur) rules.
Proof. reflexivity. Qed.

(** A text with a character that is not a blank does not strip to the
    empty text. *)
Lemma strip_nonblank A c B :
  is_space c = false → is_empty (strip (of_chars (A ++ c :: B))) = false.
Proof.
  intros Hc. unfold strip.
  rewrite chars_of_chars, strip_by_app_keep by exact Hc.
  rewrite is_empty_chars, chars_of_chars.
  destruct (lstrip_by is_space A); reflexivity.
Qed.

Lemma eqc_sym a b : eqc a b = eqc b a.
Proof.
  destruct (eqc a b) eqn:E.
  - apply eqc_eq in E as ->. now rewrite eqc_refl.
  - destruct (eqc b a) eqn:E'; [| reflexivity].
    apply eqc_eq in E' as ->. now rewrite eqc_refl in E.
Qed.

Lemma no_parens l :
  existsb (eqc "(") l = false → existsb (eqc ")") l = false →
  forallb (λ c, negb (eqc c "(" || eqc c ")")) l = true.
Proof.
  induction l as [| c l IH]; cbn [existsb forallb]; [reflexivity |].
  intros [Ho Hl]%orb_false_iff [Hc Hl']%orb_false_iff.
  rewrite (eqc_sym c "("), (eqc_sym c ")"), Ho, Hc, IH by assumption.
  reflexivity.
Qed.

(** The whole line as one rule. *)
Lemma flush_whole l :
  (∃ A c B, l = A ++ c :: B ∧ is_space c = false) →
  flush (rev l) [] = [strip (of_chars l)].
Proof.
  intros (A & c & B & -> & Hc). rewrite flush_nil_spec.
  now rewrite strip_nonblank by exact Hc.
Qed.

End SplitFacts.

(** X3.  Every rule [split_rules_smart] returns is non-empty and has no blank
    at either end. *)
Theorem split_rules_smart_rules_stripped (line : string) :
  Forall (λ r, r ≠ "" ∧ strip r = r) (Helpers.split_rules_smart line).
Proof.
  unfold Helpers.split_rules_smart. apply SplitFacts.loop_good; [| constructor].
  intros s Hs. split; [| apply SplitFacts.strip_idem].
  intros E. rewrite E in Hs. discriminate.
Qed.

(** X4.  A line without comma is one rule, the stripped line, or no rule when
    the line is blank.  A comma that follows a text without parentheses
    and commas splits: the rules of the line are the rules of that text
    followed by the rules of the rest. *)
Theorem split_rules_smart_at_commas :
  (∀ line, has_char "," line = false →
     Helpers.split_rules_smart line =
       if is_empty (strip line) then [] else [strip line]) ∧
  (∀ a b, Text.all_plain a = true →
     Helpers.split_rules_smart (a +:+ "," +:+ b) =
       Helpers.split_rules_smart a ++ Helpers.split_rules_smart b).
Proof.
  unfold Helpers.split_rules_smart. split.
  - intros line Hc. rewrite SplitFacts.no_comma_any_depth by exact Hc.
    rewrite app_nil_r, SplitFacts.flush_nil_spec.
    now rewrite StrFacts.of_chars_chars.
  - intros a b Ha. apply SplitFacts.plain_split in Ha as [Hp Hc].
    rewrite StrFacts.chars_app.
    rewrite SplitFacts.loop_collect; [| now right | exact Hp].
    rewrite app_nil_r.
    change (chars ("," +:+ b)) with (","%char :: chars b).
    rewrite SplitFacts.loop_comma, SplitFacts.loop_app. f_equal.
    rewrite SplitFacts.no_comma_any_depth by exact Hc. now rewrite app_nil_r.
Qed.

Lemma split_rules_smart_at_commas_witness :
  Helpers.split_rules_smart ("Brave" +:+ "," +:+ " Indirect (1, 2)") =
  Helpers.split_rules_smart "Brave" ++ Helpers.split_rules_smart " Indirect (1, 2)".
Proof.
  apply (proj2 split_rules_smart_at_commas "Brave" " Indirect (1, 2)").
  reflexivity.
Defined.

(** X5.  A comma between a pair of parentheses does not split: a line made of
    a text without parentheses and commas, a parenthesised text and a rest
    without comma is one rule. *)
Theorem split_rules_smart_protected_commas (a inner rest : string) :
  Text.all_plain a = true →
  has_char "(" inner = false → has_char ")" inner = false →
  has_char "," rest = false →
  Helpers.split_rules_smart (a +:+ "(" +:+ inner +:+ ")" +:+ rest) =
    [strip (a +:+ "(" +:+ inner +:+ ")" +:+ rest)].
Proof.
  intros Ha Ho Hc Hr. apply SplitFacts.plain_split in Ha as [Hp Hcomma].
  unfold Helpers.split_rules_smart.
  rewrite <- (StrFacts.of_chars_chars (a +:+ "(" +:+ inner +:+ ")" +:+ rest))
    at 2.
  rewrite StrFacts.chars_app.
  change (chars ("(" +:+ inner +:+ ")" +:+ rest))
    with ("("%char :: chars (inner +:+ ")" +:+ rest)).
  rewrite StrFacts.chars_app.
  change (chars (")" +:+ rest)) with (")"%char :: chars rest).
  rewrite SplitFacts.loop_collect; [| now right | exact Hp].
  rewrite SplitFacts.loop_open.
  rewrite SplitFacts.loop_collect;
    [| left; discriminate | now apply SplitFacts.no_parens].
  rewrite SplitFacts.loop_close.
  rewrite SplitFacts.no_comma_any_depth by exact Hr.
  rewrite <- SplitFacts.flush_whole.
  - f_equal. repeat (first [rewrite rev_app_distr | progress cbn [rev app]]).
    rewrite <- ?app_assoc, ?app_nil_r. reflexivity.
  - exists (chars a), "("%char, (chars inner ++ ")"%char :: chars rest).
    split; reflexivity.
Qed.

Lemma split_rules_smart_protected_commas_witness :
  Helpers.split_rules_smart ("Indirect " +:+ "(" +:+ "1, 2" +:+ ")" +:+ " Heavy") =
    [strip ("Indirect " +:+ "(" +:+ "1, 2" +:+ ")" +:+ " Heavy")].
Proof.
  apply (split_rules_smart_protected_commas "Indirect " "1, 2" " Heavy");
    reflexivity.
Defined.

(** X6.  After a closing parenthesis that nothing opened the depth is negative
    and no comma splits any more, until a parenthesis opens: a line made of
    a text without parentheses and commas, a closing parenthesis and a rest
    without parentheses is one rule, whatever commas the rest has. *)
Theorem split_rules_smart_unmatched_close (a rest : string) :
  Text.all_plain a = true →
  has_char "(" rest = false → has_char ")" rest = false →
  Helpers.split_rules_smart (a +:+ ")" +:+ rest) =
    [strip (a +:+ ")" +:+ rest)].
Proof.
  intros Ha Ho Hc. apply SplitFacts.plain_split in Ha as [Hp Hcomma].
  unfold Helpers.split_rules_smart.
  rewrite <- (StrFacts.of_chars_chars (a +:+ ")" +:+ rest)) at 2.
  rewrite StrFacts.chars_app.
  change (chars (")" +:+ rest)) with (")"%char :: chars rest).
  rewrite SplitFacts.loop_collect; [| now right | exact Hp].
  rewrite SplitFacts.loop_close.
  rewrite <- (app_nil_r (chars rest)) at 1.
  rewrite SplitFacts.loop_collect;
    [| left; discriminate | now apply SplitFacts.no_parens].
  cbn [Helpers.split_rules_loop].
  rewrite <- SplitFacts.flush_whole.
  - f_equal. repeat (first [rewrite rev_app_distr | progress cbn [rev app]]).
    rewrite <- ?app_assoc, ?app_nil_r. reflexivity.
  - exists (chars a), ")"%char, (chars rest). split; reflexivity.
Qed.

Lemma split_rules_smart_unmatched_close_witness :
  Helpers.split_rules_smart ("Brave" +:+ ")" +:+ ", Fearless, Heavy") =
    ["Brave), Fearless, Heavy"].
Proof.
  apply (split_rules_smart_unmatched_close "Brave" ", Fearless, Heavy");
    reflexivity.
Defined.

(* ===================================================================== *)
(** ** Merging rule fragments                                             *)
(* ===================================================================== *)

Module MergeFacts.
Import Helpers StrFacts MergeInv.

Lemma append_assoc (a b c : string) : (a +:+ b) +:+ c = a +:+ (b +:+ c).
Proof. apply chars_inj. rewrite !chars_app. now rewrite app_assoc. Qed.

Lemma join_cons sep x y l :
  join sep (x :: y :: l) = x +:+ sep +:+ join sep (y :: l).
Proof. reflexivity. Qed.

(** Two neighbours joined by a blank count as the two of them. *)
Lemma join_sp : ∀ A x y B,
  join " " (A ++ sp x y :: B) = join " " (A ++ x :: y :: B).
Proof.
  induction A as [| a A IH]; intros x y B.
  - cbn [app]. rewrite join_cons. destruct B as [| b B].
    + reflexivity.
    + rewrite !join_cons. unfold sp. now rewrite !append_assoc.
  - cbn [app]. destruct A as [| a' A'].
    + cbn [app] in *. rewrite !join_cons. f_equal. f_equal. apply (IH x y B).
    + cbn [app] in *. rewrite !join_cons. f_equal. f_equal. apply (IH x y B).
Qed.

Lemma merge_loop_eq first rule rest merged :
  merge_loop first (rule :: rest) merged =
  let plain := merge_loop false rest (rule :: merged) in
  if negb first && Re.matches PAREN_ONLY rule then
    match merged with
    | last :: before => merge_loop false rest (sp last rule :: before)
    | [] => plain
    end
  else
    match rest with
    | next_rule :: rest2 =>
        if negb (endswith rule ")") &&
           (Re.matches CAP_WORD next_rule || Re.matches PAREN_ONLY next_rule)
        then
          match rest2 with
          | third :: rest3 =>
              if Re.matches PAREN_ONLY third
              then merge_loop false rest3 (sp (sp rule next_rule) third :: merged)
              else if Re.matches PAREN_ONLY next_rule
              then merge_loop false rest2 (sp rule next_rule :: merged)
              else plain
          | [] =>
              if Re.matches PAREN_ONLY next_rule
              then merge_loop false rest2 (sp rule next_rule :: merged)
              else plain
          end
        else plain
    | [] => plain
    end.
Proof. reflexivity. Qed.

Lemma kept_plain rule rest merged out :
  kept rest (rule :: merged) out → kept (rule :: rest) merged out.
Proof.
  intros (Hj & Hl & He). split; [| split].
  - rewrite Hj. cbn [rev]. now rewrite <- app_assoc.
  - simpl in *. lia.
  - intros E. destruct (He E) as [H _]. discriminate.
Qed.

Lemma kept_pair x y rest merged out :
  kept rest (sp x y :: merged) out → kept (x :: y :: rest) merged out.
Proof.
  intros (Hj & Hl & He). split; [| split].
  - rewrite Hj. cbn [rev]. rewrite <- app_assoc. cbn [app]. apply join_sp.
  - simpl in *. lia.
  - intros E. destruct (He E) as [H _]. discriminate.
Qed.

Lemma kept_last last rule rest before out :
  kept rest (sp last rule :: before) out →
  kept (rule :: rest) (last :: before) out.
Proof.
  intros (Hj & Hl & He). split; [| split].
  - rewrite Hj. cbn [rev]. rewrite <- !app_assoc. cbn [app]. apply join_sp.
  - simpl in *. lia.
  - intros E. destruct (He E) as [H _]. discriminate.
Qed.

Lemma merge_loop_kept : ∀ n rules first merged,
  length rules ≤ n → kept rules merged (merge_loop first rules merged).
Proof.
  induction n as [| n IH]; intros rules first merged Hn.
  - destruct rules; [| simpl in Hn; lia]. simpl.
    split; [now rewrite app_nil_r |]. split; [rewrite length_rev; lia |].
    intros E. split; [| reflexivity].
    apply (f_equal (@length string)) in E. rewrite length_rev in E.
    now destruct merged.
  - destruct rules as [| rule rest].
    { simpl. split; [now rewrite app_nil_r |].
      split; [rewrite length_rev; lia |].
      intros E. split; [| reflexivity].
      apply (f_equal (@length string)) in E. rewrite length_rev in E.
      now destruct merged. }
    simpl in Hn. rewrite merge_loop_eq. cbv zeta.
    assert (Hplain : kept (rule :: rest) merged
                       (merge_loop false rest (rule :: merged))).
    { apply kept_plain, IH. lia. }
    destruct (negb first && Re.matches PAREN_ONLY rule).
    { destruct merged as [| last before]; [exact Hplain |].
      apply kept_last, IH. lia. }
    destruct rest as [| next_rule rest2]; [exact Hplain |].
    destruct (negb (endswith rule ")") && _); [| exact Hplain].
    assert (Hpair : kept (rule :: next_rule :: rest2) merged
                      (merge_loop false rest2 (sp rule next_rule :: merged))).
    { apply kept_pair, IH. simpl in Hn. lia. }
    destruct rest2 as [| third rest3].
    { destruct (Re.matches PAREN_ONLY next_rule); assumption. }
    destruct (Re.matches PAREN_ONLY third).
    { apply kept_pair. apply kept_last, IH. simpl in Hn. lia. }
    destruct (Re.matches PAREN_ONLY next_rule); assumption.
Qed.

End MergeFacts.

(** X7.  Merging moves no text: the merged rules, joined by single blanks, read
    as the rules it was given joined by single blanks.  There are never
    more rules after merging than before, and rules are left only when
    there were some. *)
Theorem merge_fragmented_rules_keeps_text (rules : list string) :
  join " " (Helpers.merge_fragmented_rules rules) = join " " rules ∧
  length (Helpers.merge_fragmented_rules rules) ≤ length rules ∧
  (Helpers.merge_fragmented_rules rules = [] ↔ rules = []).
Proof.
  destruct (MergeFacts.merge_loop_kept (length rules) rules true [] (le_n _))
    as (Hj & Hl & He).
  unfold Helpers.merge_fragmented_rules.
  split; [exact Hj |]. split; [exact Hl |].
  split; [intros E; now destruct (He E) | intros ->; reflexivity].
Qed.

(* ===================================================================== *)
(** ** The lines and the boxes of a card                                  *)
(* ===================================================================== *)

Module InputFacts.
Import Card Helpers.

(** The boxes made from the lines of a text. *)
Lemma plain_boxes (lines : list string) :
  let boxes := map (λ ln, mkLineBox ln false false) lines in
  lines = map (λ lb, norm (text lb)) boxes ∧
  length lines = length boxes ∧
  has_formatting_of boxes = false ∧
  Forall (λ lb, is_bold lb = false ∧ is_italic lb = false) boxes.
Proof.
  cbv zeta. split; [| split; [| split]].
  - rewrite map_map. cbn [text]. unfold norm. exact (eq_sym (map_id lines)).
  - now rewrite length_map.
  - unfold has_formatting_of. apply not_true_is_false. intros E.
    apply existsb_exists in E as (lb & Hlb & Hi).
    apply in_map_iff in Hlb as (ln & <- & _). discriminate.
  - apply Forall_forall. intros lb Hlb.
    apply list_elem_of_fmap in Hlb as (ln & -> & _). now split.
Qed.

End InputFacts.

(** X8.  The lines [parse_card_text] works on and the boxes it keeps are
    aligned: line [i] is the normalised text of box [i].  No kept box is
    blank or matches the footer noise.  Without boxes, the boxes made from
    the text carry no formatting. *)
Theorem read_input_aligned (card_text : option string)
  (line_boxes : option (list LineBox)) :
  let lines := fst (Card.read_input card_text line_boxes) in
  let boxes := snd (Card.read_input card_text line_boxes) in
  lines = map (λ lb, Helpers.norm (text lb)) boxes ∧
  length lines = length boxes ∧
  Forall (λ lb, Card.nonblank (text lb) = true ∧
                Re.found Pat.FOOTER_NOISE_RE (text lb) = false) boxes ∧
  ((line_boxes = None ∨ line_boxes = Some []) →
   Card.has_formatting_of boxes = false ∧
   Forall (λ lb, is_bold lb = false ∧ is_italic lb = false) boxes).
Proof.
  cbv zeta. unfold Card.read_input.
  destruct line_boxes as [[| b bs] |].
  2:{ cbn [fst snd]. split; [reflexivity |]. split; [now rewrite length_map |].
      split; [| intros [H | H]; discriminate].
      apply Forall_forall. intros lb Hlb.
      apply list_elem_of_filter in Hlb as [Hp _].
      apply Is_true_eq_true in Hp. apply andb_true_iff in Hp as [H1 H2].
      split; [exact H1 | now apply negb_true_iff]. }
  all: cbn [fst snd];
    match goal with
    | |- context [map _ ?l] =>
        destruct (InputFacts.plain_boxes l) as (H1 & H2 & H3 & H4);
        split; [exact H1 |]; split; [exact H2 |]; split; [| now intros _]
    end;
    apply Forall_forall; intros lb Hlb;
    apply list_elem_of_fmap in Hlb as (ln & -> & Hln); cbn [text];
    apply list_elem_of_filter in Hln as [Hf Hln];
    apply list_elem_of_filter in Hln as [Hn _];
    (split; [now apply Is_true_eq_true in Hn |]);
    apply Is_true_eq_true in Hf; now apply negb_true_iff.
Qed.

(* ===================================================================== *)
(** ** Where the header and the stat line are                             *)
(* ===================================================================== *)

Module WindowFacts.
Import Card.

Lemma header_standard_idx : ∀ lines i h,
  header_standard i lines = Some h →
  i ≤ header_idx h ∧ header_idx h < i + length lines.
Proof.
  induction lines as [| l lines IH]; intros i h; simpl; [discriminate |].
  destruct (Re.re_match Pat.HEADER_RE l).
  - intros [= <-]. simpl. lia.
  - intros H. apply IH in H. lia.
Qed.

Lemma header_three_lines_idx : ∀ n lines i h,
  header_three_lines n i lines = Some h →
  i + 2 ≤ header_idx h ∧ header_idx h < i + 2 + n ∧
  header_idx h < i + length lines.
Proof.
  induction n as [| n IH]; intros lines i h; [destruct lines; discriminate |].
  destruct lines as [| l0 [| l1 [| l2 rest]]]; try discriminate.
  cbn [header_three_lines].
  intros H.
  assert (Hnext : header_three_lines n (S i) (l1 :: l2 :: rest) = Some h →
                  i + 2 ≤ header_idx h ∧ header_idx h < i + 2 + S n ∧
                  header_idx h < i + length (l0 :: l1 :: l2 :: rest)).
  { intros E. apply IH in E. simpl in *. lia. }
  destruct (String.eqb (strip l1) "-" && contains (lower l2) "pts");
    [| auto].
  destruct (Re.re_search Pat.PTS_SEARCH l2); [| auto].
  injection H as <-. simpl. lia.
Qed.

Lemma header_dash_pts_idx : ∀ n lines i prev h,
  header_dash_pts n i prev lines = Some h →
  i ≤ header_idx h ∧ header_idx h < i + n ∧
  S (header_idx h) < i + length lines.
Proof.
  induction n as [| n IH]; intros lines i prev h; [destruct lines; discriminate |].
  destruct lines as [| l0 [| l1 rest]]; try discriminate.
  cbn [header_dash_pts]. intros H.
  assert (Hnext : header_dash_pts n (S i) (Some l0) (l1 :: rest) = Some h →
                  i ≤ header_idx h ∧ header_idx h < i + S n ∧
                  S (header_idx h) < i + length (l0 :: l1 :: rest)).
  { intros E. apply IH in E. simpl in *. lia. }
  destruct (Re.re_match Pat.DASH_PTS l0); [| auto].
  destruct prev; [| auto].
  injection H as <-. simpl. lia.
Qed.

Lemma header_pts_next_idx : ∀ n lines i h,
  header_pts_next n i lines = Some h →
  S i ≤ header_idx h ∧ header_idx h < S i + n ∧
  header_idx h < i + length lines.
Proof.
  induction n as [| n IH]; intros lines i h; [destruct lines; discriminate |].
  destruct lines as [| l0 [| l1 rest]]; try discriminate.
  cbn [header_pts_next]. intros H.
  assert (Hnext : header_pts_next n (S i) (l1 :: rest) = Some h →
                  S i ≤ header_idx h ∧ header_idx h < S i + S n ∧
                  header_idx h < i + length (l0 :: l1 :: rest)).
  { intros E. apply IH in E. simpl in *. lia. }
  destruct (String.eqb (lower (strip l1)) "pts"); [| auto].
  destruct (Re.re_match Pat.NAME_DASH_NUM l0); [| auto].
  injection H as <-. simpl. lia.
Qed.

(** The stat line the search returns: the first index of the window with
    a match. *)
Lemma find_stat_first hf lines : ∀ n i j m,
  find_stat hf lines n i = Some (j, m) →
  i ≤ j ∧ j < i + n ∧ j < length lines ∧
  stat_match_at hf lines j = Some m ∧
  ∀ k, i ≤ k → k < j → stat_match_at hf lines k = None.
Proof.
  induction n as [| n IH]; intros i j m; simpl; [discriminate |].
  destruct (i <? length lines) eqn:Hlt; [| discriminate].
  apply Nat.ltb_lt in Hlt.
  destruct (stat_match_at hf lines i) as [m' |] eqn:E.
  - intros [= <- <-]. split; [lia |]. split; [lia |]. split; [lia |].
    split; [exact E |]. intros k Hk1 Hk2; lia.
  - intros H. apply IH in H as (H1 & H2 & H3 & H4 & H5).
    split; [lia |]. split; [lia |]. split; [lia |]. split; [exact H4 |].
    intros k Hk1 Hk2. destruct (decide (k = i)) as [-> | Hne]; [exact E |].
    apply H5; lia.
Qed.

End WindowFacts.

(** X9.  The header [find_header] returns is one of the first five lines of
    the card: its index is below 5 and below the number of lines. *)
Theorem find_header_within_first_lines (lines : list string) (h : Card.Header) :
  Card.find_header lines = Some h →
  Card.header_idx h < 5 ∧ Card.header_idx h < length lines.
Proof.
  unfold Card.find_header.
  destruct (Card.header_standard 0 (firstn 5 lines)) as [h' |] eqn:E1.
  { intros [= <-]. apply WindowFacts.header_standard_idx in E1.
    rewrite length_firstn in E1. lia. }
  destruct (Card.header_three_lines 3 0 lines) as [h' |] eqn:E2.
  { intros [= <-]. apply WindowFacts.header_three_lines_idx in E2. lia. }
  destruct (Card.header_dash_pts 4 0 None lines) as [h' |] eqn:E3.
  { intros [= <-]. apply WindowFacts.header_dash_pts_idx in E3. lia. }
  intros E4. apply WindowFacts.header_pts_next_idx in E4. lia.
Qed.

Lemma find_header_within_first_lines_witness :
  0 < 5 ∧ 0 < 2.
Proof.
  apply (find_header_within_first_lines
           ["GRENADIERS - 120 pts"; Samples.stat_triple]
           (Card.mkHeader "GRENADIERS" (Card.PInt 120) 0)).
  vm_compute. reflexivity.
Defined.

(** X10.  When the stat stage returns a stat line, it is the first line with a
    match among the nine lines that follow the header line, and a line of
    the card. *)
Theorem stat_line_within_window (has_formatting : bool) (lines : list string)
  (header_idx : nat) (sl : Card.StatLine) :
  Card.stat_stage has_formatting lines header_idx = Ok (Some sl) →
  header_idx < Card.stat_i sl ∧ Card.stat_i sl < header_idx + 10 ∧
  Card.stat_i sl < length lines ∧
  (∃ m, Card.stat_match_at has_formatting lines (Card.stat_i sl) = Some m) ∧
  (∀ k, header_idx < k → k < Card.stat_i sl →
        Card.stat_match_at has_formatting lines k = None).
Proof.
  unfold Card.stat_stage.
  destruct (Card.find_stat has_formatting lines 9 (S header_idx))
    as [[i m] |] eqn:E; [| discriminate].
  apply WindowFacts.find_stat_first in E as (H1 & H2 & H3 & H4 & H5).
  destruct (Card.build_stats m) as [stats | e]; simpl; [| discriminate].
  intros [= <-]. simpl. split; [lia |]. split; [lia |]. split; [lia |].
  split; [eauto |]. intros k Hk1 Hk2. apply H5; lia.
Qed.

Lemma stat_line_within_window_witness :
  ∃ sl, Card.stat_stage false ["GRENADIERS - 120 pts"; "Line Infantry";
                               Samples.stat_triple] 0 = Ok (Some sl) ∧
        0 < Card.stat_i sl ∧ Card.stat_i sl < 10.
Proof.
  eexists. split; [vm_compute; reflexivity |].
  edestruct (stat_line_within_window false
               ["GRENADIERS - 120 pts"; "Line Infantry"; Samples.stat_triple] 0)
    as (H1 & H2 & _); [vm_compute; reflexivity |].
  split; [exact H1 | exact H2].
Defined.

(* ===================================================================== *)
(** ** A movement that is not a number                                    *)
(* ===================================================================== *)

(** X11.  The stat pattern is matched without regard to case, so it accepts the
    lower-case letter [o] as movement; only the upper-case [O] and [0] are
    read as zero, and [int] raises on the letter.  When the stat line of a
    card has this movement, [parse_card_text] raises [ValueError]: it
    returns neither a record nor [None]. *)
Theorem lower_case_o_movement_raises nfkd card_text line_boxes h i m :
  let inp := Card.read_input card_text line_boxes in
  let hf := Card.has_formatting_of (snd inp) in
  let lines := Card.preprocess hf (fst inp) in
  Card.find_header lines = Some h →
  Card.find_stat hf lines 9 (S (Card.header_idx h)) = Some (i, m) →
  Card.grp m 5 = "o" →
  ∃ what, Card.parse_card_text nfkd card_text line_boxes
            = Exn (ValueError what).
Proof.
  cbv zeta. unfold Card.parse_card_text.
  destruct (Card.read_input card_text line_boxes) as [lines0 boxes].
  cbn [fst snd]. destruct lines0 as [| l0 lines0].
  { destruct (Card.has_formatting_of boxes); discriminate. }
  intros -> Hs Ho. unfold Card.stat_stage. rewrite Hs.
  unfold Card.build_stats. rewrite Ho. simpl. eauto.
Qed.

Lemma lower_case_o_movement_raises_witness :
  ∃ what, Card.parse_card_text Slug.nfkd_fragment Samples.lower_case_o None
            = Exn (ValueError what).
Proof.
  eapply (lower_case_o_movement_raises Slug.nfkd_fragment
            Samples.lower_case_o None);
    [vm_compute; reflexivity | vm_compute; reflexivity
    | vm_compute; reflexivity].
Defined.

(* ===================================================================== *)
(** ** The run over the cards                                             *)
(* ===================================================================== *)

Module RunFacts.
Import Card.

Lemma Forall_sublist {A : Type} (P : A → Prop) (l1 l2 : list A) :
  sublist l1 l2 → Forall P l2 → Forall P l1.
Proof.
  induction 1 as [| x l1 l2 Hs IH | x l1 l2 Hs IH]; intros Hf.
  - constructor.
  - apply Forall_cons in Hf as [Hx Hf]. constructor; auto.
  - apply Forall_cons in Hf as [_ Hf]. auto.
Qed.

Section Run.
Variable nfkd : list Slug.codepoint → list Slug.codepoint.

Local Abbreviation parse_card c :=
  (parse_card_text nfkd (Some (ci_text c)) (Some (ci_line_boxes c))).

(** An exception of one card is an exception of the run. *)
Lemma collect_units_raises : ∀ before c after e,
  is_empty (ci_text c) = false → parse_card c = Exn e →
  ∃ e', collect_units nfkd (before ++ c :: after) = Exn e'.
Proof.
  induction before as [| b before IH]; intros c after e Ht Hp.
  - cbn [app collect_units]. rewrite Ht, Hp. simpl. eauto.
  - cbn [app collect_units].
    destruct (IH c after e Ht Hp) as (e' & He').
    destruct (is_empty (ci_text b)); [eauto |].
    destruct (parse_card b) as [r | e0]; simpl; [| eauto].
    rewrite He'. simpl. eauto.
Qed.

Lemma collect_units_raises_first : ∀ before c after e,
  Forall (λ b, is_empty (ci_text b) = true ∨ ∃ r, parse_card b = Ok r) before →
  is_empty (ci_text c) = false → parse_card c = Exn e →
  collect_units nfkd (before ++ c :: after) = Exn e.
Proof.
  induction before as [| b before IH]; intros c after e Hb Ht Hp.
  - cbn [app collect_units]. rewrite Ht, Hp. reflexivity.
  - cbn [app collect_units]. apply Forall_cons in Hb as [Hb Hrest].
    rewrite (IH c after e Hrest Ht Hp).
    destruct Hb as [-> | [r ->]]; [reflexivity |].
    destruct (is_empty (ci_text b)); reflexivity.
Qed.

(** Where the collected units come from. *)
Lemma collect_units_from_cards : ∀ cards units,
  collect_units nfkd cards = Ok units →
  length units ≤ length cards ∧
  Forall (λ v, ∃ c u, c ∈ cards ∧ is_empty (ci_text c) = false ∧
                      parse_card c = Ok (Some u) ∧
                      v = with_category (ci_heading c) u) units.
Proof.
  induction cards as [| c cards IH]; intros units; cbn [collect_units].
  - intros [= <-]. split; [reflexivity | constructor].
  - assert (Hweak : ∀ us,
      Forall (λ v, ∃ c0 u, c0 ∈ cards ∧ is_empty (ci_text c0) = false ∧
                           parse_card c0 = Ok (Some u) ∧
                           v = with_category (ci_heading c0) u) us →
      Forall (λ v, ∃ c0 u, c0 ∈ c :: cards ∧ is_empty (ci_text c0) = false ∧
                           parse_card c0 = Ok (Some u) ∧
                           v = with_category (ci_heading c0) u) us).
    { intros us Hus. eapply Forall_impl; [exact Hus |].
      intros v (c0 & u & Hin & H).
      exists c0, u. split; [apply elem_of_cons; now right | exact H]. }
    destruct (is_empty (ci_text c)) eqn:Ht.
    { intros H. apply IH in H as [Hl Hf]. split; [simpl; lia | auto]. }
    destruct (parse_card c) as [r | e] eqn:Hp; simpl; [| discriminate].
    destruct (collect_units nfkd cards) as [us | e]; simpl; [| discriminate].
    destruct (IH us eq_refl) as [Hl Hf].
    destruct r as [u |]; intros [= <-].
    + split; [simpl; lia |]. constructor; [| auto].
      exists c, u. split; [apply elem_of_cons; now left | auto].
    + split; [simpl; lia | auto].
Qed.

End Run.
End RunFacts.

(** X12.  A card whose parse raises makes the whole run raise, wherever the card
    is: no unit of any card is returned.  When the cards before it parse
    without exception (or have no text), the run raises the exception of
    that card. *)
Theorem extraction_raises_with_one_card nfkd before c after e :
  is_empty (Card.ci_text c) = false →
  Card.parse_card_text nfkd (Some (Card.ci_text c))
                       (Some (Card.ci_line_boxes c)) = Exn e →
  (∃ e', Card.extract_units_from_qur_ocr nfkd (before ++ c :: after) = Exn e') ∧
  (Forall (λ b, is_empty (Card.ci_text b) = true ∨
                ∃ r, Card.parse_card_text nfkd (Some (Card.ci_text b))
                       (Some (Card.ci_line_boxes b)) = Ok r) before →
   Card.extract_units_from_qur_ocr nfkd (before ++ c :: after) = Exn e).
Proof.
  intros Ht Hp. unfold Card.extract_units_from_qur_ocr. split.
  - destruct (RunFacts.collect_units_raises nfkd before c after e Ht Hp)
      as (e' & ->). simpl. eauto.
  - intros Hb.
    now rewrite (RunFacts.collect_units_raises_first nfkd before c after e Hb Ht Hp).
Qed.

Lemma extraction_raises_with_one_card_witness :
  ∃ e', Card.extract_units_from_qur_ocr Slug.nfkd_fragment
          ([Card.mkCardInput (default "" Samples.grenadiers) [] "INFANTRY"] ++
           Card.mkCardInput (default "" Samples.lower_case_o) [] "INFANTRY" ::
           [Card.mkCardInput (default "" Samples.howitzer) [] "VEHICLES"])
        = Exn e'.
Proof.
  refine (proj1 (extraction_raises_with_one_card Slug.nfkd_fragment _ _ _
                   (ValueError "invalid literal for int()") _ _));
    [reflexivity | vm_compute; reflexivity].
Defined.

(** X13.  Every unit a run returns comes from a card with text that
    [parse_card_text] parsed into a record, and carries the category
    computed from the heading of that card; a run returns at most one unit
    per card. *)
Theorem extraction_units_come_from_cards nfkd cards out :
  Card.extract_units_from_qur_ocr nfkd cards = Ok out →
  length out ≤ length cards ∧
  Forall (λ v, ∃ c u,
            c ∈ cards ∧ is_empty (Card.ci_text c) = false ∧
            Card.parse_card_text nfkd (Some (Card.ci_text c))
                                 (Some (Card.ci_line_boxes c)) = Ok (Some u) ∧
            v = Card.with_category (Card.ci_heading c) u) out.
Proof.
  unfold Card.extract_units_from_qur_ocr.
  destruct (Card.collect_units nfkd cards) as [units | e] eqn:E; simpl;
    [| discriminate].
  intros [= <-].
  apply RunFacts.collect_units_from_cards in E as [Hl Hf].
  destruct (DedupeFacts.dedupe_units_spec units ∅) as (_ & _ & Hs & _).
  split.
  - apply sublist_length in Hs. lia.
  - eapply RunFacts.Forall_sublist; [exact Hs | exact Hf].
Qed.

Lemma extraction_units_come_from_cards_witness :
  ∃ out,
    Card.extract_units_from_qur_ocr Slug.nfkd_fragment
      [Card.mkCardInput (default "" Samples.grenadiers) [] "INFANTRY"]
      = Ok out ∧ length out ≤ 1.
Proof.
  eexists. split; [vm_compute; reflexivity |].
  refine (proj1 (extraction_units_come_from_cards Slug.nfkd_fragment
                   [Card.mkCardInput (default "" Samples.grenadiers) []
                                     "INFANTRY"] _ _)).
  vm_compute. reflexivity.
Defined.

(* ===================================================================== *)
(** ** The category of a unit                                             *)
(* ===================================================================== *)

Module CategoryFacts.
Import Card.

Lemma in_list_In s l : in_list s l = true → In s l.
Proof.
  unfold in_list. intros H. apply existsb_exists in H as (x & Hx & He).
  apply String.eqb_eq in He as ->. exact Hx.
Qed.

Lemma inferred_category_spec cls :
  In (inferred_category cls) VALID_CATEGORIES ∧
  (inferred_category cls = "Vehicles" → contains cls "Vec" = true) ∧
  (inferred_category cls = "Aircraft" → contains cls "Air" = true).
Proof.
  unfold inferred_category.
  destruct (contains cls "Inf").
  { split; [simpl; tauto |]. split; discriminate. }
  destruct (contains cls "Vec").
  { split; [simpl; tauto |]. split; [reflexivity | discriminate]. }
  destruct (contains cls "Air").
  { split; [simpl; tauto |]. split; [discriminate | reflexivity]. }
  split; [simpl; tauto |]. split; discriminate.
Qed.

Lemma categorise_spec heading cls :
  In (fst (categorise heading cls)) VALID_CATEGORIES ∧
  (fst (categorise heading cls) = "Vehicles" → contains cls "Vec" = true) ∧
  (fst (categorise heading cls) = "Aircraft" → contains cls "Air" = true).
Proof.
  unfold categorise.
  destruct (split_category_subcategory heading) as [[c |] sub];
    [| apply inferred_category_spec].
  destruct (truthy c && in_list c VALID_CATEGORIES) eqn:Hv;
    [| apply inferred_category_spec].
  apply andb_true_iff in Hv as [_ Hv]. apply in_list_In in Hv.
  match goal with
  | |- context [if ?b then _ else _] => destruct b eqn:Hk
  end; [| apply inferred_category_spec].
  cbn [fst]. split; [exact Hv |]. split; intros ->; cbn in Hk.
  - now rewrite !orb_false_r in Hk.
  - now rewrite ?orb_false_r in Hk.
Qed.

End CategoryFacts.

(** X14.  Every unit a run returns has a category, one of the seven valid ones;
    the category [Vehicles] is only given to a unit whose class contains
    [Vec] and the category [Aircraft] only to a unit whose class contains
    [Air], whatever the heading above the card says. *)
Theorem extracted_units_have_valid_category nfkd cards out :
  Card.extract_units_from_qur_ocr nfkd cards = Ok out →
  Forall (λ v, ∃ cat,
            Card.u_category v = Some cat ∧ In cat Card.VALID_CATEGORIES ∧
            (cat = "Vehicles" → contains (Card.u_unitClass v) "Vec" = true) ∧
            (cat = "Aircraft" → contains (Card.u_unitClass v) "Air" = true))
         out.
Proof.
  intros H.
  (* each unit is the categorised record of a card *)
  unfold Card.extract_units_from_qur_ocr in H.
  destruct (Card.collect_units nfkd cards) as [units | e] eqn:E; simpl in H;
    [| discriminate].
  injection H as <-.
  apply RunFacts.collect_units_from_cards in E as [_ Hf].
  destruct (DedupeFacts.dedupe_units_spec units ∅) as (_ & _ & Hs & _).
  eapply Forall_impl; [exact (RunFacts.Forall_sublist _ _ _ Hs Hf) |].
  intros v (c & u & _ & _ & _ & ->).
  unfold Card.with_category.
  pose proof (CategoryFacts.categorise_spec (Card.ci_heading c)
                (Card.u_unitClass u)) as Hc.
  destruct (Card.categorise (Card.ci_heading c) (Card.u_unitClass u))
    as [cat sub].
  exists cat. cbn [Card.u_category Card.u_unitClass fst] in *.
  split; [reflexivity | exact Hc].
Qed.

Lemma extracted_units_have_valid_category_witness :
  ∃ v cat,
    Card.extract_units_from_qur_ocr Slug.nfkd_fragment
      [Card.mkCardInput (default "" Samples.grenadiers) [] "VEHICLES - Tanks"]
      = Ok [v] ∧
    Card.u_category v = Some cat ∧ In cat Card.VALID_CATEGORIES.
Proof.
  destruct (Card.extract_units_from_qur_ocr _ _) as [out | e] eqn:E;
    [| vm_compute in E; discriminate].
  pose proof (extracted_units_have_valid_category _ _ _ E) as H.
  vm_compute in E. injection E as <-.
  apply Forall_cons in H as [(cat & Hc & Hin & _) _].
  eexists _, cat. split; [reflexivity |]. split; [exact Hc | exact Hin].
Defined.

(* ===================================================================== *)
(** ** Substitution with the patterns of one class                        *)
(* ===================================================================== *)

Module SubFacts.
Import Re StrFacts Subst SlugFacts.

Lemma at_pos_start subject : at_pos subject (start_state subject).
Proof. reflexivity. Qed.

Lemma skip_state_spec : ∀ k s,
  k ≤ length (m_rest s) →
  m_rest (skip_state k s) = skipn k (m_rest s) ∧
  m_pos (skip_state k s) = m_pos s + k.
Proof.
  induction k as [| k IH]; intros s Hk; simpl.
  - split; [reflexivity | lia].
  - destruct (m_rest s) as [| c t] eqn:E; [simpl in Hk; lia |].
    destruct (IH (advance c t s)) as [H1 H2]; [simpl in *; lia |].
    split; [exact H1 |]. rewrite H2. simpl. lia.
Qed.

Lemma at_pos_skip subject k s :
  at_pos subject s → k ≤ length (m_rest s) →
  at_pos subject (skip_state k s).
Proof.
  unfold at_pos. intros Hs Hk.
  destruct (skip_state_spec k s Hk) as [H1 H2].
  rewrite H1, H2, Hs, skipn_skipn. f_equal. lia.
Qed.

Lemma slice_prefix subject s A B :
  at_pos subject s → m_rest s = A ++ B →
  slice (m_pos s) (m_pos s + length A) subject = of_chars A.
Proof.
  unfold at_pos, slice. intros Hs Hr. rewrite <- Hs, Hr.
  replace (m_pos s + length A - m_pos s) with (length A) by lia.
  now rewrite firstn_app, Nat.sub_diag, firstn_all, app_nil_r.
Qed.

(** The greedy run of a class stops where the class stops. *)
Lemma rep_cls_run (q : ascii → bool) : ∀ l n s,
  m_rest s = l → length l < n →
  ∃ s', rep_loop (rmatch (Cls q)) true Some n s = Some s' ∧
        m_pos s' = m_pos s + run_length q l.
Proof.
  induction l as [| c l IH]; intros n s Hr Hn.
  - destruct n as [| n]; [simpl in Hn; lia |].
    rewrite rep_loop_greedy, rmatch_cls, Hr.
    exists s. split; [reflexivity | simpl; lia].
  - destruct n as [| n]; [simpl in Hn; lia |].
    rewrite rep_loop_greedy, rmatch_cls, Hr. cbn [run_length].
    destruct (q c) eqn:Hc.
    + replace (m_pos s <? m_pos (advance c l s)) with true
        by (symmetry; apply Nat.ltb_lt; simpl; lia).
      destruct (IH n (advance c l s)) as (s' & Hs' & Hp);
        [reflexivity | simpl in Hn; lia |].
      rewrite Hs'. exists s'. split; [reflexivity |].
      rewrite Hp. simpl. lia.
    + exists s. split; [reflexivity | lia].
Qed.

Section OneClass.

(** A pattern [r] that matches, at a character of [q], a text of
    [len] characters, and nothing elsewhere. *)
Variable r : regex.
Variable q : ascii → bool.
Variable len : list ascii → nat.

Hypothesis len_bounds : ∀ c l, q c = true →
  1 ≤ len (c :: l) ∧ len (c :: l) ≤ S (length l).

Hypothesis match_none : ∀ subject s,
  match m_rest s with c :: _ => q c = false | [] => True end →
  match_at r subject s = None.

Hypothesis match_some : ∀ subject s c l,
  m_rest s = c :: l → q c = true →
  ∃ caps, match_at r subject s =
          Some (MatchObj subject (m_pos s) (m_pos s + len (c :: l)) caps).

Lemma search_none subject : ∀ l fuel s,
  m_rest s = l → forallb (λ c, negb (q c)) l = true →
  search_from fuel r subject s = None.
Proof using match_none.
  induction l as [| c l IH]; intros fuel s Hr Hq.
  - destruct fuel; simpl; rewrite match_none by (now rewrite Hr);
      rewrite ?Hr; reflexivity.
  - cbn [forallb] in Hq. apply andb_true_iff in Hq as [Hc Hl].
    apply negb_true_iff in Hc.
    destruct fuel; simpl; rewrite match_none by (now rewrite Hr);
      rewrite ?Hr; [reflexivity |].
    apply IH; [reflexivity | exact Hl].
Qed.

Lemma search_skip subject : ∀ A fuel s c l,
  m_rest s = A ++ c :: l → forallb (λ c, negb (q c)) A = true →
  q c = true → length A ≤ fuel →
  search_from fuel r subject s =
  match_at r subject (skip_state (length A) s).
Proof using match_none match_some.
  induction A as [| a A IH]; intros fuel s c l Hr HA Hc Hf.
  - cbn [app] in Hr. destruct (match_some subject s c l Hr Hc) as (caps & Hm).
    cbn [length skip_state]. destruct fuel; simpl; rewrite Hm; reflexivity.
  - cbn [forallb] in HA. apply andb_true_iff in HA as [Ha HA].
    apply negb_true_iff in Ha.
    destruct fuel as [| fuel]; [simpl in Hf; lia |].
    cbn [search_from]. rewrite match_none by (now rewrite Hr).
    rewrite Hr. cbn [app length skip_state]. rewrite Hr. cbn [app].
    apply (IH fuel (advance a (A ++ c :: l) s) c l);
      [reflexivity | exact HA | exact Hc | simpl in Hf; lia].
Qed.

(** The replacement is a fixed text. *)
Variable tpl : list tpl_item.
Variable t : string.
Hypothesis expand_tpl : ∀ m, expand tpl m = t.

(** Nothing of [q] in what remains: the rest is copied. *)
Lemma sub_from_copy subject fuel s :
  forallb (λ c, negb (q c)) (m_rest s) = true →
  sub_from fuel r tpl subject s = of_chars (m_rest s).
Proof using match_none.
  intros Hq. destruct fuel; [reflexivity |].
  rewrite sub_from_S, (search_none subject (m_rest s)); auto.
Qed.

(** A first character of [q]: the text before it is copied, the match is
    replaced and the substitution goes on after the match. *)
Lemma sub_from_step subject fuel s A c l :
  at_pos subject s →
  m_rest s = A ++ c :: l → forallb (λ c, negb (q c)) A = true →
  q c = true →
  sub_from (S fuel) r tpl subject s =
  of_chars A +:+ t +:+
  sub_from fuel r tpl subject (skip_state (length A + len (c :: l)) s).
Proof using match_none match_some len_bounds expand_tpl.
  intros Hs Hr HA Hc.
  destruct (len_bounds c l Hc) as [Hlo Hhi].
  rewrite sub_from_S.
  rewrite (search_skip subject A (length (m_rest s)) s c l Hr HA Hc)
    by (rewrite Hr, length_app; lia).
  assert (HkA : length A ≤ length (m_rest s)) by (rewrite Hr, length_app; lia).
  destruct (skip_state_spec (length A) s HkA) as [H1 H2].
  assert (Hrest : m_rest (skip_state (length A) s) = c :: l).
  { rewrite H1, Hr, skipn_app, Nat.sub_diag, skipn_all. reflexivity. }
  destruct (match_some subject _ c l Hrest Hc) as (caps & ->).
  cbn [mo_start mo_end]. rewrite H2.
  replace (m_pos s + length A + len (c :: l) <=? m_pos s) with false
    by (symmetry; apply Nat.leb_gt; lia).
  rewrite (slice_prefix subject s A (c :: l) Hs Hr).
  replace (m_pos s + length A + len (c :: l) - m_pos s)
    with (length A + len (c :: l)) by lia.
  now rewrite expand_tpl.
Qed.

End OneClass.

Lemma of_chars_app a b : of_chars (a ++ b) = of_chars a +:+ of_chars b.
Proof. apply chars_inj. now rewrite chars_app, !chars_of_chars. Qed.

Lemma expand_lit t m : expand [TLit t] m = t.
Proof.
  cbn [expand fold_right expand_item]. apply chars_inj.
  rewrite chars_app. cbn [chars list_ascii_of_string]. now rewrite app_nil_r.
Qed.

(** A text starts with characters outside [q], up to its end or to a
    character of [q]. *)
Lemma first_of_class (q : ascii → bool) l :
  ∃ A rest, l = A ++ rest ∧ forallb (λ c, negb (q c)) A = true ∧
            (rest = [] ∨ ∃ c l', rest = c :: l' ∧ q c = true).
Proof.
  induction l as [| a l IH].
  - exists [], []. auto.
  - destruct (q a) eqn:Ha.
    + exists [], (a :: l). split; [reflexivity |]. split; [reflexivity |].
      right. eauto.
    + destruct IH as (A & rest & -> & HA & Hrest).
      exists (a :: A), rest. split; [reflexivity |]. split; [| exact Hrest].
      cbn [forallb]. now rewrite Ha, HA.
Qed.

Lemma run_length_le q l : run_length q l ≤ length l.
Proof.
  induction l as [| c l IH]; simpl; [lia |]. destruct (q c); simpl; lia.
Qed.

(** *** A run of a class *)

Lemma match_run_none q subject s :
  match m_rest s with c :: _ => q c = false | [] => True end →
  match_at (plus (Cls q)) subject s = None.
Proof.
  intros H. unfold match_at, plus. rewrite rmatch_cat, rmatch_cls.
  destruct (m_rest s) as [| c l]; [reflexivity |]. now rewrite H.
Qed.

Lemma match_run_some q subject s c l :
  m_rest s = c :: l → q c = true →
  ∃ caps, match_at (plus (Cls q)) subject s =
          Some (MatchObj subject (m_pos s)
                         (m_pos s + S (run_length q l)) caps).
Proof.
  intros Hr Hc. unfold match_at, plus.
  rewrite rmatch_cat, rmatch_cls, Hr, Hc, rmatch_rep.
  change (m_rest (advance c l s)) with l.
  destruct (rep_cls_run q l (S (length l)) (advance c l s))
    as (s' & -> & Hp); [reflexivity | lia |].
  exists (m_caps s'). f_equal. f_equal. rewrite Hp. simpl. lia.
Qed.

Lemma replace_runs_copy q t b A :
  forallb (λ c, negb (q c)) A = true → replace_runs q t b A = A.
Proof.
  revert b. induction A as [| a A IH]; intros b; cbn [forallb replace_runs];
    [reflexivity |].
  intros [Ha HA]%andb_true_iff. apply negb_true_iff in Ha.
  now rewrite Ha, IH.
Qed.

Lemma replace_runs_app q t b A l :
  forallb (λ c, negb (q c)) A = true → A ≠ [] ∨ b = false →
  replace_runs q t b (A ++ l) = A ++ replace_runs q t false l.
Proof.
  revert b. induction A as [| a A IH]; intros b HA Hb.
  - destruct Hb as [Hb | ->]; [congruence | reflexivity].
  - cbn [forallb] in HA. apply andb_true_iff in HA as [Ha HA].
    apply negb_true_iff in Ha. cbn [app replace_runs]. rewrite Ha.
    f_equal. apply IH; [exact HA | now right].
Qed.

Lemma replace_runs_skip q t : ∀ l,
  replace_runs q t true l =
  replace_runs q t false (skipn (run_length q l) l).
Proof.
  induction l as [| c l IH]; [reflexivity |].
  cbn [replace_runs run_length]. destruct (q c) eqn:Hc.
  - cbn [skipn app]. exact IH.
  - cbn [skipn replace_runs]. now rewrite Hc.
Qed.

Lemma sub_from_runs q t subject : ∀ n l fuel s,
  length l ≤ n → m_rest s = l → at_pos subject s → length l < fuel →
  sub_from fuel (plus (Cls q)) [TLit t] subject s =
  of_chars (replace_runs q (chars t) false l).
Proof.
  induction n as [| n IH]; intros l fuel s Hn Hr Hs Hf.
  - destruct l; [| simpl in Hn; lia].
    rewrite (sub_from_copy _ q (match_run_none q)); now rewrite Hr.
  - destruct (first_of_class q l) as (A & rest & -> & HA & [-> | Hrest]).
    + rewrite app_nil_r in *.
      rewrite (sub_from_copy _ q (match_run_none q)) by now rewrite Hr.
      now rewrite Hr, replace_runs_copy.
    + destruct Hrest as (c & l' & -> & Hc).
      destruct fuel as [| fuel]; [lia |].
      rewrite (sub_from_step _ q (λ x, match x with
                                       | _ :: y => S (run_length q y)
                                       | [] => 0 end)
                 (λ c0 l0 _, conj (le_n_S _ _ (Nat.le_0_l _))
                                  (le_n_S _ _ (run_length_le q l0)))
                 (match_run_none q) (match_run_some q)
                 [TLit t] t (expand_lit t) subject fuel s A c l' Hs Hr HA Hc).
      rewrite length_app in Hn, Hf. cbn [length] in Hn, Hf.
      pose proof (run_length_le q l') as Hle.
      assert (Hk : length A + S (run_length q l') ≤ length (m_rest s))
        by (rewrite Hr, length_app; simpl; lia).
      destruct (skip_state_spec _ s Hk) as [H1 H2].
      rewrite (IH (skipn (run_length q l') l')).
      * rewrite replace_runs_app by (exact HA || now right).
        cbn [replace_runs]. rewrite Hc. cbn [app].
        rewrite replace_runs_skip, !of_chars_app, of_chars_chars.
        reflexivity.
      * rewrite length_skipn. lia.
      * rewrite H1, Hr, skipn_app.
        replace (length A + S (run_length q l') - length A)
          with (S (run_length q l')) by lia.
        rewrite skipn_all2 by lia. reflexivity.
      * now apply at_pos_skip.
      * rewrite length_skipn. lia.
Qed.

(** [re.sub] with a run of a class as pattern and a fixed replacement. *)
Lemma re_sub_runs q t s :
  re_sub (plus (Cls q)) [TLit t] s =
  of_chars (replace_runs q (chars t) false (chars s)).
Proof.
  unfold re_sub.
  apply (sub_from_runs q t s (length (chars s)) (chars s));
    [lia | reflexivity | apply at_pos_start |].
  unfold len. rewrite <- (of_chars_chars s) at 2.
  assert (H : ∀ l, String.length (of_chars l) = length l)
    by (induction l; simpl; auto).
  rewrite H. lia.
Qed.

End SubFacts.

(* ===================================================================== *)
(** ** The shape of a slug                                                *)
(* ===================================================================== *)

Module StripShape.
Import StrFacts.

Section Shape.
Variable p : ascii → bool.

Lemma lstrip_suffix l : ∃ A, l = A ++ lstrip_by p l.
Proof.
  induction l as [| a l IH]; [now exists [] |].
  simpl. destruct (p a); [| now exists []].
  destruct IH as (A & HA). exists (a :: A). simpl. now f_equal.
Qed.

Lemma lstrip_head l :
  lstrip_by p l = [] ∨ ∃ a m, lstrip_by p l = a :: m ∧ p a = false.
Proof.
  induction l as [| a l IH]; [now left |].
  simpl. destruct (p a) eqn:Ha; [exact IH | right; eauto].
Qed.

Lemma rstrip_prefix l :
  ∃ B, l = rstrip_by p l ++ B ∧
       (rstrip_by p l = [] ∨ ∃ m z, rstrip_by p l = m ++ [z] ∧ p z = false).
Proof.
  unfold rstrip_by.
  destruct (lstrip_suffix (rev l)) as (A & HA).
  exists (rev A). split.
  - rewrite <- rev_app_distr, <- HA. now rewrite rev_involutive.
  - destruct (lstrip_head (rev l)) as [-> | (a & m & -> & Ha)]; [now left |].
    right. exists (rev m), a. split; [reflexivity | exact Ha].
Qed.

(** What is left of a text after stripping: a part of the text, that
    neither starts nor ends with a stripped character. *)
Lemma strip_by_shape l :
  (∃ A B, l = A ++ strip_by p l ++ B) ∧
  match strip_by p l with
  | [] => True
  | a :: _ => p a = false
  end ∧
  match rev (strip_by p l) with
  | [] => True
  | z :: _ => p z = false
  end.
Proof.
  unfold strip_by.
  destruct (lstrip_suffix l) as (A & HA).
  destruct (rstrip_prefix (lstrip_by p l)) as (B & HB & Hlast).
  split; [exists A, B; now rewrite <- HB |].
  assert (Hhead : match rstrip_by p (lstrip_by p l) with
                  | [] => True | a :: _ => p a = false end).
  { destruct (rstrip_by p (lstrip_by p l)) as [| a m] eqn:E; [exact I |].
    destruct (lstrip_head l) as [H0 | (a' & m' & H1 & Ha')].
    - rewrite H0 in HB. destruct B; discriminate.
    - rewrite H1 in HB. cbn [app] in HB. injection HB as <- _. exact Ha'. }
  split; [exact Hhead |].
  destruct Hlast as [-> | (m & z & -> & Hz)]; [exact I |].
  rewrite rev_app_distr. exact Hz.
Qed.

End Shape.
End StripShape.

Module SlugShape.
Import Re Slug StrFacts Subst SubFacts.

(** The class of [NON_SLUG]. *)
Local Abbreviation nonslug := (λ c : ascii, negb (is_lower c || is_digit c)).

Local Abbreviation dash := ("-"%char).

Lemma starts_l_cons a P x X :
  starts_l (a :: P) (x :: X) = eqc a x && starts_l P X.
Proof. reflexivity. Qed.

Lemma contains_l_app P X B :
  contains_l P (X ++ B) = false → contains_l P X = false.
Proof.
  assert (Hs : ∀ P X, starts_l P X = true → starts_l P (X ++ B) = true).
  { induction P0 as [| a P0 IH]; intros X0; [reflexivity |].
    destruct X0 as [| x X0]; [discriminate |]. simpl.
    intros [H1 H2]%andb_true_iff. rewrite H1. now apply IH. }
  induction X as [| x X IH]; intros H.
  - destruct P as [| a P]; [| reflexivity].
    destruct B; simpl in H; discriminate.
  - cbn [app contains_l] in *. apply orb_false_iff in H as [H1 H2].
    rewrite IH by exact H2. rewrite orb_false_r.
    destruct (starts_l P (x :: X)) eqn:E; [| reflexivity].
    apply Hs in E. cbn [app] in E. congruence.
Qed.

Lemma contains_l_suffix P A X :
  contains_l P (A ++ X) = false → contains_l P X = false.
Proof.
  induction A as [| a A IH]; [auto |].
  cbn [app contains_l]. intros [_ H]%orb_false_iff. auto.
Qed.

Section Runs.

(** A class [q] and a character [d] of it, which replaces the runs. *)
Variable q : ascii → bool.
Variable d : ascii.
Hypothesis q_d : q d = true.

(** The text with its runs replaced: characters outside the class and
    the replacement character, never twice in a row. *)
Lemma replace_runs_shape : ∀ l,
  (∀ b c, In c (replace_runs q [d] b l) → (q c = false ∧ In c l) ∨ c = d) ∧
  (∀ b, contains_l [d; d] (replace_runs q [d] b l) = false) ∧
  starts_l [d] (replace_runs q [d] true l) = false.
Proof using q_d.
  induction l as [| c l (IH1 & IH2 & IH3)]; [repeat split; auto; intros ? ? [] |].
  assert (Hweak : ∀ b x, In x (replace_runs q [d] b l) →
                         (q x = false ∧ In x (c :: l)) ∨ x = d).
  { intros b x Hx. destruct (IH1 b x Hx) as [[H1 H2] | H]; [left | now right].
    split; [exact H1 | now right]. }
  cbn [replace_runs]. destruct (q c) eqn:Hc.
  - split; [| split].
    + intros [|] x Hx; cbn [app] in Hx; [eauto |].
      destruct Hx as [<- | Hx]; [now right | eauto].
    + intros [|]; cbn [app]; [apply IH2 |].
      cbn [contains_l]. rewrite IH2, orb_false_r.
      rewrite starts_l_cons, IH3. apply andb_false_r.
    + cbn [app]. exact IH3.
  - assert (Hd : eqc d c = false).
    { destruct (eqc d c) eqn:E; [| reflexivity].
      apply eqc_eq in E as <-. congruence. }
    split; [| split].
    + intros b x [<- | Hx]; [left; split; [exact Hc | now left] | eauto].
    + intros b. cbn [contains_l]. now rewrite starts_l_cons, Hd, IH2.
    + now rewrite starts_l_cons, Hd.
Qed.

End Runs.

End SlugShape.

(** X15.  A slug is made of lower-case letters, digits and hyphens; it neither
    starts nor ends with a hyphen and has no two hyphens in a row.  This
    holds for every name and every normaliser. *)
Theorem slugify_shape (nfkd : list Slug.codepoint → list Slug.codepoint)
  (name : list Slug.codepoint) :
  let slug := Slug.slugify nfkd name in
  (∀ c, In c (chars slug) →
        is_lower c = true ∨ is_digit c = true ∨ c = "-"%char) ∧
  startswith slug "-" = false ∧
  endswith slug "-" = false ∧
  contains slug "--" = false.
Proof.
  cbv zeta. unfold Slug.slugify, Slug.NON_SLUG.
  rewrite SubFacts.re_sub_runs. unfold strip_char.
  rewrite StrFacts.chars_of_chars.
  set (l := chars (lower _)).
  destruct (SlugShape.replace_runs_shape
              (λ c, negb (is_lower c || is_digit c)) "-"%char eq_refl l)
    as (H1 & H2 & _).
  specialize (H1 false). specialize (H2 false).
  change (chars "-") with ["-"%char] in *.
  set (R := Subst.replace_runs _ _ false l) in *.
  destruct (StripShape.strip_by_shape (eqc "-") R) as ((A & B & HR) & Hh & Hl).
  unfold startswith, endswith, contains. rewrite !StrFacts.chars_of_chars.
  split; [| split; [| split]].
  - intros c Hc.
    assert (Hin : In c R).
    { rewrite HR. apply in_or_app. right. apply in_or_app. now left. }
    destruct (H1 c Hin) as [[Hq _] | ->]; [| now right; right].
    apply negb_false_iff, orb_true_iff in Hq. tauto.
  - destruct (strip_by (eqc "-") R) as [| a m]; [reflexivity |].
    cbn [chars list_ascii_of_string starts_l]. now rewrite Hh.
  - cbn [chars list_ascii_of_string rev app].
    destruct (rev (strip_by (eqc "-") R)) as [| z m]; [reflexivity |].
    cbn [starts_l]. now rewrite Hl.
  - rewrite HR in H2. apply SlugShape.contains_l_suffix in H2.
    now apply SlugShape.contains_l_app in H2.
Qed.

(* ===================================================================== *)
(** ** The key the aligner compares                                       *)
(* ===================================================================== *)

Module KeyFacts.
Import Re StrFacts Subst SubFacts SlugFacts.

(** *** One character of a class *)

Lemma match_each_none q subject s :
  match m_rest s with c :: _ => q c = false | [] => True end →
  match_at (Cls q) subject s = None.
Proof.
  intros H. unfold match_at. rewrite rmatch_cls.
  destruct (m_rest s) as [| c l]; [reflexivity |]. now rewrite H.
Qed.

Lemma match_each_some q subject s c l :
  m_rest s = c :: l → q c = true →
  ∃ caps, match_at (Cls q) subject s =
          Some (MatchObj subject (m_pos s) (m_pos s + 1) caps).
Proof.
  intros Hr Hc. unfold match_at. rewrite rmatch_cls, Hr, Hc.
  exists (m_caps s). cbn [advance m_pos m_caps]. f_equal. f_equal. lia.
Qed.

Lemma replace_each_copy q A :
  forallb (λ c, negb (q c)) A = true → replace_each q [] A = A.
Proof.
  induction A as [| a A IH]; cbn [forallb replace_each]; [reflexivity |].
  intros [Ha HA]%andb_true_iff. apply negb_true_iff in Ha.
  now rewrite Ha, IH.
Qed.

Lemma replace_each_app q A l :
  forallb (λ c, negb (q c)) A = true →
  replace_each q [] (A ++ l) = A ++ replace_each q [] l.
Proof.
  induction A as [| a A IH]; [reflexivity |].
  cbn [forallb]. intros [Ha HA]%andb_true_iff. apply negb_true_iff in Ha.
  cbn [app replace_each]. rewrite Ha. f_equal. now apply IH.
Qed.

Lemma sub_from_each q subject : ∀ n l fuel s,
  length l ≤ n → m_rest s = l → at_pos subject s → length l < fuel →
  sub_from fuel (Cls q) [] subject s = of_chars (replace_each q [] l).
Proof.
  induction n as [| n IH]; intros l fuel s Hn Hr Hs Hf.
  - destruct l; [| simpl in Hn; lia].
    rewrite (sub_from_copy _ q (match_each_none q)); now rewrite Hr.
  - destruct (first_of_class q l) as (A & rest & -> & HA & [-> | Hrest]).
    + rewrite app_nil_r in *.
      rewrite (sub_from_copy _ q (match_each_none q)) by now rewrite Hr.
      now rewrite Hr, replace_each_copy.
    + destruct Hrest as (c & l' & -> & Hc).
      destruct fuel as [| fuel]; [lia |].
      rewrite (sub_from_step _ q (λ _, 1)
                 (λ c0 l0 _, conj (le_n 1) (le_n_S _ _ (Nat.le_0_l _)))
                 (match_each_none q) (match_each_some q)
                 [] "" (λ _, eq_refl) subject fuel s A c l' Hs Hr HA Hc).
      rewrite length_app in Hn, Hf. cbn [length] in Hn, Hf.
      assert (Hk : length A + 1 ≤ length (m_rest s))
        by (rewrite Hr, length_app; simpl; lia).
      destruct (skip_state_spec _ s Hk) as [H1 H2].
      rewrite (IH l').
      * rewrite replace_each_app by exact HA.
        cbn [replace_each]. rewrite Hc. cbn [app].
        rewrite !of_chars_app. reflexivity.
      * lia.
      * rewrite H1, Hr, skipn_app.
        replace (length A + 1 - length A) with 1 by lia.
        rewrite skipn_all2 by lia. reflexivity.
      * now apply at_pos_skip.
      * lia.
Qed.

(** [re.sub] with one character of a class as pattern and the empty
    replacement. *)
Lemma re_sub_each q s :
  re_sub (Cls q) [] s = of_chars (replace_each q [] (chars s)).
Proof.
  unfold re_sub.
  apply (sub_from_each q s (length (chars s)) (chars s));
    [lia | reflexivity | apply at_pos_start |].
  unfold len. rewrite <- (of_chars_chars s) at 2.
  assert (H : ∀ l, String.length (of_chars l) = length l)
    by (induction l; simpl; auto).
  rewrite H. lia.
Qed.

Lemma replace_each_in q : ∀ l c,
  In c (replace_each q [] l) → In c l ∧ q c = false.
Proof.
  induction l as [| a l IH]; intros c; cbn [replace_each]; [intros [] |].
  destruct (q a) eqn:Ha; cbn [app].
  - intros H. apply IH in H as [H1 H2]. split; [now right | exact H2].
  - intros [<- | H]; [split; [now left | exact Ha] |].
    apply IH in H as [H1 H2]. split; [now right | exact H2].
Qed.

End KeyFacts.

Module KeyShape.
Import Re StrFacts Subst SubFacts KeyFacts SlugShape Align.

Local Abbreviation blank := (" "%char).

(** *** Characters *)

Lemma code_chr n : n < 256 → code (chr n) = n.
Proof. apply nat_ascii_embedding. Qed.

Lemma between_spec lo hi c :
  between lo hi c = true ↔ lo ≤ code c ∧ code c ≤ hi.
Proof.
  unfold between. rewrite andb_true_iff, !Nat.leb_le. tauto.
Qed.

Lemma between_false lo hi c :
  between lo hi c = false ↔ code c < lo ∨ hi < code c.
Proof.
  unfold between. rewrite andb_false_iff, !Nat.leb_gt. tauto.
Qed.

Lemma code_blank : code blank = 32.
Proof. reflexivity. Qed.

Lemma eqc_code a b : eqc a b = false ↔ code a ≠ code b.
Proof.
  split.
  - intros E H. unfold code in H.
    apply (f_equal ascii_of_nat) in H. rewrite !ascii_nat_embedding in H.
    subst. now rewrite eqc_refl in E.
  - intros H. destruct (eqc a b) eqn:E; [| reflexivity].
    apply eqc_eq in E as ->. congruence.
Qed.

Lemma word_not_space c : is_word c = true → is_space c = false.
Proof.
  unfold is_word, is_alnum, is_alpha, is_upper, is_lower, is_digit, is_space.
  rewrite !orb_true_iff, !between_spec, Nat.eqb_eq, orb_false_iff,
    !between_false. lia.
Qed.

Lemma to_lower_word c :
  is_word c = true →
  is_word (to_lower c) = true ∧ is_upper (to_lower c) = false.
Proof.
  intros Hw. unfold to_lower. destruct (is_upper c) eqn:Hu; [| auto].
  unfold is_upper in Hu. apply between_spec in Hu.
  unfold is_word, is_alnum, is_alpha, is_upper, is_lower.
  assert (Hc : code (chr (code c + 32)) = code c + 32)
    by (apply code_chr; lia).
  split.
  - rewrite !orb_true_iff, !between_spec, Hc. left. left. right. lia.
  - apply between_false. rewrite Hc. lia.
Qed.

Lemma to_lower_blank c : eqc blank (to_lower c) = eqc blank c.
Proof.
  unfold to_lower. destruct (is_upper c) eqn:Hu; [| reflexivity].
  unfold is_upper in Hu. apply between_spec in Hu.
  transitivity false; [| symmetry]; apply eqc_code; rewrite code_blank.
  - rewrite code_chr by lia. lia.
  - lia.
Qed.

Lemma to_lower_fixed c : is_upper c = false → to_lower c = c.
Proof. unfold to_lower. now intros ->. Qed.

Lemma starts_blanks_lower P l :
  forallb (eqc blank) P = true →
  starts_l P (map to_lower l) = starts_l P l.
Proof.
  revert l. induction P as [| a P IH]; intros l; [reflexivity |].
  cbn [forallb]. intros [Ha HP]%andb_true_iff. apply eqc_eq in Ha as <-.
  destruct l as [| x l]; [reflexivity |].
  cbn [map]. rewrite !starts_l_cons, to_lower_blank. now rewrite IH.
Qed.

Lemma contains_blanks_lower P l :
  forallb (eqc blank) P = true →
  contains_l P (map to_lower l) = contains_l P l.
Proof.
  intros HP. induction l as [| x l IH].
  - reflexivity.
  - cbn [map contains_l]. rewrite IH. f_equal.
    apply (starts_blanks_lower P (x :: l) HP).
Qed.

(** *** Texts that stripping and the substitutions leave alone *)

Lemma strip_by_fixed p l :
  match l with [] => True | a :: _ => p a = false end →
  match rev l with [] => True | z :: _ => p z = false end →
  strip_by p l = l.
Proof.
  intros Hh Hl. unfold strip_by, rstrip_by.
  assert (H1 : lstrip_by p l = l).
  { destruct l as [| a l]; [reflexivity |]. simpl. now rewrite Hh. }
  rewrite H1.
  assert (H2 : lstrip_by p (rev l) = rev l).
  { destruct (rev l) as [| z m]; [reflexivity |]. simpl. now rewrite Hl. }
  now rewrite H2, rev_involutive.
Qed.

Lemma replace_runs_fixed : ∀ l b,
  (∀ c, In c l → is_space c = true → c = blank) →
  contains_l [blank; blank] l = false →
  (b = true → starts_l [blank] l = false) →
  replace_runs is_space [blank] b l = l.
Proof.
  induction l as [| c l IH]; intros b Hsp Hnd Hb; [reflexivity |].
  cbn [contains_l] in Hnd. apply orb_false_iff in Hnd as [Hs Hnd].
  assert (Hsp' : ∀ x, In x l → is_space x = true → x = blank)
    by (intros x Hx; apply Hsp; now right).
  cbn [replace_runs]. destruct (is_space c) eqn:Hc.
  - assert (c = blank) as -> by (apply Hsp; [now left | exact Hc]).
    rewrite starts_l_cons, eqc_refl in Hs. cbn [andb] in Hs.
    destruct b.
    + specialize (Hb eq_refl). rewrite starts_l_cons, eqc_refl in Hb.
      discriminate.
    + cbn [app]. f_equal. apply IH; auto.
  - f_equal. apply IH; [exact Hsp' | exact Hnd | discriminate].
Qed.

End KeyShape.

Module KeyMain.
Import Re StrFacts Subst SubFacts KeyFacts SlugShape KeyShape Align KeyInv.

Local Abbreviation blank := (" "%char).
Local Abbreviation punct := (λ c : ascii, negb (is_word c || is_space c)).

Lemma key_chars text :
  chars (normalize_for_matching text) =
  map to_lower
    (strip_by is_space
       (replace_runs is_space [blank] false
          (replace_each punct [] (chars text)))).
Proof.
  unfold normalize_for_matching, PUNCT, SPACES, space.
  rewrite re_sub_each, re_sub_runs. unfold lower, strip.
  now rewrite !chars_of_chars.
Qed.

Lemma key_has_shape text : key_shape (chars (normalize_for_matching text)).
Proof.
  rewrite key_chars.
  set (F := replace_each punct [] (chars text)).
  destruct (replace_runs_shape is_space blank eq_refl F) as (H1 & H2 & _).
  specialize (H1 false). specialize (H2 false).
  set (X := replace_runs is_space [blank] false F) in *.
  destruct (StripShape.strip_by_shape is_space X) as ((A & B & HX) & Hh & Hl).
  set (S := strip_by is_space X) in *.
  assert (HS : ∀ c, In c S → c = blank ∨ is_word c = true).
  { intros c Hc.
    assert (Hin : In c X)
      by (rewrite HX; apply in_or_app; right; apply in_or_app; now left).
    destruct (H1 c Hin) as [[Hsp HF] | ->]; [right | now left].
    apply replace_each_in in HF as [_ Hp].
    apply negb_false_iff in Hp. rewrite Hsp, orb_false_r in Hp. exact Hp. }
  assert (Hword : ∀ a, In a S → is_space a = false →
                       is_space (to_lower a) = false).
  { intros a Ha Hsp. destruct (HS a Ha) as [-> | Hw]; [discriminate |].
    now apply word_not_space, to_lower_word. }
  split; [| split; [| split]].
  - intros c Hc. apply in_map_iff in Hc as (x & <- & Hx).
    destruct (HS x Hx) as [-> | Hw]; [now left |].
    right. now apply to_lower_word.
  - destruct S as [| a m] eqn:E; [exact I |]. cbn [map].
    apply Hword; [now left | exact Hh].
  - rewrite <- map_rev.
    assert (Hrev : ∀ z, In z (rev S) → In z S) by (intros z; apply in_rev).
    destruct (rev S) as [| z m] eqn:E; [exact I |]. cbn [map].
    apply Hword; [apply Hrev; now left | exact Hl].
  - rewrite contains_blanks_lower by reflexivity.
    rewrite HX in H2. apply contains_l_suffix in H2.
    now apply contains_l_app in H2.
Qed.

Lemma key_shape_fixed K :
  key_shape K → chars (normalize_for_matching (of_chars K)) = K.
Proof.
  intros (H1 & Hh & Hl & Hnd). rewrite key_chars, chars_of_chars.
  rewrite replace_each_copy.
  2:{ apply forallb_forall. intros c Hc. apply negb_true_iff, negb_false_iff.
      destruct (H1 c Hc) as [-> | [Hw _]]; [reflexivity | now rewrite Hw]. }
  rewrite replace_runs_fixed; [| | exact Hnd | discriminate].
  2:{ intros c Hc Hsp. destruct (H1 c Hc) as [-> | [Hw _]]; [reflexivity |].
      apply word_not_space in Hw. congruence. }
  rewrite strip_by_fixed by assumption.
  rewrite <- (map_id K) at 2. apply map_ext_in. intros c Hc.
  destruct (H1 c Hc) as [-> | [_ Hu]]; [reflexivity |].
  now apply to_lower_fixed.
Qed.

End KeyMain.

(** X16.  The key [normalize_for_matching] makes of a text is made of
    lower-case letters, digits, underscores and single blanks, and neither
    starts nor ends with a blank. *)
Theorem normalize_for_matching_shape (text : string) :
  Text.is_ascii text = true →
  let key := Align.normalize_for_matching text in
  (∀ c, In c (chars key) →
        c = " "%char ∨ (is_word c = true ∧ is_upper c = false)) ∧
  startswith key " " = false ∧
  endswith key " " = false ∧
  contains key "  " = false.
Proof.
  intros _. cbv zeta.
  destruct (KeyMain.key_has_shape text) as (H1 & Hh & Hl & Hnd).
  unfold startswith, endswith, contains.
  split; [exact H1 |]. split; [| split; [| exact Hnd]].
  - destruct (chars (Align.normalize_for_matching text)) as [| a m];
      [reflexivity |].
    change (chars " ") with [" "%char]. rewrite SlugShape.starts_l_cons.
    destruct (eqc " " a) eqn:E; [| reflexivity].
    apply StrFacts.eqc_eq in E as <-. discriminate.
  - change (rev (chars " ")) with [" "%char].
    destruct (rev (chars (Align.normalize_for_matching text))) as [| z m];
      [reflexivity |].
    rewrite SlugShape.starts_l_cons.
    destruct (eqc " " z) eqn:E; [| reflexivity].
    apply StrFacts.eqc_eq in E as <-. discriminate.
Qed.

Lemma normalize_for_matching_shape_witness :
  startswith (Align.normalize_for_matching "  6G1  7.76mm Rifle! ") " " = false.
Proof.
  apply (normalize_for_matching_shape "  6G1  7.76mm Rifle! "). reflexivity.
Defined.

(** X17.  Making the key of a key changes nothing. *)
Theorem normalize_for_matching_idempotent (text : string) :
  Text.is_ascii text = true →
  Align.normalize_for_matching (Align.normalize_for_matching text) =
  Align.normalize_for_matching text.
Proof.
  intros _. apply StrFacts.chars_inj.
  rewrite <- (StrFacts.of_chars_chars (Align.normalize_for_matching text)) at 1.
  apply KeyMain.key_shape_fixed, KeyMain.key_has_shape.
Qed.

Lemma normalize_for_matching_idempotent_witness :
  Align.normalize_for_matching
    (Align.normalize_for_matching "  6G1  7.76mm Rifle! ") =
  Align.normalize_for_matching "  6G1  7.76mm Rifle! ".
Proof.
  apply (normalize_for_matching_idempotent "  6G1  7.76mm Rifle! ").
  reflexivity.
Defined.

(* ===================================================================== *)
(** ** Optional keys of the record                                        *)
(* ===================================================================== *)

Module ShotFacts.
Import Card WeaponShape.

Lemma shots_ok_alter (f : Weapon nat → Weapon nat) i ws :
  (∀ w, shots_ok w → shots_ok (f w)) →
  Forall shots_ok ws → Forall shots_ok (alter f i ws).
Proof.
  intros Hf Hws. apply Forall_alter; [exact Hws |]. intros w _. apply Hf.
Qed.

Lemma shots_ok_drop_rules w : shots_ok w → shots_ok (drop_rules w).
Proof. auto. Qed.

Lemma shots_ok_add s w : shots_ok (add_shot_type s w).
Proof.
  unfold shots_ok, add_shot_type. simpl. intros [= E].
  destruct (default [] (w_shotTypes w)); discriminate.
Qed.

Section Loop.

Variable lines : list string.
Variable line_boxes : list LineBox.
Variable descriptive_category : option string.

Lemma unnamed_title_shots st t st' :
  unnamed_title lines descriptive_category st = (t, st') →
  Forall shots_ok (weapons st) → Forall shots_ok (weapons st').
Proof.
  unfold unnamed_title.
  destruct (last (weapons st)) as [w |]; simpl.
  2:{ destruct (lookahead_title _ _); intros [= <- <-]; auto. }
  destruct (rules_truthy (store st) (w_specialRules w)) as [r |].
  2:{ simpl. destruct (lookahead_title _ _); intros [= <- <-]; auto. }
  destruct (last (rules_at (store st) r)) as [last_rule |].
  2:{ simpl. destruct (lookahead_title _ _); intros [= <- <-]; auto. }
  destruct (Re.matches Pat.WEAPON_NAME_RE last_rule).
  2:{ simpl. destruct (lookahead_title _ _); intros [= <- <-]; auto. }
  match goal with
  | |- context [String.eqb ?t UNNAMED] => destruct (String.eqb t UNNAMED)
  end.
  - destruct (lookahead_title _ _); intros [= <- <-]; simpl;
      destruct (removelast _);
      auto using shots_ok_alter, shots_ok_drop_rules.
  - intros [= <- <-]; simpl.
    destruct (removelast _); auto using shots_ok_alter, shots_ok_drop_rules.
Qed.

Lemma locate_shots st ln :
  Forall shots_ok (weapons st) →
  match locate lines line_boxes descriptive_category st ln with
  | LSkip st' | LBreak st' | LProfile _ _ st' => Forall shots_ok (weapons st')
  end.
Proof.
  intros Hinv. unfold locate.
  destruct (Re.re_match Pat.WEAPON_NAME_RE (cleaned_line ln)) as [wm |].
  - destruct (is_special_rule_line line_boxes (cursor st)); simpl; [auto |].
    destruct (clean_weapon_title _) as [t emb]. simpl.
    destruct (lines !! S (cursor st)); [| exact Hinv].
    destruct (Re.re_match Pat.PROFILE_RE s); simpl; auto.
  - destruct (Re.found Pat.PROFILE_DETECT_RE ln); simpl; [| auto].
    destruct (Re.re_match Pat.PROFILE_RE ln); simpl; [| auto].
    destruct (unnamed_title lines descriptive_category st) as [t st'] eqn:E.
    now apply unnamed_title_shots in E.
Qed.

Lemma fold_combined_shots title obj ws store ws' store' :
  fold_combined title obj ws store = (ws', store') →
  Forall shots_ok ws → Forall shots_ok ws'.
Proof.
  unfold fold_combined. intros H Hinv.
  destruct (split1 ">" title) as [first [rest |]].
  2:{ now injection H as <- <-. }
  destruct (last_index_where _ ws) as [i |];
    destruct (make_shot_type store (strip rest) obj) as [s shot];
    injection H as <- <-;
    apply shots_ok_alter; auto using shots_ok_add.
  apply Forall_app. split; [exact Hinv |]. constructor; [| constructor].
  discriminate.
Qed.

Lemma file_weapon_shots title obj st :
  shots_ok obj → Forall shots_ok (weapons st) →
  Forall shots_ok (weapons (file_weapon title obj st)).
Proof.
  intros Hobj Hinv. unfold file_weapon.
  destruct (has_char ">" title && negb (startswith title ">")).
  - destruct (fold_combined title obj (weapons st) (store st)) as [ws' s'] eqn:E.
    simpl. now apply fold_combined_shots in E.
  - destruct (startswith title ">" && negb (bool_decide (weapons st = []))).
    + destruct (find_base title (weapons st)); simpl; [| exact Hinv].
      destruct (make_shot_type _ _ _) as [s shot]. simpl.
      apply shots_ok_alter; auto using shots_ok_add.
    + simpl. apply Forall_app. split; [exact Hinv |].
      constructor; [exact Hobj | constructor].
Qed.

Lemma process_shots title pm st :
  Forall shots_ok (weapons st) →
  match process lines line_boxes descriptive_category title pm st with
  | Continue st' | Break st' => Forall shots_ok (weapons st')
  end.
Proof.
  intros Hinv. unfold process.
  destruct (weapon_rules line_boxes (S (cursor st)) _ _ None)
    as [[c rules] ammo].
  destruct (parse_acc (grp pm 3)) as [accuracy |]; [| exact Hinv].
  match goal with
  | |- context [let '(t, r) := ?x in _] => destruct x as [t r]
  end.
  match goal with
  | |- context [let '(s, r) := ?x in _] => destruct x as [s ref]
  end.
  apply file_weapon_shots; [discriminate | exact Hinv].
Qed.

Lemma step_shots st :
  Forall shots_ok (weapons st) →
  match step lines line_boxes descriptive_category st with
  | Continue st' | Break st' => Forall shots_ok (weapons st')
  end.
Proof.
  intros Hinv. unfold step.
  destruct (lines !! cursor st) as [ln |]; [| exact Hinv].
  pose proof (locate_shots st ln Hinv) as Hloc.
  destruct (locate lines line_boxes descriptive_category st ln) as [s | s | t pm s];
    [exact Hloc | exact Hloc |].
  now apply process_shots.
Qed.

Lemma weapon_loop_shots fuel : ∀ st,
  Forall shots_ok (weapons st) →
  Forall shots_ok
    (weapons (weapon_loop lines line_boxes descriptive_category fuel st)).
Proof.
  induction fuel as [| fuel IH]; intros st Hinv; simpl; [exact Hinv |].
  pose proof (step_shots st Hinv) as Hs.
  destruct (step lines line_boxes descriptive_category st) as [st' | st'];
    [now apply IH | exact Hs].
Qed.

End Loop.

Lemma resolve_weapon_shots store w :
  shots_ok w → shots_ok (resolve_weapon store w).
Proof.
  unfold shots_ok, resolve_weapon. simpl.
  destruct (w_shotTypes w) as [[| s l] |]; simpl; congruence.
Qed.

Lemma nonempty_str_spec s x : nonempty_str s = Some x → x ≠ "".
Proof.
  unfold nonempty_str. destruct s as [y |]; [| discriminate].
  destruct (truthy y) eqn:E; [| discriminate].
  intros [= <-] ->. discriminate.
Qed.

(** The record made after the stat line. *)
Lemma finish_keys nfkd hf lines boxes h sl :
  let u := finish nfkd hf lines boxes h sl in
  u_weapons u ≠ Some [] ∧
  (∀ ws, u_weapons u = Some ws → Forall shots_ok ws) ∧
  u_descriptiveCategory u ≠ Some "" ∧
  u_description u ≠ Some "" ∧
  u_category u = None ∧ u_subcategory u = None.
Proof.
  cbv zeta. unfold finish.
  destruct (collect_rules _ _ _ _ _) as [[c sr] tr].
  match goal with
  | |- context [let '(a, b) := ?x in _] => destruct x as [sr' desc]
  end.
  destruct (description_block _ _ _ _) as [[c' sr''] desc'].
  cbn [u_weapons u_descriptiveCategory u_description u_category u_subcategory].
  unfold weapon_stage.
  set (st := weapon_loop _ _ _ _ _).
  assert (Hinv : Forall shots_ok (weapons st))
    by (apply weapon_loop_shots; constructor).
  split; [| split; [| split; [| split; [| split]]]]; try reflexivity.
  - destruct (map (resolve_weapon (store st)) (weapons st)); discriminate.
  - intros ws Hws.
    assert (ws = map (resolve_weapon (store st)) (weapons st)) as ->.
    { destruct (map (resolve_weapon (store st)) (weapons st));
        [discriminate | now injection Hws]. }
    apply Forall_forall. intros w Hw.
    apply list_elem_of_fmap in Hw as (w0 & -> & Hw0).
    apply resolve_weapon_shots.
    rewrite Forall_forall in Hinv. now apply Hinv.
  - intros E. now apply nonempty_str_spec in E.
  - intros E. now apply nonempty_str_spec in E.
Qed.

Lemma finish_id nfkd hf lines boxes h sl :
  let u := finish nfkd hf lines boxes h sl in
  u_id u = Slug.slugify nfkd (Slug.codepoints (u_name u)).
Proof.
  cbv zeta. unfold finish.
  destruct (collect_rules _ _ _ _ _) as [[c sr] tr].
  match goal with
  | |- context [let '(a, b) := ?x in _] => destruct x as [sr' desc]
  end.
  destruct (description_block _ _ _ _) as [[c' sr''] desc'].
  reflexivity.
Qed.

End ShotFacts.

(** X18.  In every record [parse_card_text] returns an optional key is absent
    rather than empty: the weapons, when present, are a non-empty list, the
    shot types of a weapon, when present, are a non-empty list, and the
    descriptive category and the description, when present, are non-empty
    texts.  The identifier is the slug of the name, and the record has no
    category yet. *)
Theorem parsed_record_optional_keys nfkd card_text line_boxes u :
  Card.parse_card_text nfkd card_text line_boxes = Ok (Some u) →
  Card.u_weapons u ≠ Some [] ∧
  (∀ ws w, Card.u_weapons u = Some ws → In w ws →
           Card.w_shotTypes w ≠ Some []) ∧
  Card.u_descriptiveCategory u ≠ Some "" ∧
  Card.u_description u ≠ Some "" ∧
  Card.u_id u = Slug.slugify nfkd (Slug.codepoints (Card.u_name u)) ∧
  Card.u_category u = None.
Proof.
  intros H. apply ParseFacts2.parse_card_text_finish in H
    as (hf & lines & boxes & h & sl & ->).
  destruct (ShotFacts.finish_keys nfkd hf lines boxes h sl)
    as (H1 & H2 & H3 & H4 & H5 & _).
  split; [exact H1 |]. split; [| split; [exact H3 |]].
  - intros ws w Hws Hw. specialize (H2 ws Hws).
    rewrite Forall_forall in H2. apply (H2 w). now apply list_elem_of_In.
  - split; [exact H4 |]. split; [apply ShotFacts.finish_id | exact H5].
Qed.

Lemma parsed_record_optional_keys_witness :
  ∃ u, Card.parse_card_text Slug.nfkd_fragment Samples.howitzer None
         = Ok (Some u) ∧ Card.u_weapons u ≠ Some [].
Proof.
  destruct (Card.parse_card_text Slug.nfkd_fragment Samples.howitzer None)
    as [[u |] | e] eqn:E; [| vm_compute in E; discriminate ..].
  exists u. split; [reflexivity |].
  apply (parsed_record_optional_keys _ _ _ _ E).
Defined.

(** X19.  The special rules of a record are pairwise distinct. *)
Theorem parsed_record_rules_distinct nfkd card_text line_boxes u :
  Card.parse_card_text nfkd card_text line_boxes = Ok (Some u) →
  NoDup (Card.u_specialRules u).
Proof.
  intros H. apply ParseFacts2.parse_card_text_finish in H
    as (hf & lines & boxes & h & sl & ->).
  unfold Card.finish.
  destruct (Card.collect_rules _ _ _ _ _) as [[c sr] tr].
  match goal with
  | |- context [let '(a, b) := ?x in _] => destruct x as [sr' desc]
  end.
  destruct (Card.description_block _ _ _ _) as [[c' sr''] desc'].
  cbn [Card.u_specialRules]. unfold Helpers.dedupe_preserve_order.
  apply (DedupeOrderFacts.dedupe_loop_spec _ ∅).
Qed.

Lemma parsed_record_rules_distinct_witness :
  ∃ u, Card.parse_card_text Slug.nfkd_fragment Samples.howitzer None
         = Ok (Some u) ∧ NoDup (Card.u_specialRules u).
Proof.
  destruct (Card.parse_card_text Slug.nfkd_fragment Samples.howitzer None)
    as [[u |] | e] eqn:E; [| vm_compute in E; discriminate ..].
  exists u. split; [reflexivity |].
  apply (parsed_record_rules_distinct _ _ _ _ E).
Defined.

(* ===================================================================== *)
(** ** Weapon names split over several lines                              *)
(* ===================================================================== *)

Module NameMergeFacts.
Import Card Helpers StrFacts MergeFacts.

(** The fragments are the first lines of the rest. *)
Lemma collect_fragments_prefix : ∀ n rest,
  ∃ tail, rest = collect_fragments n rest ++ tail.
Proof.
  induction n as [| n IH]; intros rest; [now exists rest |].
  destruct rest as [| next rest]; [now exists [] |].
  cbn [collect_fragments].
  destruct (_ || _ || _); [now exists (next :: rest) |].
  destruct (_ && _); [| now exists (next :: rest)].
  destruct (IH rest) as (tail & Ht). exists tail. cbn [app]. now f_equal.
Qed.

Lemma join_two a b l : join " " (a :: b :: l) = sp a (join " " (b :: l)).
Proof. reflexivity. Qed.

(** A line made by joining lines counts as those lines. *)
Lemma join_join : ∀ fs a T,
  join " " (join " " (a :: fs) :: T) = join " " (a :: fs ++ T).
Proof.
  induction fs as [| f fs IH]; intros a T; [reflexivity |].
  rewrite join_two.
  pose proof (join_sp [] a (join " " (f :: fs)) T) as H. cbn [app] in H.
  rewrite H. clear H. cbn [app]. destruct T as [| t T].
  - rewrite app_nil_r. reflexivity.
  - rewrite join_two, IH. reflexivity.
Qed.

Lemma join_tail a X T :
  join " " X = join " " T → (X = [] ↔ T = []) →
  join " " (a :: X) = join " " (a :: T).
Proof.
  intros Hj He. destruct X as [| x X], T as [| t T]; try reflexivity.
  - destruct He as [He _]. specialize (He eq_refl). discriminate.
  - destruct He as [_ He]. specialize (He eq_refl). discriminate.
  - rewrite !join_two. now rewrite Hj.
Qed.

Lemma merge_weapon_names_spec : ∀ fuel i lines,
  let out := merge_weapon_names fuel i lines in
  join " " out = join " " lines ∧
  length out ≤ length lines ∧
  (out = [] ↔ lines = []) ∧
  firstn (3 - i) out = firstn (3 - i) lines.
Proof.
  induction fuel as [| fuel IH]; intros i lines; cbv zeta.
  - destruct lines; cbn [merge_weapon_names]; auto.
  - destruct lines as [| line rest]; cbn [merge_weapon_names];
      [repeat split; auto |].
    destruct (IH (S i) rest) as (Hj & Hl & He & Hf).
    assert (Hkeep :
      join " " (line :: merge_weapon_names fuel (S i) rest)
        = join " " (line :: rest) ∧
      length (line :: merge_weapon_names fuel (S i) rest)
        ≤ length (line :: rest) ∧
      (line :: merge_weapon_names fuel (S i) rest = [] ↔ line :: rest = []) ∧
      firstn (3 - i) (line :: merge_weapon_names fuel (S i) rest)
        = firstn (3 - i) (line :: rest)).
    { split; [now apply join_tail |]. split; [simpl; lia |].
      split; [split; discriminate |].
      destruct (3 - i) as [| k] eqn:Ek; [reflexivity |].
      cbn [firstn]. f_equal. replace k with (3 - S i) by lia. exact Hf. }
    destruct (fragment_start i line rest) eqn:Hs; [| exact Hkeep].
    destruct (collect_fragments 3 rest) as [| f fs] eqn:Hfr; [exact Hkeep |].
    destruct (Re.matches Pat.WEAPON_NAME_RE _); [| exact Hkeep].
    destruct (collect_fragments_prefix 3 rest) as (tail & Ht).
    rewrite Hfr in Ht.
    assert (Hskip : skipn (length (f :: fs)) rest = tail).
    { rewrite Ht at 1. now rewrite skipn_app, Nat.sub_diag, skipn_all. }
    rewrite Hskip.
    destruct (IH (S i + length (f :: fs)) tail) as (Hj' & Hl' & He' & _).
    split; [| split; [| split]].
    + rewrite Ht. rewrite <- join_join. now apply join_tail.
    + rewrite Ht. cbn [length]. rewrite length_app. cbn [length] in *. lia.
    + split; discriminate.
    + unfold fragment_start in Hs. apply andb_true_iff in Hs as [Hs _].
      apply Nat.leb_le in Hs. replace (3 - i) with 0 by lia. reflexivity.
Qed.

End NameMergeFacts.

(** X20.  The pass of [parse_card_text] that joins the lines of a split weapon
    name only joins neighbouring lines with a blank: the lines joined by
    blanks read the same before and after it.  It never adds a line, and it
    leaves the first three lines, the header and the category, as they
    are. *)
Theorem weapon_name_merge_keeps_text (lines : list string) :
  let out := Card.merge_weapon_names (length lines) 0 lines in
  join " " out = join " " lines ∧
  length out ≤ length lines ∧
  firstn 3 out = firstn 3 lines.
Proof.
  cbv zeta.
  destruct (NameMergeFacts.merge_weapon_names_spec (length lines) 0 lines)
    as (H1 & H2 & _ & H3).
  auto.
Qed.

(* ===================================================================== *)
(** ** Values with more than one slash                                    *)
(* ===================================================================== *)

Module SlashCount.
Import Re StrFacts SlugFacts.

Lemma rep_cls_sound q K : ∀ n s s',
  rep_loop (rmatch (Cls q)) true K n s = Some s' →
  ∃ B s1, m_rest s = B ++ m_rest s1 ∧ forallb q B = true ∧ K s1 = Some s'.
Proof.
  induction n as [| n IH]; intros s s' H.
  - exists [], s. auto.
  - rewrite rep_loop_greedy, rmatch_cls in H.
    destruct (m_rest s) as [| c t] eqn:Hr.
    { exists [], s. rewrite Hr. auto. }
    destruct (q c) eqn:Hc.
    2:{ exists [], s. rewrite Hr. auto. }
    destruct (m_pos s <? m_pos (advance c t s)).
    2:{ exists [], s. rewrite Hr. auto. }
    destruct (rep_loop (rmatch (Cls q)) true K n (advance c t s)) as [x |] eqn:E.
    + injection H as ->. apply IH in E as (B & s1 & HB & Hq & HK).
      exists (c :: B), s1. cbn [m_rest advance] in HB. rewrite HB.
      split; [reflexivity |]. split; [cbn; now rewrite Hc, Hq | exact HK].
    + exists [], s. rewrite Hr. auto.
Qed.

Lemma dice_no_slash s : matches DICE_RE s = true → has_char slash s = false.
Proof.
  unfold matches, re_match, match_at.
  destruct (rmatch DICE_RE Some (start_state s)) as [s' |] eqn:E; [intros _ | discriminate].
  unfold DICE_RE, cat, lit, lit_l, one, plus, digit in E.
  cbn [chars list_ascii_of_string] in E.
  unfold has_char. unfold start_state in E.
  cbn [rmatch m_pos m_rest Nat.eqb] in E.
  destruct (chars s) as [| c1 [| c2 [| c3 t]]]; try discriminate.
  { destruct (eqc "[" c1); discriminate. }
  { destruct (eqc "[" c1); [| discriminate]. cbn [advance m_rest] in E.
    destruct (eqc "D" c2); discriminate. }
  destruct (eqc "[" c1) eqn:E1; [| discriminate]. cbn [advance m_rest] in E.
  destruct (eqc "D" c2) eqn:E2; [| discriminate]. cbn [advance m_rest] in E.
  destruct (is_digit c3) eqn:E3; [| discriminate]. cbn [advance m_rest m_pos m_caps] in E.
  apply (rep_cls_sound is_digit) in E as (B & s1 & HB & Hq & HK).
  cbn [advance m_rest set_cap] in HB, HK. subst t.
  apply eqc_eq in E1 as <-. apply eqc_eq in E2 as <-.
  assert (H3 : eqc slash c3 = false).
  { destruct (eqc slash c3) eqn:E; [| reflexivity].
    apply eqc_eq in E as <-. discriminate. }
  cbn [existsb]. rewrite H3. cbn [eqc Ascii.eqb Bool.eqb slash chr orb].
  change (eqc slash "[" ||
          (eqc slash "D" || (false || existsb (eqc slash) (B ++ m_rest s1))))
    with (existsb (eqc slash) (B ++ m_rest s1)).
  rewrite existsb_app, (ParseFacts.digits_no_char slash B eq_refl Hq).
  destruct (m_rest s1) as [| c4 t4]; [discriminate |].
  destruct (eqc "]" c4) eqn:E4; [| discriminate].
  apply eqc_eq in E4 as <-.
  destruct t4 as [| c5 [| c6 t6]]; [reflexivity | | discriminate].
  destruct (code c5 =? 10) eqn:E5; [| discriminate].
  cbn [existsb orb].
  destruct (eqc slash c5) eqn:E; [| reflexivity].
  apply eqc_eq in E as <-. discriminate.
Qed.

Lemma split_on_nonempty c : ∀ l cur, 1 ≤ length (split_on c cur l).
Proof.
  induction l as [| a l IH]; intros cur; simpl; [lia |].
  destruct (eqc a c); [simpl; lia | apply IH].
Qed.

Lemma split_on_sep c Y : ∀ X cur,
  S (length (split_on c [] Y)) ≤ length (split_on c cur (X ++ c :: Y)).
Proof.
  induction X as [| x X IH]; intros cur.
  - cbn [app split_on]. rewrite eqc_refl. simpl. lia.
  - cbn [app split_on]. destruct (eqc x c).
    + cbn [length]. specialize (IH []). lia.
    + apply IH.
Qed.

Lemma parse_parts_length f : ∀ parts l,
  parse_parts f parts = Some l → length l = length parts.
Proof.
  induction parts as [| p parts IH]; intros l; simpl.
  - now intros [= <-].
  - destruct (f p); [| discriminate].
    destruct (parse_parts f parts) as [l' |]; [| discriminate].
    intros [= <-]. simpl. f_equal. now apply IH.
Qed.

(** The stripped text of a value with two slashes, and its parts. *)
Lemma strip_three_parts a b c :
  chars (strip (a +:+ "/" +:+ b +:+ "/" +:+ c)) =
  lstrip_by is_space (chars a) ++
    slash :: chars b ++ slash :: rstrip_by is_space (chars c).
Proof.
  rewrite SlashFacts.strip_two_parts, chars_app.
  change (chars ("/" +:+ c)) with (slash :: chars c).
  now rewrite rstrip_by_app_keep by reflexivity.
Qed.

Lemma three_parts a b c :
  3 ≤ length (split_char slash (strip (a +:+ "/" +:+ b +:+ "/" +:+ c))).
Proof.
  unfold split_char. rewrite strip_three_parts.
  pose proof (split_on_sep slash
                (chars b ++ slash :: rstrip_by is_space (chars c))
                (lstrip_by is_space (chars a)) []) as H1.
  pose proof (split_on_sep slash (rstrip_by is_space (chars c))
                (chars b) []) as H2.
  pose proof (split_on_nonempty slash (rstrip_by is_space (chars c)) []).
  lia.
Qed.

Lemma parts_rejected {A : Type} f parts (one : atom → A) (two : atom → atom → A) :
  3 ≤ length parts →
  match parse_parts f parts with
  | None => None
  | Some [x; y] => Some (two x y)
  | Some [x] => Some (one x)
  | Some _ => None
  end = None.
Proof.
  intros H. destruct (parse_parts f parts) as [l |] eqn:E; [| reflexivity].
  apply parse_parts_length in E.
  destruct l as [| x [| y [| z l]]]; simpl in E; try lia; reflexivity.
Qed.

End SlashCount.


(* ===================================================================== *)
(** ** Patterns that cannot match                                         *)
(* ===================================================================== *)

Module NoMatch.
Import Re StrFacts SlugFacts.

Section Fail.

(** A property of the text that remains, kept when characters are
    consumed. *)
Variable P : list ascii → Prop.
Hypothesis P_tail : ∀ c l, P (c :: l) → P l.

Lemma rep_fail body g K :
  (∀ K', (∀ s, P (m_rest s) → K' s = None) →
         ∀ s, P (m_rest s) → body K' s = None) →
  (∀ s, P (m_rest s) → K s = None) →
  ∀ n s, P (m_rest s) → rep_loop body g K n s = None.
Proof using Type.
  intros Hbody HK. induction n as [| n IH]; intros s Hs; cbn [rep_loop].
  - now apply HK.
  - rewrite (Hbody _) ; [| | exact Hs].
    + rewrite (HK s Hs). now destruct g.
    + intros s' Hs'. destruct (m_pos s <? m_pos s'); [now apply IH | reflexivity].
Qed.

(** When what follows a pattern cannot match on such a text, the pattern
    followed by it cannot either. *)
Lemma rmatch_fail : ∀ r K,
  (∀ s, P (m_rest s) → K s = None) →
  ∀ s, P (m_rest s) → rmatch r K s = None.
Proof using P_tail.
  induction r as [| p | r1 IH1 r2 IH2 | r1 IH1 r2 IH2 | g r1 IH1 | n r1 IH1
                  | | | | r1 IH1]; intros K HK s Hs; cbn [rmatch].
  - now apply HK.
  - destruct (m_rest s) as [| c t] eqn:E; [reflexivity |].
    destruct (p c); [| reflexivity]. apply HK. cbn [advance m_rest].
    now apply (P_tail c).
  - apply IH1; [| exact Hs]. intros s' Hs'. now apply IH2.
  - rewrite IH1 by assumption. now apply IH2.
  - apply rep_fail; [| exact HK | exact Hs].
    intros K' HK' s' Hs'. now apply IH1.
  - apply IH1; [| exact Hs]. intros s' Hs'. apply HK. exact Hs'.
  - destruct (m_pos s =? 0); [now apply HK | reflexivity].
  - destruct (m_rest s) as [| c [| c' t]] eqn:E.
    + apply HK. now rewrite E.
    + destruct (code c =? 10); [apply HK; now rewrite E | reflexivity].
    + reflexivity.
  - destruct (xorb _ _); [now apply HK | reflexivity].
  - destruct (rmatch r1 Some s); [now apply HK | reflexivity].
Qed.

Lemma search_fail r subject :
  (∀ s, P (m_rest s) → match_at r subject s = None) →
  ∀ fuel s, P (m_rest s) → search_from fuel r subject s = None.
Proof using P_tail.
  intros Hm. induction fuel as [| fuel IH]; intros s Hs; cbn [search_from];
    rewrite (Hm s Hs); [reflexivity |].
  destruct (m_rest s) as [| c t] eqn:E; [reflexivity |].
  apply IH. cbn [advance m_rest]. apply (P_tail c).
  first [exact Hs | now rewrite <- E | now rewrite E in Hs].
Qed.

Lemma re_sub_fail r tpl subject :
  (∀ s, P (m_rest s) → match_at r subject s = None) →
  P (chars subject) → re_sub r tpl subject = subject.
Proof using P_tail.
  intros Hm Hs. unfold re_sub. rewrite sub_from_S.
  rewrite (search_fail r subject Hm) by exact Hs.
  apply of_chars_chars.
Qed.

End Fail.

(** A text without the character [x]. *)
Lemma without_tail x c l :
  existsb (eqc x) (c :: l) = false → existsb (eqc x) l = false.
Proof. cbn [existsb]. now intros [_ H]%orb_false_iff. Qed.

Lemma one_fail x K s :
  existsb (eqc x) (m_rest s) = false → rmatch (one x) K s = None.
Proof.
  intros H. unfold one. rewrite rmatch_cls.
  destruct (m_rest s) as [| c t]; [reflexivity |].
  cbn [existsb] in H. apply orb_false_iff in H as [-> _]. reflexivity.
Qed.

End NoMatch.

(** X22.  A name without question mark is returned as it is by
    [clean_unit_name]. *)
Theorem clean_unit_name_without_question_mark (name : string) :
  has_char "?" name = false → Helpers.clean_unit_name name = name.
Proof.
  intros H. unfold has_char in H. unfold Helpers.clean_unit_name.
  assert (H1 : Re.re_sub Helpers.NICKNAME_Q
                 [Re.TLit Helpers.dqs; Re.TGrp 1; Re.TLit Helpers.dqs] name
               = name).
  { apply (NoMatch.re_sub_fail (λ l, existsb (eqc "?") l = false)
             (NoMatch.without_tail "?")); [| exact H].
    intros s Hs. unfold Re.match_at.
    assert (Re.rmatch Helpers.NICKNAME_Q Some s = None) as ->;
      [| reflexivity].
    unfold Helpers.NICKNAME_Q. cbn [Re.cat]. rewrite SlugFacts.rmatch_cat.
    apply (NoMatch.rmatch_fail _ (NoMatch.without_tail "?")); [| exact Hs].
    intros s1 Hs1. rewrite SlugFacts.rmatch_cat.
    apply (NoMatch.rmatch_fail _ (NoMatch.without_tail "?")); [| exact Hs1].
    intros s2 Hs2. rewrite SlugFacts.rmatch_cat.
    now apply (NoMatch.one_fail "?"%char). }
  rewrite H1, String.eqb_refl.
  apply (NoMatch.re_sub_fail (λ l, existsb (eqc "?") l = false)
           (NoMatch.without_tail "?")); [| exact H].
  intros s Hs. unfold Re.match_at.
  assert (Re.rmatch Helpers.QUESTION_QUOTE Some s = None) as ->;
    [| reflexivity].
  unfold Helpers.QUESTION_QUOTE. rewrite SlugFacts.rmatch_cat.
  now apply (NoMatch.one_fail "?"%char).
Qed.

Lemma clean_unit_name_without_question_mark_witness :
  Helpers.clean_unit_name "TYPE 52P" = "TYPE 52P".
Proof.
  apply (clean_unit_name_without_question_mark "TYPE 52P"). reflexivity.
Defined.

(* ===================================================================== *)
(** ** The heading of a card                                              *)
(* ===================================================================== *)

Module HeadingFacts.
Import Layout.

Section Headings.

Variable F : Type.
Variable inf : F.
Variable of_nat : nat → F.
Variable fsub fmin fmax : F → F → F.
Variable flt fle : F → F → bool.

Local Abbreviation qualifies := (qualifies F of_nat fsub fmin fmax flt fle).
Local Abbreviation distance := (distance F fsub).
Local Abbreviation heading_loop :=
  (heading_loop F of_nat fsub fmin fmax flt fle).

(** No heading qualifies: the loop changes nothing. *)
Lemma heading_loop_none card : ∀ headings best bd,
  (∀ h, In h headings → qualifies card (snd h) = false) →
  heading_loop card headings best bd = (best, bd).
Proof.
  induction headings as [| [t b] headings IH]; intros best bd H;
    [reflexivity |].
  cbn [Layout.heading_loop].
  pose proof (H (t, b) (or_introl eq_refl)) as Hq. cbn [snd] in Hq.
  rewrite Hq. cbn [andb]. apply IH. intros h Hh. apply H. now right.
Qed.

Hypothesis flt_irrefl : ∀ a, flt a a = false.
Hypothesis flt_trans : ∀ a b c,
  flt a b = true → flt b c = true → flt a c = true.

(** The state of the loop: nothing chosen yet, or a heading among those
    read, and no qualifying heading read so far is nearer. *)
Lemma heading_loop_nearest card : ∀ headings seen best bd,
  (∀ h, In h seen → qualifies card (snd h) = true →
        flt (distance card (snd h)) bd = false) →
  ((best = "" ∧ bd = inf) ∨
   ∃ h, In h seen ∧ qualifies card (snd h) = true ∧
        best = fst h ∧ bd = distance card (snd h)) →
  let '(best', bd') := heading_loop card headings best bd in
  (∀ h, In h (seen ++ headings) → qualifies card (snd h) = true →
        flt (distance card (snd h)) bd' = false) ∧
  ((best' = "" ∧ bd' = inf) ∨
   ∃ h, In h (seen ++ headings) ∧ qualifies card (snd h) = true ∧
        best' = fst h ∧ bd' = distance card (snd h)).
Proof using flt_irrefl flt_trans.
  induction headings as [| [t b] headings IH]; intros seen best bd Hall Hbest.
  - cbn [Layout.heading_loop]. rewrite app_nil_r. auto.
  - cbn [Layout.heading_loop].
    replace (seen ++ (t, b) :: headings) with ((seen ++ [(t, b)]) ++ headings)
      by (now rewrite <- app_assoc).
    destruct (qualifies card b) eqn:Hq; cbn [andb].
    + destruct (flt (distance card b) bd) eqn:Hlt.
      * apply IH.
        -- intros h Hh Hqh. apply in_app_or in Hh as [Hh | [<- | []]].
           ++ destruct (flt (distance card (snd h)) (distance card b)) eqn:E;
                [| reflexivity].
              pose proof (Hall h Hh Hqh) as Hx.
              rewrite (flt_trans _ _ _ E Hlt) in Hx. discriminate.
           ++ apply flt_irrefl.
        -- right. exists (t, b). split; [apply in_or_app; right; now left |].
           auto.
      * apply IH.
        -- intros h Hh Hqh. apply in_app_or in Hh as [Hh | [<- | []]];
             [now apply Hall | exact Hlt].
        -- destruct Hbest as [Hb | (h & Hh & Hrest)]; [now left |].
           right. exists h. split; [apply in_or_app; now left | exact Hrest].
    + apply IH.
      * intros h Hh Hqh. apply in_app_or in Hh as [Hh | [<- | []]];
          [now apply Hall | cbn [snd] in Hqh; congruence].
      * destruct Hbest as [Hb | (h & Hh & Hrest)]; [now left |].
        right. exists h. split; [apply in_or_app; now left | exact Hrest].
Qed.

End Headings.
End HeadingFacts.

(** X23.  Whatever the floating-point operations are: when no heading is above
    the card and in its column, and in particular when there is no
    heading, [heading_for_card] returns the empty text. *)
Theorem heading_for_card_without_candidate
  (F : Type) (inf : F) (of_nat : nat → F) (fsub fmin fmax : F → F → F)
  (flt fle : F → F → bool)
  (headings : list (string * Layout.bbox F)) (card : Layout.bbox F) :
  (∀ h, In h headings →
        Layout.qualifies F of_nat fsub fmin fmax flt fle card (snd h) = false) →
  Layout.heading_for_card F inf of_nat fsub fmin fmax flt fle headings card
    = "".
Proof.
  intros H. unfold Layout.heading_for_card.
  destruct headings as [| h headings]; [reflexivity |].
  now rewrite (HeadingFacts.heading_loop_none F of_nat fsub fmin fmax flt fle
                 card (h :: headings) "" inf H).
Qed.

Lemma heading_for_card_without_candidate_witness :
  Layout.heading_for_card Z 1000000%Z Z.of_nat Z.sub Z.min Z.max Z.ltb Z.leb
    [("VEHICLES", (0, 500, 100, 520)%Z)] (0, 100, 100, 300)%Z = "".
Proof.
  apply (heading_for_card_without_candidate Z 1000000%Z Z.of_nat Z.sub
           Z.min Z.max Z.ltb Z.leb).
  intros h [<- | []]. reflexivity.
Defined.

(** X24.  When [<] on the coordinates is irreflexive and transitive, as it is
    on floats, the heading [heading_for_card] returns is the nearest one:
    either it returns the empty text, or it returns the text of a heading
    that is above the card and in its column, and no heading above the
    card and in its column is at a smaller distance from the card. *)
Theorem heading_for_card_nearest
  (F : Type) (inf : F) (of_nat : nat → F) (fsub fmin fmax : F → F → F)
  (flt fle : F → F → bool)
  (headings : list (string * Layout.bbox F)) (card : Layout.bbox F) :
  (∀ a, flt a a = false) →
  (∀ a b c, flt a b = true → flt b c = true → flt a c = true) →
  let qualifies := Layout.qualifies F of_nat fsub fmin fmax flt fle card in
  let result :=
    Layout.heading_for_card F inf of_nat fsub fmin fmax flt fle headings card in
  (result = "" ∧
   ∀ h, In h headings → qualifies (snd h) = true →
        flt (Layout.distance F fsub card (snd h)) inf = false) ∨
  ∃ h, In h headings ∧ qualifies (snd h) = true ∧ result = fst h ∧
       ∀ h', In h' headings → qualifies (snd h') = true →
             flt (Layout.distance F fsub card (snd h'))
                 (Layout.distance F fsub card (snd h)) = false.
Proof.
  intros Hirr Htrans. cbv zeta. unfold Layout.heading_for_card.
  destruct headings as [| h0 headings]; [left; split; [reflexivity | intros ? []] |].
  pose proof (HeadingFacts.heading_loop_nearest F inf of_nat fsub fmin fmax
                flt fle Hirr Htrans card (h0 :: headings) [] "" inf) as H.
  cbn [app] in H.
  destruct (Layout.heading_loop F of_nat fsub fmin fmax flt fle card
              (h0 :: headings) "" inf) as [best bd].
  destruct H as [Hall [[-> ->] | (h & Hh & Hq & -> & ->)]].
  - intros ? [].
  - now left.
  - left. split; [reflexivity | exact Hall].
  - right. exists h. auto.
Qed.

Lemma heading_for_card_nearest_witness :
  Layout.heading_for_card Z 1000000%Z Z.of_nat Z.sub Z.min Z.max Z.ltb Z.leb
    [("INFANTRY", (0, 10, 100, 30)%Z); ("VEHICLES", (0, 50, 100, 70)%Z)]
    (0, 100, 100, 300)%Z = "VEHICLES".
Proof.
  destruct (heading_for_card_nearest Z 1000000%Z Z.of_nat Z.sub Z.min Z.max
              Z.ltb Z.leb
              [("INFANTRY", (0, 10, 100, 30)%Z);
               ("VEHICLES", (0, 50, 100, 70)%Z)]
              (0, 100, 100, 300)%Z Z.ltb_irrefl)
    as [[_ _] | (h & _ & _ & _ & _)].
  - intros a b c H1%Z.ltb_lt H2%Z.ltb_lt. apply Z.ltb_lt. lia.
  - reflexivity.
  - reflexivity.
Defined.

(* ===================================================================== *)
(** ** The lines made from the words of the OCR                           *)
(* ===================================================================== *)

Module LinesFacts.
Import Layout.

Section Lines.

Variable F : Type.
Variable of_nat : nat → F.
Variable fsub fadd fdiv : F → F → F.
Variable fabs : F → F.
Variable flt fle : F → F → bool.

Local Abbreviation WordBox := (WordBox F).
Local Abbreviation group_words :=
  (group_words F of_nat fsub fadd fdiv fabs fle).
Local Abbreviation insert_by_x0 := (insert_by_x0 F flt).
Local Abbreviation sorted_by_x0 := (sorted_by_x0 F flt).

(** The groups are the words, in their order, cut into non-empty pieces. *)
Lemma group_words_spec tol : ∀ (words current : list WordBox) lines,
  let out := group_words tol words current lines in
  concat out = concat lines ++ current ++ words ∧
  (Forall (λ g, g ≠ []) lines → Forall (λ g, g ≠ []) out).
Proof.
  intros ws. induction ws as [| w ws IH]; intros current lines; cbv zeta.
  - cbn [Layout.group_words]. destruct current as [| c current].
    + rewrite !app_nil_r. auto.
    + rewrite concat_app. cbn [concat]. rewrite !app_nil_r.
      split; [reflexivity |]. intros Hl. apply Forall_app. split; [exact Hl |].
      constructor; [discriminate | constructor].
  - cbn [Layout.group_words]. destruct current as [| c current].
    + destruct (IH [w] lines) as [H1 H2]. split; [| exact H2].
      rewrite H1. reflexivity.
    + destruct (fle _ tol).
      * destruct (IH ((c :: current) ++ [w]) lines) as [H1 H2].
        split; [| exact H2]. rewrite H1, <- !app_assoc. reflexivity.
      * destruct (IH [w] (lines ++ [c :: current])) as [H1 H2]. split.
        -- rewrite H1, concat_app. cbn [concat].
           rewrite app_nil_r, <- !app_assoc. reflexivity.
        -- intros Hl. apply H2, Forall_app. split; [exact Hl |].
           constructor; [discriminate | constructor].
Qed.

Lemma insert_perm w : ∀ l, Permutation (insert_by_x0 w l) (w :: l).
Proof.
  induction l as [| h t IH]; cbn [Layout.insert_by_x0]; [reflexivity |].
  destruct (flt (x0 F w) (x0 F h)); [reflexivity |].
  rewrite IH. apply perm_swap.
Qed.

Lemma sorted_perm (l : list WordBox) : Permutation (sorted_by_x0 l) l.
Proof.
  unfold Layout.sorted_by_x0.
  assert (H : ∀ l acc, Permutation
                (fold_left (λ acc w, insert_by_x0 w acc) l acc) (acc ++ l)).
  { clear l. induction l as [| w l IH]; intros acc; cbn [fold_left].
    - now rewrite app_nil_r.
    - rewrite IH, insert_perm. cbn [app]. apply Permutation_middle. }
  apply (H l []).
Qed.

Lemma concat_length_le {A : Type} (groups : list (list A)) :
  Forall (λ g, g ≠ []) groups → length groups ≤ length (concat groups).
Proof.
  induction 1 as [| g groups Hg _ IH]; [reflexivity |].
  cbn [concat length]. rewrite length_app.
  destruct g; [congruence | simpl; lia].
Qed.

End Lines.
End LinesFacts.

(** X25.  Whatever the floating-point operations are, [reconstruct_lines] loses
    no word and moves no word to another line: the lines come from
    non-empty groups of words that, one after the other, are the words it
    was given, and each line is the corrected text of the words of its
    group, in some order, joined by blanks.  There are no more lines than
    words, and no line without a word. *)
Theorem reconstruct_lines_groups
  (F : Type) (of_nat : nat → F) (fsub fadd fdiv : F → F → F) (fabs : F → F)
  (flt fle : F → F → bool) (words : list (Layout.WordBox F)) (tol : F) :
  let lines :=
    Layout.reconstruct_lines F of_nat fsub fadd fdiv fabs flt fle words tol in
  ∃ groups,
    concat groups = words ∧
    Forall (λ g, g ≠ []) groups ∧
    Forall2 (λ line g, ∃ order,
               Permutation order g ∧
               line = Fix.fix_ocr_errors_contextual
                        (join " " (map (Layout.wb_text F) order)))
            lines groups ∧
    length lines ≤ length words.
Proof.
  cbv zeta. unfold Layout.reconstruct_lines.
  destruct words as [| w words].
  { exists []. repeat split; constructor. }
  destruct (LinesFacts.group_words_spec F of_nat fsub fadd fdiv fabs fle tol
              words [w] []) as [H1 H2].
  cbn [concat app] in H1. specialize (H2 (List.Forall_nil _)).
  set (groups := Layout.group_words _ _ _ _ _ _ _ _ _ _ _) in *.
  exists groups. split; [exact H1 |]. split; [exact H2 |]. split.
  - clear H1 H2. induction groups as [| g groups IH]; constructor; [| exact IH].
    exists (Layout.sorted_by_x0 F flt g).
    split; [apply LinesFacts.sorted_perm | reflexivity].
  - rewrite length_map, <- H1. now apply LinesFacts.concat_length_le.
Qed.

(* ===================================================================== *)
(** ** Dice as strength                                                   *)
(* ===================================================================== *)

Module DiceFacts.
Import Re StrFacts SlugFacts SubFacts.

(** A greedy run of a class followed by a continuation that accepts the
    text after the run. *)
Lemma rep_cls_then (q : ascii → bool) K r x : ∀ B n s,
  m_rest s = B ++ r → forallb q B = true →
  match r with c :: _ => q c = false | [] => True end →
  length B < n →
  K (skip_state (length B) s) = Some x →
  rep_loop (rmatch (Cls q)) true K n s = Some x.
Proof.
  induction B as [| c B IH]; intros n s Hr HB Hhead Hn HK.
  - destruct n as [| n]; [simpl in Hn; lia |].
    rewrite rep_loop_greedy, rmatch_cls. cbn [app] in Hr. rewrite Hr.
    cbn [length skip_state] in HK.
    destruct r as [| c r]; [exact HK |]. now rewrite Hhead.
  - destruct n as [| n]; [simpl in Hn; lia |].
    cbn [forallb] in HB. apply andb_true_iff in HB as [Hc HB].
    rewrite rep_loop_greedy, rmatch_cls. cbn [app] in Hr. rewrite Hr, Hc.
    replace (m_pos s <? m_pos (advance c (B ++ r) s)) with true
      by (symmetry; apply Nat.ltb_lt; simpl; lia).
    cbn [length skip_state] in HK. rewrite Hr in HK.
    rewrite (IH n (advance c (B ++ r) s)); auto.
    simpl in Hn. lia.
Qed.

Lemma dice_matches c d :
  is_digit c = true → forallb is_digit d = true →
  matches DICE_RE (of_chars ("["%char :: "D"%char :: c :: d ++ ["]"%char]))
    = true.
Proof.
  intros Hc Hd. unfold matches, re_match, match_at, start_state.
  rewrite chars_of_chars.
  unfold DICE_RE, cat, lit, lit_l, one, plus, digit.
  cbn [chars list_ascii_of_string].
  cbn [rmatch m_pos m_rest Nat.eqb advance eqc Ascii.eqb Bool.eqb].
  rewrite Hc. cbn [advance m_rest m_pos m_caps m_prev].
  erewrite (rep_cls_then is_digit _ ["]"%char] _ d); [reflexivity | | | | |].
  - reflexivity.
  - exact Hd.
  - reflexivity.
  - rewrite length_app. simpl. lia.
  - match goal with
    | |- context [skip_state ?k ?s] =>
        destruct (skip_state_spec k s) as [H1 H2];
          [cbn [m_rest advance]; rewrite length_app; simpl; lia |]
    end.
    cbn [set_cap m_rest]. rewrite H1. cbn [m_rest advance].
    rewrite skipn_app, Nat.sub_diag, skipn_all. cbn [app skipn].
    reflexivity.
Qed.

End DiceFacts.

(** X26.  The dice notation is a strength kept as text: for every numeral [d],
    [parse_strength] returns the text [[Dd]] itself. *)
Theorem parse_strength_dice (d : string) :
  isdigit d = true →
  parse_strength ("[D" +:+ d +:+ "]") = Some (StrOne (AStr ("[D" +:+ d +:+ "]"))).
Proof.
  intros Hd. apply ParseFacts.isdigit_chars in Hd as (c & l & Hch & Hdig).
  cbn [forallb] in Hdig. apply andb_true_iff in Hdig as [Hc Hl].
  assert (Hchars : chars ("[D" +:+ d +:+ "]") =
                   "["%char :: ("D"%char :: c :: l) ++ ["]"%char]).
  { change ("[D" +:+ d +:+ "]") with (String "[" (String "D" (d +:+ "]"))).
    cbn [chars list_ascii_of_string].
    change (list_ascii_of_string (d +:+ "]")) with (chars (d +:+ "]")).
    rewrite StrFacts.chars_app, Hch. reflexivity. }
  assert (Hstrip : strip ("[D" +:+ d +:+ "]") = "[D" +:+ d +:+ "]").
  { unfold strip. rewrite Hchars.
    rewrite StrFacts.strip_by_ends by reflexivity.
    rewrite <- Hchars. apply StrFacts.of_chars_chars. }
  unfold parse_strength.
  assert (He : is_empty ("[D" +:+ d +:+ "]") = false) by reflexivity.
  rewrite He, Hstrip.
  rewrite <- (StrFacts.of_chars_chars ("[D" +:+ d +:+ "]")) at 1.
  rewrite Hchars. cbn [app].
  rewrite (DiceFacts.dice_matches c l Hc Hl). reflexivity.
Qed.

Lemma parse_strength_dice_witness :
  parse_strength "[D6]" = Some (StrOne (AStr "[D6]")).
Proof. apply (parse_strength_dice "6"). reflexivity. Defined.
